(** * Segment piece updates and project accounting of the satellite

    A shallow embedding of
    - [satellite/metainfo/metabase/update.go] ([UpdateSegmentPieces]) and
    - [satellite/satellitedb/projectaccounting.go] ([prefixIncrement],
      [GetTallies], [GetProjectTotal], [GetBucketUsageRollups],
      [GetBucketTotals], [ArchiveRollupsBefore])
    together with the properties the specification states about them.

    Conventions.  Go integers are [Z] with the wrap-around of their width
    written out where the code computes with them; [[]byte] and Go strings
    are [list byte]; SQL tables are lists of row records (or a finite map
    when the table has a primary key the code looks rows up by); a Go
    [error] result is an [option] of an error value; [float64] quantities
    are the primitive floating-point numbers (IEEE 754 binary64 with
    round to nearest even), every operation rounded on its own. *)

From Stdlib Require Import ZArith NArith List Bool Lia.
From Stdlib Require Import Strings.Byte Sorting.Permutation Sorting.Sorted.
From Stdlib Require Floats.PrimFloat Floats.SpecFloat Floats.FloatOps.
From stdpp Require Import base decidable option list gmap.

Local Open Scope Z_scope.

(** ** Shared vocabulary *)

(** The error classes the two packages return. *)
Inductive error : Type :=
  | ErrInvalidRequest (msg : nat)   (* metabase.ErrInvalidRequest *)
  | ErrObjectNotFound               (* storj.ErrObjectNotFound *)
  | ErrValueChanged                 (* storage.ErrValueChanged *)
  | ErrStore                        (* an error of database/sql: a failed
                                       statement or a failed scan *)
  | ErrPlain (msg : nat).           (* errs.New(...) *)

(** What [database/sql] hands back from [QueryRow(...).Scan]. *)
Inductive scanned (A : Type) : Type :=
  | Row (a : A)
  | ErrNoRows
  | DriverErr.
Arguments Row {A} a.
Arguments ErrNoRows {A}.
Arguments DriverErr {A}.

(** ** metabase: UpdateSegmentPieces *)
Module Metabase.

(** [uuid.UUID] is a 128-bit identifier, [SegmentPosition] a 64-bit index. *)
Abbreviation UUID := N.
Abbreviation SegmentPosition := N.

Record Piece : Type := mkPiece {
  Number : N;        (* uint16 *)
  StorageNode : N    (* storj.NodeID *)
}.

#[global] Instance Piece_eq_dec : EqDecision Piece.
Proof. solve_decision. Defined.

(** [type Pieces []Piece]: an ordered collection. *)
Abbreviation Pieces := (list Piece).

(** Modelled from the spec: the method [Pieces.Equal] is declared elsewhere
    in the package; the specification describes the comparison of piece
    sets as exact set equality that is order-independent.  [Pieces_Equal p q] removes the
    pieces of [p] one by one from [q] and asks that nothing is left. *)
Fixpoint remove_piece (x : Piece) (q : Pieces) : option Pieces :=
  match q with
  | [] => None
  | y :: q' =>
      if decide (x = y) then Some q'
      else match remove_piece x q' with
           | Some r => Some (y :: r)
           | None => None
           end
  end.

Fixpoint Pieces_Equal (p q : Pieces) : bool :=
  match p with
  | [] => match q with [] => true | _ => false end
  | x :: p' =>
      match remove_piece x q with
      | Some q' => Pieces_Equal p' q'
      | None => false
      end
  end.

(** The [segments] table restricted to the columns the statement touches.
    [(stream_id, position)] is its primary key; [remote_pieces] holds the
    pieces in the order they were written.  [broken] stands for a
    connection on which every statement fails with a driver error. *)
Record DB : Type := mkDB {
  segments : gmap (N * N) (list Piece);
  broken : bool
}.

Record UpdateSegmentPiecesOpts : Type := mkOpts {
  StreamID : UUID;
  Position : SegmentPosition;
  OldPieces : Pieces;
  NewPieces : Pieces
}.

(** The statement
    [UPDATE segments SET remote_pieces = CASE WHEN remote_pieces = $3
     THEN $4 ELSE remote_pieces END WHERE stream_id = $1 AND position = $2
     RETURNING remote_pieces].
    SQL [=] on the column is equality of the stored value. *)
Definition update_remote_pieces (db : DB) (sid : UUID) (pos : SegmentPosition)
    (old new : Pieces) : DB * scanned Pieces :=
  if broken db then (db, DriverErr)
  else match segments db !! (sid, pos) with
       | None => (db, ErrNoRows)
       | Some remote_pieces =>
           let v := if decide (remote_pieces = old) then new else remote_pieces in
           (mkDB (<[(sid, pos) := v]> (segments db)) (broken db), Row v)
       end.

Definition UpdateSegmentPieces (db : DB) (opts : UpdateSegmentPiecesOpts)
    : DB * option error :=
  if (StreamID opts =? 0)%N then (db, Some (ErrInvalidRequest 0))
  else if (length (NewPieces opts) =? 0)%nat then (db, Some (ErrInvalidRequest 1))
  else
    match update_remote_pieces db (StreamID opts) (Position opts)
            (OldPieces opts) (NewPieces opts) with
    | (db', ErrNoRows) => (db', Some ErrObjectNotFound)
    | (db', DriverErr) => (db', Some ErrStore)
    | (db', Row pieces) =>
        if negb (Pieces_Equal (NewPieces opts) pieces)
        then (db', Some ErrValueChanged)
        else (db', None)
    end.

(** The stored pieces of a segment. *)
Definition stored (db : DB) (opts : UpdateSegmentPiecesOpts) : option Pieces :=
  segments db !! (StreamID opts, Position opts).

Definition valid (opts : UpdateSegmentPiecesOpts) : Prop :=
  StreamID opts <> 0%N /\ NewPieces opts <> [].

Definition is_InvalidRequest (e : option error) : Prop :=
  exists m, e = Some (ErrInvalidRequest m).

(** Sample data: three pieces and two one-segment tables. *)
Definition p1 : Piece := mkPiece 1 101.
Definition p2 : Piece := mkPiece 2 102.
Definition p3 : Piece := mkPiece 3 103.

Definition db_two : DB := mkDB {[ (7%N, 0%N) := [p1; p2] ]} false.
Definition db_one : DB := mkDB {[ (7%N, 0%N) := [p3] ]} false.

End Metabase.

(** ** satellitedb: byte strings and prefix ranges *)
Module PrefixRange.

(** Unsigned comparison of two bytes, as [bytea] values are ordered. *)
Definition byte_ltb (a b : byte) : bool := (Byte.to_N a <? Byte.to_N b)%N.

(** Lexicographic order on byte strings: [Lt], [Eq] or [Gt]. *)
Fixpoint bytes_compare (s t : list byte) : comparison :=
  match s, t with
  | [], [] => Eq
  | [], _ :: _ => Lt
  | _ :: _, [] => Gt
  | a :: s', b :: t' =>
      match (Byte.to_N a ?= Byte.to_N b)%N with
      | Eq => bytes_compare s' t'
      | c => c
      end
  end.

Definition bytes_ltb (s t : list byte) : bool :=
  match bytes_compare s t with Lt => true | _ => false end.

Definition bytes_leb (s t : list byte) : bool :=
  match bytes_compare s t with Gt => false | _ => true end.

Definition bytes_lt (s t : list byte) : Prop := bytes_compare s t = Lt.
Definition bytes_le (s t : list byte) : Prop := bytes_compare s t <> Gt.

(** [s] starts with [p]. *)
Fixpoint has_prefix (p s : list byte) : bool :=
  match p, s with
  | [], _ => true
  | _ :: _, [] => false
  | a :: p', b :: s' => Byte.eqb a b && has_prefix p' s'
  end.

(** [incremented[i]++] on a byte: addition modulo 256. *)
Definition byte_incr (b : byte) : byte :=
  match Byte.of_N ((Byte.to_N b + 1) mod 256) with
  | Some b' => b'
  | None => b
  end.

(** The loop of [prefixIncrement]: [n] is [i + 1], so [n = 0] is the exit
    condition [i < 0]; an index outside the slice cannot occur, and is
    reported as no result. *)
Fixpoint prefixIncrement_loop (incremented : list byte) (n : nat)
    : option (list byte) :=
  match n with
  | O => None
  | S i =>
      match incremented !! i with
      | Some b =>
          if negb (Byte.eqb b xff)
          then Some (take (S i) (<[i := byte_incr b]> incremented))
          else prefixIncrement_loop incremented i
      | None => None
      end
  end.

(** [prefixIncrement origPrefix]: [Some incremented] for [(incremented,
    true)] and [None] for [(nil, false)]. *)
Definition prefixIncrement (origPrefix : list byte) : option (list byte) :=
  let incremented := origPrefix in
  prefixIncrement_loop incremented (length incremented).

Definition all_ff (p : list byte) : bool := forallb (fun b => Byte.eqb b xff) p.

End PrefixRange.

(** ** satellitedb: project accounting *)
Module Accounting.
Import PrefixRange.

(** *** Machine integers, time and sizes *)

(** [int64(x)] and [uint64(x)] / [uint(x)] (64-bit platforms). *)
Definition wrap64 (z : Z) : Z := (z + 2^63) mod 2^64 - 2^63.
Definition wrapU64 (z : Z) : Z := z mod 2^64.

(** An instant, in nanoseconds since the epoch.  The timestamps of the
    tables are instants, and so are the [time.Time] values of which the
    code uses the instant only: the bounds of the statements and the
    operands of [Sub]. *)
Abbreviation Time := Z.

Definition Hour : Z := 3600 * 1000000000.
Definition minDuration : Z := - 2^63.
Definition maxDuration : Z := 2^63 - 1.

(** [t.Sub(u)]: the difference as a [time.Duration], saturated. *)
Definition Time_Sub (t u : Time) : Z :=
  if t - u <? minDuration then minDuration
  else if maxDuration <? t - u then maxDuration
  else t - u.

(** [float64] and its operations, as compiled without fused
    multiply-add. *)
Abbreviation float64 := PrimFloat.float.

Notation "x [+] y" := (PrimFloat.add x y) (at level 50, left associativity).
Notation "x [*] y" := (PrimFloat.mul x y) (at level 40, left associativity).
Notation "x [/] y" := (PrimFloat.div x y) (at level 40, left associativity).

(** [float64(n)] of an integer: the nearest number, ties to even. *)
Definition float64_of_Z (n : Z) : float64 :=
  FloatOps.SF2Prim
    (SpecFloat.binary_normalize FloatOps.prec FloatOps.emax n 0 false).

(** [d.Hours()] of the [time] package: [hour := d / Hour], [nsec := d %
    Hour] and [float64(hour) + float64(nsec)/(60*60*1e9)], the division of
    integers truncating towards zero. *)
Definition Duration_Hours (d : Z) : float64 :=
  float64_of_Z (Z.quot d Hour)
  [+] float64_of_Z (Z.rem d Hour) [/] float64_of_Z (60 * 60 * 1000000000).

(** A [time.Time] of which the location is read: the instant and the
    offset of the location in seconds east of UTC.  The locations are
    those with one offset, [time.UTC] and the zones of [time.FixedZone]. *)
Record ZonedTime : Type := mkZoned {
  at_instant : Time;
  zone_offset : Z
}.

(** [t.UTC()]. *)
Definition Time_UTC (t : ZonedTime) : ZonedTime := mkZoned (at_instant t) 0.

(** [timeTruncateDown]: [time.Date] of the year, month, day and hour of [t]
    on the wall clock of its location, with no minutes, seconds and
    nanoseconds, in that location. *)
Definition timeTruncateDown (t : ZonedTime) : ZonedTime :=
  let offset := zone_offset t * 1000000000 in
  let wall := at_instant t + offset in
  mkZoned (wall - wall mod Hour - offset) (zone_offset t).

(** [memory.Size(n).Float64()] and [memory.Size(n).GB()], the latter
    [size.Float64() / GB.Float64()] with [GB = 1e9]. *)
Definition Size_Float64 (n : Z) : float64 := float64_of_Z n.
Definition Size_GB (n : Z) : float64 := float64_of_Z n [/] float64_of_Z 1000000000.

(** The piece actions of [pb.PieceAction] the accounting code names. *)
Definition PieceAction_GET : Z := 2.
Definition PieceAction_GET_AUDIT : Z := 3.
Definition PieceAction_GET_REPAIR : Z := 4.

(** *** Tables *)

Abbreviation UUID := N.

(** A row of [bucket_storage_tallies]. *)
Record TallyRow : Type := mkTallyRow {
  tally_project_id : UUID;
  tally_bucket_name : list byte;
  tally_interval_start : Time;
  total_bytes : Z;
  tally_inline : Z;
  tally_remote : Z;
  total_segments_count : Z;
  remote_segments_count : Z;
  inline_segments_count : Z;
  tally_object_count : Z;
  tally_metadata_size : Z
}.

(** A row of [bucket_bandwidth_rollups] and of
    [bucket_bandwidth_rollup_archives]. *)
Record RollupRow : Type := mkRollupRow {
  bw_bucket_name : list byte;
  bw_project_id : UUID;
  bw_interval_start : Time;
  bw_interval_seconds : Z;
  bw_action : Z;
  bw_inline : Z;
  bw_allocated : Z;
  bw_settled : Z
}.

(** A row of [bucket_metainfos], as far as it is read here. *)
Record MetainfoRow : Type := mkMetainfoRow {
  mi_project_id : UUID;
  mi_name : list byte
}.

Inductive dialect : Type := Postgres | Cockroach | OtherImpl.

(** The database handle.  [fault] is the number of statements the
    connection still serves before every further one fails ([None]: it
    never fails).  [round_trips] records, newest first, the action and the
    number of rows moved by each archiving statement that was executed. *)
Record satelliteDB : Type := mkSatelliteDB {
  impl : dialect;
  bucket_storage_tallies : list TallyRow;
  bucket_bandwidth_rollups : list RollupRow;
  bucket_bandwidth_rollup_archives : list RollupRow;
  bucket_metainfos : list MetainfoRow;
  fault : option nat;
  round_trips : list (option Z * Z)
}.

Definition set_fault (db : satelliteDB) (f : option nat) : satelliteDB :=
  mkSatelliteDB (impl db) (bucket_storage_tallies db)
    (bucket_bandwidth_rollups db) (bucket_bandwidth_rollup_archives db)
    (bucket_metainfos db) f (round_trips db).

Definition set_rollups (db : satelliteDB) (live archive : list RollupRow)
    (trip : option Z * Z) : satelliteDB :=
  mkSatelliteDB (impl db) (bucket_storage_tallies db) live archive
    (bucket_metainfos db) (fault db) (trip :: round_trips db).

(** *** A state and error monad for the calls on the handle *)

Inductive outcome (A : Type) : Type :=
  | Ok (a : A)
  | Err (e : error)
  | Panic.                  (* a Go run-time panic *)
Arguments Ok {A} a.
Arguments Err {A} e.
Arguments Panic {A}.

Definition M (A : Type) : Type := satelliteDB -> outcome A * satelliteDB.

Definition ret {A} (a : A) : M A := fun db => (Ok a, db).
Definition fail {A} (e : error) : M A := fun db => (Err e, db).
Definition panic {A} : M A := fun db => (Panic, db).

Definition bind {A B} (m : M A) (k : A -> M B) : M B :=
  fun db =>
    match m db with
    | (Ok a, db') => k a db'
    | (Err e, db') => (Err e, db')
    | (Panic, db') => (Panic, db')
    end.

Notation "'do' x <- m ; k" := (bind m (fun x => k))
  (at level 10, x name, m at level 100, k at level 200).

(** A read-only statement: it fails when the connection does. *)
Definition query {A} (q : satelliteDB -> A) : M A :=
  fun db =>
    match fault db with
    | Some O => (Err ErrStore, db)
    | Some (S n) => (Ok (q db), set_fault db (Some n))
    | None => (Ok (q db), db)
    end.

Fixpoint mapM {A B} (f : A -> M B) (l : list A) : M (list B) :=
  match l with
  | [] => ret []
  | x :: l' => do y <- f x; do ys <- mapM f l'; ret (y :: ys)
  end.

(** [Scan] of a [SUM] into an [int64].  The sum of a [bigint] column is a
    [numeric]; one that is not an [int64] makes the scan fail. *)
Definition scan_int64 (v : Z) : M Z :=
  if (- 2^63 <=? v) && (v <? 2^63) then ret v else fail ErrStore.

(** *** Relational helpers *)

(** [WHERE interval_start >= since AND interval_start <= before]. *)
Definition in_window (since before t : Time) : bool :=
  (since <=? t) && (t <=? before).

Definition bytes_eqb (s t : list byte) : bool :=
  match bytes_compare s t with Eq => true | _ => false end.

(** [SELECT DISTINCT] and [GROUP BY]: each value once, at its first
    occurrence. *)
Fixpoint distinct {A} (eqb : A -> A -> bool) (l : list A) : list A :=
  match l with
  | [] => []
  | x :: l' => x :: List.filter (fun y => negb (eqb x y)) (distinct eqb l')
  end.

(** [ORDER BY interval_start DESC] by insertion. *)
Fixpoint insert_desc (r : TallyRow) (l : list TallyRow) : list TallyRow :=
  match l with
  | [] => [r]
  | x :: l' =>
      if tally_interval_start x <=? tally_interval_start r
      then r :: x :: l'
      else x :: insert_desc r l'
  end.

Fixpoint order_desc (l : list TallyRow) : list TallyRow :=
  match l with
  | [] => []
  | r :: l' => insert_desc r (order_desc l')
  end.

(** [ORDER BY name ASC] by insertion. *)
Fixpoint insert_name (n : list byte) (l : list (list byte)) : list (list byte) :=
  match l with
  | [] => [n]
  | x :: l' => if bytes_leb n x then n :: x :: l' else x :: insert_name n l'
  end.

Fixpoint order_names (l : list (list byte)) : list (list byte) :=
  match l with
  | [] => []
  | n :: l' => insert_name n (order_names l')
  end.

Definition sumZ (l : list Z) : Z := fold_right Z.add 0 l.

(** *** GetTallies *)

(** [accounting.BucketTally]. *)
Record BucketTally : Type := mkBucketTally {
  bt_ProjectID : UUID;
  bt_BucketName : list byte;
  bt_ObjectCount : Z;
  bt_TotalSegments : Z;
  bt_TotalBytes : Z;
  bt_MetadataSize : Z
}.

(** The body of the loop of [GetTallies].  The generated row type keeps the
    counters in unsigned fields, which the code converts with [int64(...)]. *)
Definition tally_of_dbx (dbxTally : TallyRow) : BucketTally :=
  let totalBytes := total_bytes dbxTally in
  let totalBytes :=
    if totalBytes =? 0
    then wrapU64 (tally_inline dbxTally + tally_remote dbxTally)
    else totalBytes in
  let totalSegments := total_segments_count dbxTally in
  let totalSegments :=
    if totalSegments =? 0
    then wrapU64 (inline_segments_count dbxTally + remote_segments_count dbxTally)
    else totalSegments in
  {| bt_ProjectID := tally_project_id dbxTally;
     bt_BucketName := tally_bucket_name dbxTally;
     bt_ObjectCount := wrap64 (tally_object_count dbxTally);
     bt_TotalSegments := wrap64 totalSegments;
     bt_TotalBytes := wrap64 totalBytes;
     bt_MetadataSize := wrap64 (tally_metadata_size dbxTally) |}.

Definition GetTallies : M (list BucketTally) :=
  do dbxTallies <- query bucket_storage_tallies;
  ret (map tally_of_dbx dbxTallies).

(** *** GetProjectTotal *)

(** [accounting.BucketStorageTally], as far as it is filled here. *)
Record BucketStorageTally : Type := mkBucketStorageTally {
  bst_BucketName : list byte;
  bst_IntervalStart : Time;
  bst_ObjectCount : Z;
  bst_TotalBytes : Z
}.

(** Modelled from the spec: the method [Bytes] of [BucketStorageTally] is
    declared elsewhere in the repository; the specification weights a
    tally by its byte count, the field [TotalBytes]. *)
Definition Bytes (s : BucketStorageTally) : Z := bst_TotalBytes s.

(** [accounting.ProjectUsage]. *)
Record ProjectUsage : Type := mkProjectUsage {
  Storage : float64;
  Egress : Z;
  ObjectCount : float64;
  Since : ZonedTime;
  Before : Time
}.

Definition tally_selected (projectID : UUID) (bucket : list byte)
    (since before : Time) (r : TallyRow) : bool :=
  (tally_project_id r =? projectID)%N
  && bytes_eqb (tally_bucket_name r) bucket
  && in_window since before (tally_interval_start r).

(** The rows [storageQuery] yields, newest first. *)
Definition storage_rows (projectID : UUID) (bucket : list byte)
    (since before : Time) (db : satelliteDB) : list TallyRow :=
  order_desc
    (List.filter (tally_selected projectID bucket since before)
       (bucket_storage_tallies db)).

Definition getBucketsSinceAndBefore (projectID : UUID) (since before : Time)
    : M (list (list byte)) :=
  query (fun db =>
    distinct bytes_eqb
      (map tally_bucket_name
         (List.filter
            (fun r => (tally_project_id r =? projectID)%N
                      && in_window since before (tally_interval_start r))
            (bucket_storage_tallies db)))).

Definition rollup_selected (projectID : UUID) (since before : Time)
    (action : Z) (r : RollupRow) : bool :=
  (bw_project_id r =? projectID)%N
  && in_window since before (bw_interval_start r)
  && (bw_action r =? action).

(** [COALESCE(SUM(settled) + SUM(inline), 0)] over the GET rollups,
    scanned into [totalEgress int64]. *)
Definition getTotalEgress (projectID : UUID) (since before : Time) : M Z :=
  do total <- query (fun db =>
    let rows := List.filter
                  (rollup_selected projectID since before PieceAction_GET)
                  (bucket_bandwidth_rollups db) in
    sumZ (map bw_settled rows) + sumZ (map bw_inline rows));
  scan_int64 total.

(** The scan of one row of [storageQuery]. *)
Definition scan_storage_tally (bucket : list byte) (row : TallyRow)
    : BucketStorageTally :=
  let TotalBytes := total_bytes row in
  let TotalBytes :=
    if TotalBytes =? 0
    then wrap64 (tally_inline row + tally_remote row)
    else TotalBytes in
  {| bst_BucketName := bucket;
     bst_IntervalStart := tally_interval_start row;
     bst_ObjectCount := tally_object_count row;
     bst_TotalBytes := TotalBytes |}.

(** [bucketsTallies[bucket] = storageTallies] on a Go map, kept as an
    association list. *)
Fixpoint assign {V} (k : list byte) (v : V) (m : list (list byte * V))
    : list (list byte * V) :=
  match m with
  | [] => [(k, v)]
  | (k', v') :: m' =>
      if bytes_eqb k k' then (k, v) :: m' else (k', v') :: assign k v m'
  end.

Fixpoint collect_tallies (projectID : UUID) (since before : Time)
    (bucketNames : list (list byte))
    (bucketsTallies : list (list byte * list BucketStorageTally))
    : M (list (list byte * list BucketStorageTally)) :=
  match bucketNames with
  | [] => ret bucketsTallies
  | bucket :: rest =>
      do rows <- query (storage_rows projectID bucket since before);
      let storageTallies := map (scan_storage_tally bucket) rows in
      collect_tallies projectID since before rest
        (assign bucket storageTallies bucketsTallies)
  end.

(** [for i := len(tallies) - 1; i > 0; i--]: the accumulators are
    [usage.Storage] and [usage.ObjectCount]; [None] is an index out of
    range. *)
Fixpoint sum_tallies (tallies : list BucketStorageTally) (i : nat)
    (usage : float64 * float64) : option (float64 * float64) :=
  match i with
  | O => Some usage
  | S j =>
      match tallies !! i, tallies !! j with
      | Some current, Some newer =>
          let hours :=
            Duration_Hours
              (Time_Sub (bst_IntervalStart newer) (bst_IntervalStart current)) in
          sum_tallies tallies j
            (fst usage [+] Size_Float64 (Bytes current) [*] hours,
             snd usage [+] float64_of_Z (bst_ObjectCount current) [*] hours)
      | _, _ => None
      end
  end.

Fixpoint sum_buckets (bucketsTallies : list (list byte * list BucketStorageTally))
    (usage : float64 * float64) : option (float64 * float64) :=
  match bucketsTallies with
  | [] => Some usage
  | (_, tallies) :: rest =>
      match sum_tallies tallies (length tallies - 1)%nat usage with
      | Some usage' => sum_buckets rest usage'
      | None => None
      end
  end.

(** [for _, tallies := range bucketsTallies]: the order in which [range]
    visits the entries of a Go map is not specified; it is an input. *)
Definition range_order : Type :=
  list (list byte * list BucketStorageTally)
  -> list (list byte * list BucketStorageTally).

Definition GetProjectTotal (order : range_order) (projectID : UUID)
    (since : ZonedTime) (before : Time) : M ProjectUsage :=
  let since := timeTruncateDown since in
  do bucketNames <- getBucketsSinceAndBefore projectID (at_instant since) before;
  do bucketsTallies <-
    collect_tallies projectID (at_instant since) before bucketNames [];
  do totalEgress <- getTotalEgress projectID (at_instant since) before;
  match sum_buckets (order bucketsTallies) (PrimFloat.zero, PrimFloat.zero) with
  | Some (storage, objectCount) =>
      ret {| Storage := storage; Egress := totalEgress;
             ObjectCount := objectCount; Since := since; Before := before |}
  | None => panic
  end.

(** *** GetBucketUsageRollups *)

(** [accounting.BucketUsageRollup]. *)
Record BucketUsageRollup : Type := mkBucketUsageRollup {
  bur_ProjectID : UUID;
  bur_BucketName : list byte;
  TotalStoredData : float64;
  TotalSegments : float64;
  bur_ObjectCount : float64;
  MetadataSize : float64;
  RepairEgress : float64;
  GetEgress : float64;
  AuditEgress : float64;
  bur_Since : ZonedTime;
  bur_Before : Time
}.

(** [SELECT SUM(settled), SUM(inline), action ... GROUP BY action]. *)
Definition rollups_by_action (projectID : UUID) (bucket : list byte)
    (since before : Time) (db : satelliteDB) : list (Z * Z * Z) :=
  let rows :=
    List.filter
      (fun r => (bw_project_id r =? projectID)%N
                && bytes_eqb (bw_bucket_name r) bucket
                && in_window since before (bw_interval_start r))
      (bucket_bandwidth_rollups db) in
  map (fun a =>
         let group := List.filter (fun r => bw_action r =? a) rows in
         (sumZ (map bw_settled group), sumZ (map bw_inline group), a))
      (distinct Z.eqb (map bw_action rows)).

Definition set_egress (r : BucketUsageRollup) (repair get audit : float64)
    : BucketUsageRollup :=
  mkBucketUsageRollup (bur_ProjectID r) (bur_BucketName r) (TotalStoredData r)
    (TotalSegments r) (bur_ObjectCount r) (MetadataSize r) repair get audit
    (bur_Since r) (bur_Before r).

(** The [switch action] of the egress loop. *)
Definition fill_egress (bucketRollup : BucketUsageRollup) (row : Z * Z * Z)
    : BucketUsageRollup :=
  let '(settled, inline, action) := row in
  let gb := Size_GB (wrap64 (settled + inline)) in
  if action =? PieceAction_GET then
    set_egress bucketRollup (RepairEgress bucketRollup)
      (GetEgress bucketRollup [+] gb) (AuditEgress bucketRollup)
  else if action =? PieceAction_GET_AUDIT then
    set_egress bucketRollup (RepairEgress bucketRollup)
      (GetEgress bucketRollup) (AuditEgress bucketRollup [+] gb)
  else if action =? PieceAction_GET_REPAIR then
    set_egress bucketRollup (RepairEgress bucketRollup [+] gb)
      (GetEgress bucketRollup) (AuditEgress bucketRollup)
  else bucketRollup.

(** The egress loop: [rollupsRows.Scan(&settled, &inline, &action)] with
    [settled, inline int64], then the [switch]; a scan that fails ends the
    call.  ([action] is an integer column, as [pb.PieceAction] is.) *)
Fixpoint scan_egress (rollupsRows : list (Z * Z * Z))
    (bucketRollup : BucketUsageRollup) : M BucketUsageRollup :=
  match rollupsRows with
  | [] => ret bucketRollup
  | (settled, inline, action) :: rest =>
      do settled <- scan_int64 settled;
      do inline <- scan_int64 inline;
      scan_egress rest (fill_egress bucketRollup (settled, inline, action))
  end.

(** The byte count and the segment count a tally enters the rollup with:
    the two [if ... > 0 ... else ...] of the storage loop, on the unsigned
    fields of the generated row type. *)
Definition rollup_stored_bytes (current : TallyRow) : Z :=
  if 0 <? total_bytes current
  then wrap64 (total_bytes current)
  else wrap64 (wrapU64 (tally_remote current + tally_inline current)).

Definition rollup_segments (current : TallyRow) : Z :=
  if 0 <? total_segments_count current
  then total_segments_count current
  else wrapU64 (remote_segments_count current + inline_segments_count current).

Definition add_storage (r : BucketUsageRollup) (current : TallyRow)
    (hours : float64) : BucketUsageRollup :=
  mkBucketUsageRollup (bur_ProjectID r) (bur_BucketName r)
    (TotalStoredData r [+] Size_GB (rollup_stored_bytes current) [*] hours)
    (TotalSegments r [+] float64_of_Z (rollup_segments current) [*] hours)
    (bur_ObjectCount r [+] float64_of_Z (tally_object_count current) [*] hours)
    (MetadataSize r
     [+] Size_GB (wrap64 (tally_metadata_size current)) [*] hours)
    (RepairEgress r) (GetEgress r) (AuditEgress r) (bur_Since r) (bur_Before r).

(** [for i := len(bucketStorageTallies) - 1; i > 0; i--]. *)
Fixpoint fill_storage (bucketStorageTallies : list TallyRow) (i : nat)
    (bucketRollup : BucketUsageRollup) : option BucketUsageRollup :=
  match i with
  | O => Some bucketRollup
  | S j =>
      match bucketStorageTallies !! i, bucketStorageTallies !! j with
      | Some current, Some newer =>
          let hours :=
            Duration_Hours
              (Time_Sub (tally_interval_start newer)
                 (tally_interval_start current)) in
          fill_storage bucketStorageTallies j
            (add_storage bucketRollup current hours)
      | _, _ => None
      end
  end.

Definition bucket_usage_rollup (projectID : UUID) (since : ZonedTime)
    (before : Time) (bucket : list byte) : M BucketUsageRollup :=
  let zero := PrimFloat.zero in
  let bucketRollup :=
    mkBucketUsageRollup projectID bucket zero zero zero zero zero zero zero
      since before in
  do rollupsRows <-
    query (rollups_by_action projectID bucket (at_instant since) before);
  do bucketRollup <- scan_egress rollupsRows bucketRollup;
  do bucketStorageTallies <-
    query (storage_rows projectID bucket (at_instant since) before);
  match fill_storage bucketStorageTallies
          (length bucketStorageTallies - 1)%nat bucketRollup with
  | Some r => ret r
  | None => panic
  end.

Definition GetBucketUsageRollups (projectID : UUID) (since : ZonedTime)
    (before : Time) : M (list BucketUsageRollup) :=
  let since := timeTruncateDown (Time_UTC since) in
  do buckets <- getBucketsSinceAndBefore projectID (at_instant since) before;
  mapM (bucket_usage_rollup projectID since before) buckets.

(** *** prefixMatch and GetBucketTotals *)

(** The two shapes of the range expression: [(name >= ?)] and
    [(name >= ? AND name < ?)]. *)
Inductive range_expr : Type := RangeFrom | RangeBetween.

Definition prefixMatch (db : satelliteDB) (prefix : list byte)
    : outcome (range_expr * option (list byte)) :=
  let r := prefixIncrement prefix in
  match impl db with
  | Postgres | Cockroach =>
      match r with
      | None => Ok (RangeFrom, None)
      | Some incrementedPrefix => Ok (RangeBetween, Some incrementedPrefix)
      end
  | OtherImpl => Err (ErrPlain 2)
  end.

(** The range expression on its bound arguments; a statement with too few
    arguments selects nothing. *)
Definition eval_range (e : range_expr) (args : list (list byte))
    (name : list byte) : bool :=
  match e, args with
  | RangeFrom, lo :: _ => bytes_leb lo name
  | RangeBetween, lo :: hi :: _ => bytes_leb lo name && bytes_ltb name hi
  | _, _ => false
  end.

(** [accounting.BucketUsageCursor], [BucketUsage] and [BucketUsagePage]. *)
Record BucketUsageCursor : Type := mkCursor {
  cur_Search : list byte;
  cur_Limit : Z;      (* uint *)
  cur_Page : Z        (* uint *)
}.

Record BucketUsage : Type := mkBucketUsage {
  bu_ProjectID : UUID;
  bu_BucketName : list byte;
  bu_Storage : float64;
  bu_Egress : float64;
  bu_ObjectCount : Z;
  bu_Since : ZonedTime;
  bu_Before : Time
}.

Record BucketUsagePage : Type := mkPage {
  BucketUsages : list BucketUsage;
  Search : list byte;
  Limit : Z;          (* uint *)
  Offset : Z;         (* uint64 *)
  PageCount : Z;      (* uint *)
  CurrentPage : Z;    (* uint *)
  TotalCount : Z      (* uint64 *)
}.

Definition matching_names (projectID : UUID) (e : range_expr)
    (args : list (list byte)) (db : satelliteDB) : list (list byte) :=
  map mi_name
    (List.filter
       (fun r => (mi_project_id r =? projectID)%N && eval_range e args (mi_name r))
       (bucket_metainfos db)).

(** [... ORDER BY interval_start DESC LIMIT 1], scanned into a zero
    [tally], [inline] and [remote]; no row leaves them zero. *)
Definition latest_tally (projectID : UUID) (bucket : list byte)
    (since before : Time) (db : satelliteDB) : Z * Z * Z * Z :=
  match storage_rows projectID bucket since before db with
  | row :: _ =>
      (total_bytes row, tally_inline row, tally_remote row,
       tally_object_count row)
  | [] => (0, 0, 0, 0)
  end.

Definition bucket_usage (projectID : UUID) (since : ZonedTime)
    (before : Time) (bucket : list byte) : M BucketUsage :=
  do total <- query (fun db =>
      let rows :=
        List.filter
          (fun r => rollup_selected projectID (at_instant since) before
                      PieceAction_GET r
                    && bytes_eqb (bw_bucket_name r) bucket)
          (bucket_bandwidth_rollups db) in
      sumZ (map bw_settled rows) + sumZ (map bw_inline rows));
  do egress <- scan_int64 total;
  do scan <- query (latest_tally projectID bucket (at_instant since) before);
  let '(TotalBytes, inline, remote, objectCount) := scan in
  let TotalBytes :=
    if TotalBytes =? 0 then wrap64 (inline + remote) else TotalBytes in
  let tally := mkBucketStorageTally [] 0 objectCount TotalBytes in
  ret {| bu_ProjectID := projectID; bu_BucketName := bucket;
         bu_Storage := Size_GB (Bytes tally);
         bu_Egress := Size_GB egress;
         bu_ObjectCount := bst_ObjectCount tally;
         bu_Since := since; bu_Before := before |}.

Definition GetBucketTotals (projectID : UUID) (cursor : BucketUsageCursor)
    (since : ZonedTime) (before : Time) : M BucketUsagePage :=
  let since := timeTruncateDown since in
  let bucketPrefix := cur_Search cursor in
  let cursor_Limit := if 50 <? cur_Limit cursor then 50 else cur_Limit cursor in
  if cur_Page cursor =? 0 then fail (ErrPlain 0)
  else
    let page_Offset := wrapU64 (wrapU64 (cur_Page cursor - 1) * cursor_Limit) in
    fun db =>
    match prefixMatch db bucketPrefix with
    | Err e => (Err e, db)
    | Panic => (Panic, db)
    | Ok (bucketNameRange, incrPrefix) =>
        let args :=
          match incrPrefix with
          | Some p => [bucketPrefix; p]
          | None => [bucketPrefix]
          end in
        (do page_TotalCount <- query (fun db =>
            Z.of_nat (length (matching_names projectID bucketNameRange args db)));
         if page_TotalCount =? 0 then
           ret (mkPage [] (cur_Search cursor) cursor_Limit page_Offset 0 0
                  page_TotalCount)
         else if wrapU64 (page_TotalCount - 1) <? page_Offset then
           fail (ErrPlain 1)
         else
           do buckets <- query (fun db =>
               take (Z.to_nat cursor_Limit)
                 (drop (Z.to_nat page_Offset)
                    (order_names
                       (matching_names projectID bucketNameRange args db))));
           do bucketUsages <- mapM (bucket_usage projectID since before) buckets;
           if cursor_Limit =? 0 then panic
           else
             let page_PageCount := page_TotalCount / cursor_Limit in
             let page_PageCount :=
               if negb (page_TotalCount mod cursor_Limit =? 0)
               then wrapU64 (page_PageCount + 1)
               else page_PageCount in
             ret (mkPage bucketUsages (cur_Search cursor) cursor_Limit
                    page_Offset page_PageCount (cur_Page cursor)
                    page_TotalCount)) db
    end.

(** *** ArchiveRollupsBefore *)

(** [DELETE ... LIMIT n RETURNING *]: the first [n] rows that satisfy the
    condition (all of them without a limit), and the rows that stay. *)
Fixpoint take_matching (P : RollupRow -> bool) (limit : option nat)
    (l : list RollupRow) : list RollupRow * list RollupRow :=
  match l with
  | [] => ([], [])
  | x :: l' =>
      if P x then
        match limit with
        | Some O => ([], x :: l')
        | Some (S n) =>
            let '(moved, rest) := take_matching P (Some n) l' in
            (x :: moved, rest)
        | None =>
            let '(moved, rest) := take_matching P None l' in
            (x :: moved, rest)
        end
      else
        let '(moved, rest) := take_matching P limit l' in
        (moved, x :: rest)
  end.

Definition to_archive (action : option Z) (before : Time) (r : RollupRow)
    : bool :=
  match action with
  | Some a => (bw_action r =? a) && (bw_interval_start r <=? before)
  | None => bw_interval_start r <=? before
  end.

(** One archiving statement: delete from the live table, insert what was
    deleted into the archive, count it.  It is atomic: when the connection
    fails nothing has moved. *)
Definition archive_statement (action : option Z) (before : Time)
    (limit : option Z) (db : satelliteDB) : scanned Z * satelliteDB :=
  match fault db with
  | Some O => (DriverErr, db)
  | f =>
      let '(moved, rest) :=
        take_matching (to_archive action before) (option_map Z.to_nat limit)
          (bucket_bandwidth_rollups db) in
      let rowCount := Z.of_nat (length moved) in
      (Row rowCount,
       set_fault
         (set_rollups db rest (bucket_bandwidth_rollup_archives db ++ moved)
            (action, rowCount))
         (option_map Nat.pred f))
  end.

(** The [for { ... }] of [archiveRollupsBeforeByAction], started with
    [archivedCount]; the outer [None] is a loop that is still running when
    [fuel] rounds are done. *)
Fixpoint archive_loop (fuel : nat) (action : Z) (before : Time)
    (batchSize : Z) (archivedCount : Z) (db : satelliteDB)
    : option ((Z * option error) * satelliteDB) :=
  match fuel with
  | O => None
  | S fuel' =>
      match archive_statement (Some action) before (Some batchSize) db with
      | (Row rowCount, db') =>
          let archivedCount := archivedCount + rowCount in
          if rowCount <? batchSize then Some ((archivedCount, None), db')
          else archive_loop fuel' action before batchSize archivedCount db'
      | (_, db') => Some ((archivedCount, Some ErrStore), db')
      end
  end.

Definition archiveRollupsBeforeByAction (fuel : nat) (action : Z)
    (before : Time) (batchSize : Z) (db : satelliteDB)
    : option ((Z * option error) * satelliteDB) :=
  archive_loop fuel action before batchSize 0 db.

(** [for action := range pb.PieceAction_name]: [actions] are the keys of
    that map in the order the range statement yields them. *)
Fixpoint archive_actions (fuel : nat) (actions : list Z) (before : Time)
    (batchSize : Z) (archivedCount : Z) (db : satelliteDB)
    : option ((Z * option error) * satelliteDB) :=
  match actions with
  | [] => Some ((archivedCount, None), db)
  | action :: rest =>
      match archiveRollupsBeforeByAction fuel action before batchSize db with
      | None => None
      | Some ((count, err), db') =>
          let archivedCount := archivedCount + count in
          match err with
          | Some _ => Some ((archivedCount, Some ErrStore), db')
          | None => archive_actions fuel rest before batchSize archivedCount db'
          end
      end
  end.

Definition ArchiveRollupsBefore (fuel : nat) (actions : list Z)
    (before : Time) (batchSize : Z) (db : satelliteDB)
    : option ((Z * option error) * satelliteDB) :=
  if batchSize <=? 0 then Some ((0, None), db)
  else
    match impl db with
    | Cockroach => archive_actions fuel actions before batchSize 0 db
    | Postgres =>
        match archive_statement None before None db with
        | (Row archivedCount, db') => Some ((archivedCount, None), db')
        | (_, db') => Some ((0, Some ErrStore), db')
        end
    | OtherImpl => Some ((0, None), db)
    end.

(** The rows of the live table an action has to give up. *)
Definition pending (action : Z) (before : Time) (db : satelliteDB)
    : list RollupRow :=
  List.filter (to_archive (Some action) before) (bucket_bandwidth_rollups db).

(** The statements executed since [db0], oldest first. *)
Definition trips_since (db0 db : satelliteDB) : list (option Z * Z) :=
  rev (take (length (round_trips db) - length (round_trips db0))%nat
         (round_trips db)).

(** *** The specification's reading of the computations *)

(** The effective value of a counter with a legacy split: the canonical
    column unless it is zero, else the sum of the two legacy columns. *)
Definition effective_value (canonical legacy1 legacy2 : Z) : Z :=
  if canonical =? 0 then legacy1 + legacy2 else canonical.

Definition effective_bytes (r : TallyRow) : Z :=
  effective_value (total_bytes r) (tally_inline r) (tally_remote r).

Definition effective_segments (r : TallyRow) : Z :=
  effective_value (total_segments_count r) (inline_segments_count r)
    (remote_segments_count r).

(** The tally of a bucket a stored row stands for, with its effective
    bytes. *)
Definition effective_tally (bucket : list byte) (r : TallyRow)
    : BucketStorageTally :=
  mkBucketStorageTally bucket (tally_interval_start r) (tally_object_count r)
    (effective_bytes r).

(** One reading of the egress of an action: the sums of the groups with
    that action, in GB, added up from zero. *)
Definition egress_of (action : Z) (rows : list (Z * Z * Z)) : float64 :=
  fold_left
    (fun acc row =>
       if snd row =? action
       then acc [+] Size_GB (wrap64 (fst (fst row) + snd (fst row)))
       else acc)
    rows PrimFloat.zero.

(** The counters of a row are non-negative and they, and the sums of the
    legacy columns, fit a signed 64-bit column. *)
Definition counter (z : Z) : Prop := 0 <= z < 2^63.

Definition counters_in_range (r : TallyRow) : Prop :=
  counter (total_bytes r) /\ counter (tally_inline r) /\ counter (tally_remote r)
  /\ counter (tally_inline r + tally_remote r)
  /\ counter (total_segments_count r) /\ counter (inline_segments_count r)
  /\ counter (remote_segments_count r)
  /\ counter (inline_segments_count r + remote_segments_count r).

(** Hours from a tally that starts at [current] to a newer one that
    starts at [newer]. *)
Definition hours_between (newer current : Time) : float64 :=
  Duration_Hours (Time_Sub newer current).

(** Interval weighting of a list of tallies given newest first, added to
    [acc]: every tally but the first adds its figure [f] times the hours
    until the tally before it in the list, the oldest tally first; the
    first tally of the list adds nothing. *)
Fixpoint weighted {A} (start : A -> Time) (f : A -> float64)
    (tallies : list A) (acc : float64) : float64 :=
  match tallies with
  | [] => acc
  | newer :: rest =>
      match rest with
      | [] => acc
      | current :: _ =>
          weighted start f rest acc
          [+] f current [*] hours_between (start newer) (start current)
      end
  end.

(** The weighting of the tallies of one bucket after the other, on one
    accumulator. *)
Definition weighted_buckets {A} (start : A -> Time) (f : A -> float64)
    (buckets : list (list A)) (acc : float64) : float64 :=
  fold_left (fun acc tallies => weighted start f tallies acc) buckets acc.

Definition tally_bytes (t : BucketStorageTally) : float64 :=
  Size_Float64 (Bytes t).
Definition tally_objects (t : BucketStorageTally) : float64 :=
  float64_of_Z (bst_ObjectCount t).


(** [lo] is the start of the hour of [t] on the wall clock of its
    location. *)
Definition hour_start (t : ZonedTime) (lo : Time) : Prop :=
  (lo + zone_offset t * 1000000000) mod Hour = 0
  /\ lo <= at_instant t < lo + Hour.

(** An [int64], and tables of which every sum of settled and inline
    bandwidth is one. *)
Definition int64_range (z : Z) : Prop := - 2^63 <= z < 2^63.

Definition bandwidth_fits (db : satelliteDB) : Prop :=
  sumZ (map (fun r => Z.abs (bw_settled r) + Z.abs (bw_inline r))
          (bucket_bandwidth_rollups db)) < 2^63.

(** The bucket names with a tally in the window and the tallies of one
    bucket in the window, as [GetProjectTotal] reads them. *)
Definition window_buckets (projectID : UUID) (since before : Time)
    (db : satelliteDB) : list (list byte) :=
  distinct bytes_eqb
    (map tally_bucket_name
       (List.filter
          (fun r => (tally_project_id r =? projectID)%N
                    && in_window since before (tally_interval_start r))
          (bucket_storage_tallies db))).

Definition window_tallies (projectID : UUID) (since before : Time)
    (db : satelliteDB) (bucket : list byte) : list BucketStorageTally :=
  map (scan_storage_tally bucket) (storage_rows projectID bucket since before db).

(** The entries of the map [bucketsTallies], in the order in which they
    are put in. *)
Definition window_entries (projectID : UUID) (since before : Time)
    (db : satelliteDB) : list (list byte * list BucketStorageTally) :=
  map (fun b => (b, window_tallies projectID since before db b))
    (window_buckets projectID since before db).


(** The GET rollups of a project in the window. *)
Definition egress_rows (projectID : UUID) (since before : Time)
    (db : satelliteDB) : list RollupRow :=
  List.filter (rollup_selected projectID since before PieceAction_GET)
    (bucket_bandwidth_rollups db).

(** A tally row with a canonical byte count and no legacy counters. *)
Definition plain_tally (projectID : UUID) (bucket : list byte) (t : Time)
    (bytes objects : Z) : TallyRow :=
  mkTallyRow projectID bucket t bytes 0 0 0 0 0 objects 0.


(** The tables without the tallies and rollups that start after
    [before]. *)
Definition up_to (before : Time) (db : satelliteDB) : satelliteDB :=
  mkSatelliteDB (impl db)
    (List.filter (fun r => tally_interval_start r <=? before)
       (bucket_storage_tallies db))
    (List.filter (fun r => bw_interval_start r <=? before)
       (bucket_bandwidth_rollups db))
    (bucket_bandwidth_rollup_archives db) (bucket_metainfos db) (fault db)
    (round_trips db).

(** The tables without the tallies and rollups that start at [before] or
    later. *)
Definition strictly_before (before : Time) (db : satelliteDB) : satelliteDB :=
  mkSatelliteDB (impl db)
    (List.filter (fun r => tally_interval_start r <? before)
       (bucket_storage_tallies db))
    (List.filter (fun r => bw_interval_start r <? before)
       (bucket_bandwidth_rollups db))
    (bucket_bandwidth_rollup_archives db) (bucket_metainfos db) (fault db)
    (round_trips db).

(** Sample data: an instant in UTC, and a quarter past six in the morning
    of a zone five and a half hours east of UTC, which is a quarter to one
    in UTC. *)
Definition in_utc (t : Time) : ZonedTime := mkZoned t 0.

Definition zoned_morning : ZonedTime := mkZoned (45 * 60 * 1000000000) 19800.

(** Sample data: bucket [a] of project 1 with a tally of 10 bytes at hour
    0 and one of 20 bytes at hour 1, and a GET rollup at hour 1. *)
Definition bucket_a : list byte := [x61].

Definition db_boundary : satelliteDB :=
  mkSatelliteDB Postgres
    [plain_tally 1 bucket_a 0 10 1; plain_tally 1 bucket_a Hour 20 2]
    [mkRollupRow bucket_a 1 Hour 3600 PieceAction_GET 2 0 5]
    [] [] None [].

(** The range expression and its arguments for a search prefix, and the
    number of buckets of a project it selects. *)
Definition search_range (prefix : list byte) : range_expr * list (list byte) :=
  match prefixIncrement prefix with
  | None => (RangeFrom, [prefix])
  | Some p => (RangeBetween, [prefix; p])
  end.

Definition total_matching (projectID : UUID) (prefix : list byte)
    (db : satelliteDB) : Z :=
  Z.of_nat
    (length (matching_names projectID (fst (search_range prefix))
               (snd (search_range prefix)) db)).

(** The buckets of a project whose name starts with the search prefix. *)
Definition matching_buckets (projectID : UUID) (prefix : list byte)
    (db : satelliteDB) : list MetainfoRow :=
  List.filter
    (fun r => (mi_project_id r =? projectID)%N && has_prefix prefix (mi_name r))
    (bucket_metainfos db).

(** The page size after [if cursor.Limit > 50 { cursor.Limit = 50 }]. *)
Definition capped (cursor : BucketUsageCursor) : Z :=
  if 50 <? cur_Limit cursor then 50 else cur_Limit cursor.

(** The ceiling of [a / b]. *)
Definition ceil_div (a b : Z) : Z := (a + b - 1) / b.

(** The round trips of one action that has [m] rows to give up, oldest
    first: full batches, then one batch that is not full. *)
Definition rounds (action : Z) (batchSize m : Z) : list (option Z * Z) :=
  replicate (Z.to_nat (m / batchSize)) (Some action, batchSize)
  ++ [(Some action, m mod batchSize)].

Definition pending_count (action : Z) (before : Time) (db : satelliteDB) : Z :=
  Z.of_nat (length (pending action before db)).

(** Rows that arrived in the archive, and rows that left the live table,
    between [db0] and [db]. *)
Definition archived_rows (db0 db : satelliteDB) : Z :=
  Z.of_nat (length (bucket_bandwidth_rollup_archives db))
  - Z.of_nat (length (bucket_bandwidth_rollup_archives db0)).

Definition removed_rows (db0 db : satelliteDB) : Z :=
  Z.of_nat (length (bucket_bandwidth_rollups db0))
  - Z.of_nat (length (bucket_bandwidth_rollups db)).

(** Sample data: five GET rollups and one PUT rollup that start shortly
    before hour 0, each at an instant of its own, on a connection that
    serves the given number of statements. *)
Definition rollup_of (action : Z) (settled : Z) : RollupRow :=
  mkRollupRow [x61] 1 (- settled) 3600 action 0 0 settled.

Definition db_rollups (f : option nat) : satelliteDB :=
  mkSatelliteDB Cockroach []
    [rollup_of 2 1; rollup_of 1 2; rollup_of 2 3; rollup_of 2 4;
     rollup_of 2 5; rollup_of 2 6]
    [] [] f [].

(** Sample data: no buckets at all, and the two buckets [a] and [b] of
    project 1. *)
Definition db_empty : satelliteDB := mkSatelliteDB Postgres [] [] [] [] None [].

Definition db_two_buckets : satelliteDB :=
  mkSatelliteDB Cockroach [] [] []
    [mkMetainfoRow 1 [x61]; mkMetainfoRow 1 [x62]] None [].

(** Sample data: a row written before the canonical columns existed. *)
Definition legacy_row : TallyRow :=
  mkTallyRow 1 bucket_a 0 0 3 4 0 2 1 5 6.

(** Sample data: a bucket with two GET rollups of 2^62 settled bytes each,
    which sum to 2^63. *)
Definition db_heavy : satelliteDB :=
  mkSatelliteDB Postgres [plain_tally 1 bucket_a 0 10 1]
    [mkRollupRow bucket_a 1 0 3600 PieceAction_GET 0 0 (2^62);
     mkRollupRow bucket_a 1 Hour 3600 PieceAction_GET 0 0 (2^62)]
    [] [mkMetainfoRow 1 bucket_a] None [].

(** Sample data: that row and a newer one of the same bucket. *)
Definition db_legacy : satelliteDB :=
  mkSatelliteDB Postgres [legacy_row; plain_tally 1 bucket_a Hour 20 2] [] []
    [mkMetainfoRow 1 bucket_a] None [].

End Accounting.


(** ** satellitedb: writing tallies *)
Module AccountingMore.
Import PrefixRange Accounting.

(** Two rows with the same project, bucket and interval start. *)
Definition same_key (r s : TallyRow) : bool :=
  (tally_project_id r =? tally_project_id s)%N
  && bytes_eqb (tally_bucket_name r) (tally_bucket_name s)
  && (tally_interval_start r =? tally_interval_start s).

(** Modelled from the spec: the schema of [bucket_storage_tallies] is not
    part of the sources; the specification keys the table by project,
    bucket and interval start, one row per bucket and sampling instant. *)
Fixpoint keys_distinct (rows : list TallyRow) : bool :=
  match rows with
  | [] => true
  | r :: rest => negb (existsb (same_key r) rest) && keys_distinct rest
  end.

Definition set_tallies (db : satelliteDB) (rows : list TallyRow) : satelliteDB :=
  mkSatelliteDB (impl db) rows (bucket_bandwidth_rollups db)
    (bucket_bandwidth_rollup_archives db) (bucket_metainfos db) (fault db)
    (round_trips db).

(** [INSERT INTO bucket_storage_tallies ...] of some rows: one statement,
    which inserts all of them or, on a key that is taken or on a failing
    connection, none. *)
Definition insert_tallies (rows : list TallyRow) : M unit :=
  fun db =>
    match fault db with
    | Some O => (Err ErrStore, db)
    | f =>
        let db1 := set_fault db (option_map Nat.pred f) in
        if keys_distinct (bucket_storage_tallies db ++ rows)
        then (Ok tt, set_tallies db1 (bucket_storage_tallies db ++ rows))
        else (Err ErrStore, db1)
    end.

(** [SELECT $1, unnest($2), unnest($3), unnest($4), 0, 0, unnest($7), 0, 0,
    unnest($10), unnest($11)]: the arrays side by side. *)
Fixpoint unnest_tallies (intervalStart : Time)
    (bucketNames : list (list byte)) (projectIDs : list UUID)
    (totalBytes totalSegments objectCounts metadataSizes : list Z)
    : list TallyRow :=
  match bucketNames, projectIDs, totalBytes, totalSegments, objectCounts,
        metadataSizes with
  | n :: ns, p :: ps, b :: bs, s :: ss, o :: os, m :: ms =>
      mkTallyRow p n intervalStart b 0 0 s 0 0 o m
      :: unnest_tallies intervalStart ns ps bs ss os ms
  | _, _, _, _, _, _ => []
  end.

(** [SaveTallies]: [bucketTallies] are the values of the map in the order
    the range statement yields them. *)
Definition SaveTallies (intervalStart : Time) (bucketTallies : list BucketTally)
    : M unit :=
  if (length bucketTallies =? 0)%nat then ret tt
  else
    let bucketNames := map bt_BucketName bucketTallies in
    let projectIDs := map bt_ProjectID bucketTallies in
    let totalBytes := map bt_TotalBytes bucketTallies in
    let totalSegments := map bt_TotalSegments bucketTallies in
    let objectCounts := map bt_ObjectCount bucketTallies in
    let metadataSizes := map bt_MetadataSize bucketTallies in
    insert_tallies
      (unnest_tallies intervalStart bucketNames projectIDs totalBytes
         totalSegments objectCounts metadataSizes).

(** [accounting.BucketStorageTally] with all the fields that
    [CreateStorageTally] writes. *)
Record StorageTally : Type := mkStorageTally {
  st_BucketName : list byte;
  st_ProjectID : UUID;
  st_IntervalStart : Time;
  st_ObjectCount : Z;
  st_TotalSegmentCount : Z;
  st_TotalBytes : Z;
  st_MetadataSize : Z
}.

Definition CreateStorageTally (tally : StorageTally) : M unit :=
  insert_tallies
    [mkTallyRow (st_ProjectID tally) (st_BucketName tally)
       (st_IntervalStart tally) (st_TotalBytes tally) 0 0
       (st_TotalSegmentCount tally) 0 0 (st_ObjectCount tally)
       (st_MetadataSize tally)].

(** *** The specification's reading of further computations *)

(** The row that [SaveTallies] writes for a tally. *)
Definition row_of_tally (intervalStart : Time) (t : BucketTally) : TallyRow :=
  mkTallyRow (bt_ProjectID t) (bt_BucketName t) intervalStart (bt_TotalBytes t)
    0 0 (bt_TotalSegments t) 0 0 (bt_ObjectCount t) (bt_MetadataSize t).

(** The counters of a tally fit their columns. *)
Definition tally_in_range (t : BucketTally) : Prop :=
  counter (bt_ObjectCount t) /\ counter (bt_TotalSegments t)
  /\ counter (bt_TotalBytes t) /\ counter (bt_MetadataSize t).

(** A call that does not panic, whatever the state it is made in. *)
Definition no_panic {A} (m : M A) : Prop := forall db, fst (m db) <> Panic.

(** A call that gives the same result, and leaves corresponding states,
    when the state it is made in is changed by [op] first. *)
Definition respects (op : satelliteDB -> satelliteDB) {A} (m : M A) : Prop :=
  forall db, fst (m (op db)) = fst (m db) /\ snd (m (op db)) = op (snd (m db)).

(** A call that issues [n] statements on the tables of [db] and returns
    [a]: it does so on a connection that serves at least [n] more
    statements, and fails with the error of the connection otherwise. *)
Definition costs {A} (m : M A) (db : satelliteDB) (n : nat) (a : A) : Prop :=
  forall f,
    m (set_fault db f)
    = match f with
      | None => (Ok a, set_fault db None)
      | Some k =>
          if (n <=? k)%nat then (Ok a, set_fault db (Some (k - n)%nat))
          else (Err ErrStore, set_fault db (Some O))
      end.

(** A call that fails on the tables of [db] however many statements the
    connection serves. *)
Definition fails {A} (m : M A) (db : satelliteDB) : Prop :=
  forall f, fst (m (set_fault db f)) = Err ErrStore.

(** The tables with the rows of one project only. *)
Definition only_project (projectID : UUID) (db : satelliteDB) : satelliteDB :=
  mkSatelliteDB (impl db)
    (List.filter (fun r => (tally_project_id r =? projectID)%N)
       (bucket_storage_tallies db))
    (List.filter (fun r => (bw_project_id r =? projectID)%N)
       (bucket_bandwidth_rollups db))
    (bucket_bandwidth_rollup_archives db) (bucket_metainfos db) (fault db)
    (round_trips db).

(** A row is due for archiving under one of the actions. *)
Definition due (actions : list Z) (before : Time) (r : RollupRow) : bool :=
  existsb (fun a => to_archive (Some a) before r) actions.

(** What archiving may do between [db] and [db']: rows for which [D]
    holds go from the live table to the end of the archive; nothing else
    changes, and the rows that stay keep their order. *)
Definition moves (D : RollupRow -> bool) (db db' : satelliteDB) : Prop :=
  impl db' = impl db
  /\ bucket_storage_tallies db' = bucket_storage_tallies db
  /\ bucket_metainfos db' = bucket_metainfos db
  /\ exists moved,
       bucket_bandwidth_rollup_archives db'
       = bucket_bandwidth_rollup_archives db ++ moved
       /\ Permutation (bucket_bandwidth_rollups db)
            (bucket_bandwidth_rollups db' ++ moved)
       /\ Forall (fun r => D r = true) moved
       /\ List.filter (fun r => negb (D r)) (bucket_bandwidth_rollups db')
          = List.filter (fun r => negb (D r)) (bucket_bandwidth_rollups db).

(** The names on a page: a slice of the matching names in ascending
    order. *)
Definition sorted_matching (projectID : UUID) (prefix : list byte)
    (db : satelliteDB) : list (list byte) :=
  order_names
    (matching_names projectID (fst (search_range prefix))
       (snd (search_range prefix)) db).

(** The bucket names on page [p] of a listing; none when the call does
    not return a page. *)
Definition page_names (projectID : UUID) (search : list byte) (limit : Z)
    (since : ZonedTime) (before : Time) (db : satelliteDB) (p : nat)
    : list (list byte) :=
  match fst (GetBucketTotals projectID (mkCursor search limit (Z.of_nat p))
               since before db) with
  | Ok page => map bu_BucketName (BucketUsages page)
  | _ => []
  end.

(** The page of a result, an empty one when there is none. *)
Definition page_of (o : outcome BucketUsagePage) : BucketUsagePage :=
  match o with
  | Ok page => page
  | _ => mkPage [] [] 0 0 0 0 0
  end.

(** Sample data: three buckets of project 1, stored out of order, one of
    them with two tallies and a GET rollup, and a bucket of project 2. *)
Definition db_listing : satelliteDB :=
  mkSatelliteDB Cockroach
    [plain_tally 1 [x62] 0 10 1; plain_tally 1 [x62] Hour 20 2]
    [mkRollupRow [x62] 1 0 3600 PieceAction_GET 1 0 5]
    []
    [mkMetainfoRow 1 [x62]; mkMetainfoRow 2 [x64]; mkMetainfoRow 1 [x63];
     mkMetainfoRow 1 [x61]]
    None [].

Definition listing_page : BucketUsagePage :=
  Eval vm_compute in
    page_of (fst (GetBucketTotals 1 (mkCursor [] 2 1) (in_utc 0) Hour
                    db_listing)).

(** Sample data: two tallies to save, and the tally of [legacy_row]'s
    bucket one hour later. *)
Definition tally_one : BucketTally := mkBucketTally 1 [x61] 5 2 100 7.
Definition tally_two : BucketTally := mkBucketTally 1 [x62] 0 0 0 0.

End AccountingMore.

(** ** pgutil: creating a schema *)
Module Pgutil.

Section CreateSchema.

(** The errors of the driver, and the test [IsConstraintError] on them,
    which is declared elsewhere. *)
Variable pgerror : Type.
Variable IsConstraintError : option pgerror -> bool.

(** [exec k] is what the database answers to the statement with number
    [k].  The loop [for try := 0; try < 5; try++] is run with the number
    [n] of tries that are left, the number [k] of the next statement and
    the last [err]; it returns the error and the number of statements
    executed. *)
Fixpoint CreateSchema_loop (exec : nat -> option pgerror) (n k : nat)
    (err : option pgerror) : option pgerror * nat :=
  match n with
  | O => (err, k)
  | S n' =>
      let err := exec k in
      if IsConstraintError err then CreateSchema_loop exec n' (S k) err
      else (err, S k)
  end.

Definition CreateSchema (exec : nat -> option pgerror) : option pgerror * nat :=
  CreateSchema_loop exec 5 0 None.

End CreateSchema.

(** Sample data: two driver errors, of which the first is a constraint
    error. *)
Inductive sample_error : Type := UniqueViolation | ConnectionRefused.

Definition is_unique_violation (e : option sample_error) : bool :=
  match e with Some UniqueViolation => true | _ => false end.

End Pgutil.

(** * Properties *)

(** ** UpdateSegmentPieces *)
Module MetabaseProps.
Import Metabase.

Lemma remove_piece_head x q : remove_piece x (x :: q) = Some q.
Proof. simpl. destruct (decide (x = x)); congruence. Qed.

Lemma Pieces_Equal_refl p : Pieces_Equal p p = true.
Proof.
  induction p as [|x p IH]; [reflexivity|].
  change (Pieces_Equal (x :: p) (x :: p))
    with (match remove_piece x (x :: p) with
          | Some q' => Pieces_Equal p q'
          | None => false
          end).
  now rewrite remove_piece_head.
Qed.

Lemma remove_piece_perm x q r :
  remove_piece x q = Some r -> Permutation q (x :: r).
Proof.
  revert r. induction q as [|y q IH]; intros r H; simpl in H; [discriminate|].
  destruct (decide (x = y)) as [->|Hne].
  - injection H as <-. reflexivity.
  - destruct (remove_piece x q) as [r'|] eqn:E; [|discriminate].
    injection H as <-. rewrite (IH r' eq_refl). apply perm_swap.
Qed.

Lemma remove_piece_In x q : In x q -> exists r, remove_piece x q = Some r.
Proof.
  induction q as [|y q IH]; intros Hin; [destruct Hin|].
  simpl. destruct (decide (x = y)) as [->|Hne]; [eauto|].
  destruct Hin as [->|Hin]; [congruence|].
  destruct (IH Hin) as [r ->]. eauto.
Qed.

(** [Pieces_Equal] is equality up to the order of the pieces. *)
Lemma Pieces_Equal_Permutation p q :
  Pieces_Equal p q = true <-> Permutation p q.
Proof.
  split.
  - revert q. induction p as [|x p IH]; intros q H; simpl in H.
    + destruct q; [constructor|discriminate].
    + destruct (remove_piece x q) as [r|] eqn:E; [|discriminate].
      apply remove_piece_perm in E. rewrite E. constructor. now apply IH.
  - revert q. induction p as [|x p IH]; intros q H; simpl.
    + apply Permutation_nil in H. now subst.
    + assert (Hin : In x q).
      { eapply Permutation_in; [exact H|]. now left. }
      destruct (remove_piece_In x q Hin) as [r E]. rewrite E.
      apply IH. apply remove_piece_perm in E.
      eapply Permutation_cons_inv. etransitivity; [exact H|exact E].
Qed.

Lemma valid_guards opts :
  valid opts ->
  (StreamID opts =? 0)%N = false /\ (length (NewPieces opts) =? 0)%nat = false.
Proof.
  intros [Hs Hn]. split.
  - now apply N.eqb_neq.
  - destruct (NewPieces opts); [congruence|reflexivity].
Qed.

(** What the call does on an existing segment, in one equation. *)
Lemma update_existing db opts pieces :
  broken db = false -> valid opts -> stored db opts = Some pieces ->
  UpdateSegmentPieces db opts =
    let v := if decide (pieces = OldPieces opts) then NewPieces opts else pieces in
    (mkDB (<[(StreamID opts, Position opts) := v]> (segments db)) false,
     if Pieces_Equal (NewPieces opts) v then None else Some ErrValueChanged).
Proof.
  intros Hb Hv Hs. destruct (valid_guards opts Hv) as [G1 G2].
  unfold UpdateSegmentPieces, update_remote_pieces, stored in *.
  rewrite G1, G2, Hb, Hs. cbn zeta.
  now destruct (Pieces_Equal _ _).
Qed.

Lemma db_unchanged db opts pieces :
  broken db = false -> stored db opts = Some pieces ->
  mkDB (<[(StreamID opts, Position opts) := pieces]> (segments db)) false = db.
Proof.
  intros Hb Hs. destruct db as [segs b]. simpl in *. subst b.
  f_equal. now apply insert_id.
Qed.

(** C1 (as stated, refuted): the stored pieces are [[p1; p2]]; presenting
    the permutation [[p2; p1]] as the old pieces does not make the update
    succeed: the stored value stays and the call reports a changed value. *)
Lemma permuted_old_pieces_rejected :
  let opts := mkOpts 7 0 [p2; p1] [p3] in
  stored db_two opts = Some [p1; p2]
  /\ Permutation (OldPieces opts) [p1; p2]
  /\ Pieces_Equal (OldPieces opts) [p1; p2] = true
  /\ UpdateSegmentPieces db_two opts = (db_two, Some ErrValueChanged).
Proof.
  cbn zeta. split; [reflexivity|]. split; [apply perm_swap|].
  split; [reflexivity|].
  rewrite (update_existing db_two _ [p1; p2]); [| reflexivity | split; discriminate | reflexivity].
  cbn zeta. simpl OldPieces.
  destruct (decide ([p1; p2] = [p2; p1])) as [E|_]; [discriminate E|].
  rewrite (db_unchanged db_two _ [p1; p2]); reflexivity.
Qed.

(** C1 (amended): on an existing segment the stored pieces are replaced by
    the new pieces exactly when they equal the old pieces as a sequence,
    piece by piece in the same order; the call then succeeds.  When they
    differ from the old pieces the table is left as it was. *)
Theorem update_replaces_on_exact_match db opts pieces :
  broken db = false -> valid opts -> stored db opts = Some pieces ->
  (pieces = OldPieces opts ->
     UpdateSegmentPieces db opts =
       (mkDB (<[(StreamID opts, Position opts) := NewPieces opts]> (segments db))
          false, None))
  /\ (pieces <> OldPieces opts -> fst (UpdateSegmentPieces db opts) = db)
  /\ stored (fst (UpdateSegmentPieces db opts)) opts =
       Some (if decide (pieces = OldPieces opts) then NewPieces opts else pieces).
Proof.
  intros Hb Hv Hs. rewrite (update_existing db opts pieces Hb Hv Hs). cbn zeta.
  destruct (decide (pieces = OldPieces opts)) as [E|E].
  - split; [|split].
    + intros _. now rewrite Pieces_Equal_refl.
    + congruence.
    + unfold stored. simpl. apply lookup_insert_eq.
  - split; [|split].
    + congruence.
    + intros _. simpl. now apply db_unchanged.
    + unfold stored. simpl. apply lookup_insert_eq.
Qed.

(** With the stored pieces [[p1; p2]] given as old pieces in that order,
    [[p3]] is written. *)
Lemma update_replaces_on_exact_match_witness :
  UpdateSegmentPieces db_two (mkOpts 7 0 [p1; p2] [p3]) =
    (mkDB (<[(7%N, 0%N) := [p3]]> (segments db_two)) false, None).
Proof.
  apply (update_replaces_on_exact_match db_two (mkOpts 7 0 [p1; p2] [p3]) [p1; p2]).
  - reflexivity.
  - split; discriminate.
  - reflexivity.
  - reflexivity.
Defined.

(** C2 (as stated, refuted): the stored pieces [[p3]] differ from the old
    pieces [[p1]], yet the call does not fail: the stored pieces already
    are the new ones. *)
Lemma mismatch_without_conflict :
  let opts := mkOpts 7 0 [p1] [p3] in
  valid opts /\ stored db_one opts = Some [p3]
  /\ [p3] <> OldPieces opts
  /\ UpdateSegmentPieces db_one opts = (db_one, None).
Proof.
  cbn zeta. split; [split; discriminate|]. split; [reflexivity|].
  split; [discriminate|].
  rewrite (update_existing db_one _ [p3]); [| reflexivity | split; discriminate | reflexivity].
  cbn zeta. simpl OldPieces.
  destruct (decide ([p3] = [p1])) as [E|_]; [discriminate E|].
  rewrite (db_unchanged db_one _ [p3]); reflexivity.
Qed.

(** C2 (amended): the call fails with an invalid-request error if and only
    if the stream id is zero or there are no new pieces; with valid
    arguments on a working connection it fails with not-found when there
    is no segment at the position; and when the segment is there with
    stored pieces different from the old pieces, the table is left as it
    was and the call fails with the value-changed error, unless the stored
    pieces already equal the new pieces, in which case it succeeds. *)
Theorem update_error_classes db opts :
  (is_InvalidRequest (snd (UpdateSegmentPieces db opts))
     <-> (StreamID opts = 0%N \/ NewPieces opts = []))
  /\ (valid opts -> broken db = false -> stored db opts = None ->
        UpdateSegmentPieces db opts = (db, Some ErrObjectNotFound))
  /\ (forall pieces,
        valid opts -> broken db = false -> stored db opts = Some pieces ->
        pieces <> OldPieces opts ->
        UpdateSegmentPieces db opts =
          (db, if Pieces_Equal (NewPieces opts) pieces
               then None else Some ErrValueChanged)).
Proof.
  split; [|split].
  - unfold is_InvalidRequest, UpdateSegmentPieces, update_remote_pieces.
    destruct (StreamID opts =? 0)%N eqn:G1.
    { apply N.eqb_eq in G1. simpl. split; eauto. }
    apply N.eqb_neq in G1.
    destruct (NewPieces opts) as [|x new] eqn:En.
    { simpl. split; eauto. }
    simpl length. cbn [Nat.eqb].
    split.
    + intros [m Hm]. exfalso.
      destruct (broken db); [discriminate Hm|].
      destruct (segments db !! _); [|discriminate Hm].
      destruct (negb _); discriminate Hm.
    + intros [H|H]; [contradiction|discriminate].
  - intros Hv Hb Hs. destruct (valid_guards opts Hv) as [G1 G2].
    unfold UpdateSegmentPieces, update_remote_pieces, stored in *.
    now rewrite G1, G2, Hb, Hs.
  - intros pieces Hv Hb Hs Hne.
    rewrite (update_existing db opts pieces Hb Hv Hs). cbn zeta.
    destruct (decide (pieces = OldPieces opts)); [contradiction|].
    now rewrite (db_unchanged db opts pieces Hb Hs).
Qed.

(** Old pieces [[p2]] against the stored [[p1; p2]] give the value-changed
    error; a stream without segment gives not-found. *)
Lemma update_error_classes_witness :
  UpdateSegmentPieces db_two (mkOpts 7 0 [p2] [p3]) = (db_two, Some ErrValueChanged)
  /\ UpdateSegmentPieces db_two (mkOpts 8 0 [p2] [p3]) = (db_two, Some ErrObjectNotFound).
Proof.
  split.
  - apply (proj2 (proj2 (update_error_classes db_two (mkOpts 7 0 [p2] [p3]))) [p1; p2]).
    + split; discriminate.
    + reflexivity.
    + reflexivity.
    + discriminate.
  - apply (proj1 (proj2 (update_error_classes db_two (mkOpts 8 0 [p2] [p3])))).
    + split; discriminate.
    + reflexivity.
    + reflexivity.
Defined.

(** C9: with valid arguments, on an existing segment whose stored pieces
    already equal the new pieces, the call succeeds whatever the old pieces
    are: the pieces the statement returns are compared with the new
    pieces, not with the old ones. *)
Theorem update_already_applied_succeeds db opts pieces :
  broken db = false -> valid opts -> stored db opts = Some pieces ->
  Pieces_Equal (NewPieces opts) pieces = true ->
  snd (UpdateSegmentPieces db opts) = None.
Proof.
  intros Hb Hv Hs He. rewrite (update_existing db opts pieces Hb Hv Hs). cbn zeta.
  destruct (decide (pieces = OldPieces opts)); simpl.
  - now rewrite Pieces_Equal_refl.
  - now rewrite He.
Qed.

(** The stored pieces [[p3]] are the new pieces; the old pieces [[p1]] do
    not match, and the call succeeds. *)
Lemma update_already_applied_succeeds_witness :
  [p3] <> [p1] /\ snd (UpdateSegmentPieces db_one (mkOpts 7 0 [p1] [p3])) = None.
Proof.
  split; [discriminate|].
  apply (update_already_applied_succeeds db_one (mkOpts 7 0 [p1] [p3]) [p3]).
  - reflexivity.
  - split; discriminate.
  - reflexivity.
  - reflexivity.
Defined.

End MetabaseProps.

(** ** prefixIncrement *)
Module PrefixRangeProps.
Import PrefixRange.

Lemma to_N_ff b : Byte.to_N b = 255%N -> b = xff.
Proof.
  intros H. pose proof (Byte.of_to_N b) as E. rewrite H in E.
  change (Byte.of_N 255) with (Some xff) in E. congruence.
Qed.

Lemma byte_incr_to_N b :
  b <> xff -> Byte.to_N (byte_incr b) = (Byte.to_N b + 1)%N.
Proof.
  intros Hb. pose proof (Byte.to_N_bounded b) as Hle.
  assert (Hlt : (Byte.to_N b < 255)%N).
  { destruct (N.eq_dec (Byte.to_N b) 255%N) as [E|E]; [now apply to_N_ff in E|lia]. }
  unfold byte_incr. rewrite N.mod_small by lia.
  destruct (Byte.of_N (Byte.to_N b + 1)) as [b'|] eqn:E.
  - now apply Byte.to_of_N.
  - apply Byte.of_N_None_iff in E. lia.
Qed.

Lemma bytes_compare_app pre s t :
  bytes_compare (pre ++ s) (pre ++ t) = bytes_compare s t.
Proof.
  induction pre as [|a pre IH]; [reflexivity|].
  simpl. now rewrite N.compare_refl.
Qed.

Lemma bytes_compare_antisym s t :
  bytes_compare t s = CompOpp (bytes_compare s t).
Proof.
  revert t. induction s as [|a s IH]; intros [|c t]; simpl; try reflexivity.
  rewrite (N.compare_antisym (Byte.to_N a) (Byte.to_N c)).
  destruct (Byte.to_N a ?= Byte.to_N c)%N; simpl; auto.
Qed.

(** Raising the byte after a common part gives a greater string, whatever
    follows that byte. *)
Lemma bytes_lt_incr pre b tl :
  b <> xff -> bytes_lt (pre ++ b :: tl) (pre ++ [byte_incr b]).
Proof.
  intros Hb. unfold bytes_lt. rewrite bytes_compare_app. simpl.
  rewrite (byte_incr_to_N b Hb).
  assert (H : (Byte.to_N b ?= Byte.to_N b + 1)%N = Lt) by (apply N.compare_lt_iff; lia).
  now rewrite H.
Qed.

Lemma has_prefix_app p s : has_prefix p s = true -> exists tl, s = p ++ tl.
Proof.
  revert s. induction p as [|a p IH]; intros s H.
  - exists s. reflexivity.
  - destruct s as [|b s]; [discriminate|]. simpl in H.
    apply andb_true_iff in H as [Hab Hp].
    apply Byte.byte_dec_bl in Hab. subst b.
    destruct (IH s Hp) as [tl ->]. now exists tl.
Qed.

Lemma all_ff_lookup p :
  all_ff p = true <-> forall j, (j < length p)%nat -> p !! j = Some xff.
Proof.
  unfold all_ff. induction p as [|a p IH]; simpl.
  - split; [intros _ j Hj; lia|reflexivity].
  - rewrite andb_true_iff, IH. split.
    + intros [Ha Hp] [|j] Hj; simpl.
      * apply Byte.byte_dec_bl in Ha. now subst.
      * apply Hp. lia.
    + intros H. split.
      * specialize (H 0%nat ltac:(lia)). simpl in H. injection H as ->. reflexivity.
      * intros j Hj. apply (H (S j)). lia.
Qed.

(** The loop, by what it leaves behind: either the rightmost byte below
    [n] that is not 0xff, raised, after the bytes before it; or nothing,
    and every byte below [n] is 0xff. *)
Lemma prefixIncrement_loop_spec inc n :
  (n <= length inc)%nat ->
  match prefixIncrement_loop inc n with
  | Some r =>
      exists i b, (i < n)%nat /\ inc !! i = Some b /\ b <> xff
        /\ (forall j, (i < j < n)%nat -> inc !! j = Some xff)
        /\ r = take i inc ++ [byte_incr b]
  | None => forall j, (j < n)%nat -> inc !! j = Some xff
  end.
Proof.
  induction n as [|i IH]; intros Hn; simpl.
  - intros j Hj. lia.
  - destruct (inc !! i) as [b|] eqn:Eb.
    2:{ apply lookup_ge_None in Eb. lia. }
    destruct (Byte.eqb b xff) eqn:Ef; simpl.
    + apply Byte.byte_dec_bl in Ef. subst b.
      specialize (IH ltac:(lia)).
      destruct (prefixIncrement_loop inc i) as [r|].
      * destruct IH as (i' & b' & Hi' & Hl & Hb' & Hall & Hr).
        exists i', b'. repeat split; try assumption; [lia|].
        intros j Hj. destruct (Nat.eq_dec j i) as [->|Hne]; [assumption|].
        apply Hall. lia.
      * intros j Hj. destruct (Nat.eq_dec j i) as [->|Hne]; [assumption|].
        apply IH. lia.
    + apply Byte.eqb_false in Ef.
      exists i, b. repeat split; try assumption; [lia | intros j Hj; lia |].
      rewrite (take_S_r _ _ (byte_incr b)).
      * now rewrite take_insert_ge by lia.
      * apply list_lookup_insert_eq. lia.
Qed.

Lemma prefixIncrement_Some p r :
  prefixIncrement p = Some r ->
  exists pre b tl,
    p = pre ++ b :: tl /\ b <> xff /\ all_ff tl = true
    /\ r = pre ++ [byte_incr b].
Proof.
  intros H. unfold prefixIncrement in H.
  pose proof (prefixIncrement_loop_spec p (length p) ltac:(lia)) as Hs.
  cbn zeta in H. rewrite H in Hs.
  destruct Hs as (i & b & Hi & Hl & Hb & Hff & ->).
  exists (take i p), b, (drop (S i) p). repeat split; try assumption.
  - symmetry. now apply take_drop_middle.
  - apply all_ff_lookup. intros j Hj. rewrite length_drop in Hj.
    rewrite lookup_drop. apply Hff. lia.
Qed.

Lemma prefixIncrement_None p : prefixIncrement p = None <-> all_ff p = true.
Proof.
  unfold prefixIncrement. cbn zeta.
  pose proof (prefixIncrement_loop_spec p (length p) ltac:(lia)) as Hs.
  rewrite all_ff_lookup. split.
  - intros H. now rewrite H in Hs.
  - intros Hall. destruct (prefixIncrement_loop p (length p)) as [r|]; [|reflexivity].
    destruct Hs as (i & b & Hi & Hl & Hb & _). rewrite (Hall i Hi) in Hl. congruence.
Qed.

(** Above a string of 0xff bytes there are only the strings that start
    with it. *)
Lemma bytes_leb_all_ff p name :
  all_ff p = true -> bytes_leb p name = has_prefix p name.
Proof.
  unfold bytes_leb. revert name. induction p as [|a p IH]; intros name Hp.
  - destruct name; reflexivity.
  - simpl in Hp. apply andb_true_iff in Hp as [Ha Hp].
    apply Byte.byte_dec_bl in Ha. subst a.
    destruct name as [|c name]; [reflexivity|].
    cbn [bytes_compare has_prefix].
    destruct (Byte.eqb xff c) eqn:Ec.
    + apply Byte.byte_dec_bl in Ec. subst c.
      rewrite N.compare_refl. cbn [andb]. now apply IH.
    + apply Byte.eqb_false in Ec. pose proof (Byte.to_N_bounded c) as Hc.
      assert (Hlt : (Byte.to_N c < Byte.to_N xff)%N).
      { change (Byte.to_N xff) with 255%N.
        destruct (N.eq_dec (Byte.to_N c) 255%N) as [E|E]; [|lia].
        apply to_N_ff in E. congruence. }
      apply N.compare_gt_iff in Hlt. now rewrite Hlt.
Qed.

Lemma byte_eqb_compare a c :
  Byte.eqb a c = match (Byte.to_N a ?= Byte.to_N c)%N with Eq => true | _ => false end.
Proof.
  destruct (Byte.eqb a c) eqn:E.
  - apply Byte.byte_dec_bl in E. subst. now rewrite N.compare_refl.
  - apply Byte.eqb_false in E.
    destruct (Byte.to_N a ?= Byte.to_N c)%N eqn:Ec; try reflexivity.
    apply N.compare_eq in Ec. exfalso. apply E.
    pose proof (Byte.of_to_N a) as Ha. rewrite Ec, Byte.of_to_N in Ha. congruence.
Qed.

(** The half-open range from a prefix to its increment holds exactly the
    strings that start with the prefix. *)
Lemma range_is_prefix pre b tl name :
  b <> xff -> all_ff tl = true ->
  bytes_leb (pre ++ b :: tl) name && bytes_ltb name (pre ++ [byte_incr b])
  = has_prefix (pre ++ b :: tl) name.
Proof.
  intros Hb Htl. revert name. induction pre as [|a pre IH]; intros name.
  - destruct name as [|c name]; [reflexivity|].
    unfold bytes_leb, bytes_ltb. cbn [app bytes_compare has_prefix].
    rewrite (byte_eqb_compare b c), (byte_incr_to_N b Hb).
    destruct (Byte.to_N b ?= Byte.to_N c)%N eqn:Ec.
    + apply N.compare_eq in Ec. rewrite <- Ec.
      assert (H : (Byte.to_N b ?= Byte.to_N b + 1)%N = Lt)
        by (apply N.compare_lt_iff; lia).
      rewrite H, andb_true_r. apply (bytes_leb_all_ff tl name Htl).
    + pose proof (proj1 (N.compare_lt_iff _ _) Ec) as Hbc.
      destruct (Byte.to_N c ?= Byte.to_N b + 1)%N eqn:Ec'.
      * destruct name; reflexivity.
      * pose proof (proj1 (N.compare_lt_iff _ _) Ec') as Hcb. lia.
      * reflexivity.
    + reflexivity.
  - destruct name as [|c name]; [reflexivity|].
    specialize (IH name). unfold bytes_leb, bytes_ltb in *.
    cbn [app bytes_compare has_prefix].
    rewrite (byte_eqb_compare a c), (N.compare_antisym (Byte.to_N a) (Byte.to_N c)).
    destruct (Byte.to_N a ?= Byte.to_N c)%N; cbn [CompOpp andb];
      [exact IH|reflexivity|reflexivity].
Qed.

(** C4: when [prefixIncrement p] has a result, the result is strictly
    greater than [p] and strictly greater than every byte string that
    starts with [p] (and it is the least string above [p] that does not
    start with [p]); there is no result exactly when [p] is empty or made
    of 0xff bytes only; and the three examples evaluate as documented. *)
Theorem prefixIncrement_correct :
  (forall p r, prefixIncrement p = Some r ->
     bytes_lt p r
     /\ (forall s, has_prefix p s = true -> ~ bytes_le r s /\ bytes_lt s r)
     /\ (forall s, bytes_le p s -> has_prefix p s = false -> bytes_le r s))
  /\ (forall p, prefixIncrement p = None <-> (p = [] \/ all_ff p = true))
  /\ prefixIncrement [x61; x62; x63] = Some [x61; x62; x64]
  /\ prefixIncrement [x61; x62; xff; xff] = Some [x61; x63]
  /\ prefixIncrement [x00] = Some [x01].
Proof.
  split; [|split; [|repeat split; reflexivity]].
  - intros p r H.
    destruct (prefixIncrement_Some p r H) as (pre & b & tl & -> & Hb & Htl & ->).
    split; [now apply bytes_lt_incr|]. split.
    + intros s Hs. destruct (has_prefix_app _ _ Hs) as [tl' ->].
      rewrite <- app_assoc. simpl.
      pose proof (bytes_lt_incr pre b (tl ++ tl') Hb) as Hlt.
      split; [|exact Hlt].
      unfold bytes_le, bytes_lt in *. intros Hle. apply Hle.
      rewrite bytes_compare_antisym, Hlt. reflexivity.
    + intros s Hle Hnp.
      pose proof (range_is_prefix pre b tl s Hb Htl) as Hr.
      rewrite Hnp in Hr. unfold bytes_le in *. unfold bytes_leb, bytes_ltb in Hr.
      rewrite bytes_compare_antisym.
      destruct (bytes_compare (pre ++ b :: tl) s); try congruence;
        destruct (bytes_compare s (pre ++ [byte_incr b])); simpl in *; congruence.
  - intros p. rewrite prefixIncrement_None. split; [now right|].
    intros [->|H]; [reflexivity|exact H].
Qed.

(** The increment of [abc] is above [abc]. *)
Lemma prefixIncrement_correct_witness :
  bytes_lt [x61; x62; x63] [x61; x62; x64].
Proof.
  apply (proj1 (proj1 prefixIncrement_correct [x61; x62; x63] [x61; x62; x64] eq_refl)).
Defined.

End PrefixRangeProps.

(** ** Project accounting *)
Module AccountingProps.
Import PrefixRange Accounting AccountingMore.

(** *** Machine integers *)

Lemma wrap64_small z : - 2^63 <= z < 2^63 -> wrap64 z = z.
Proof. intros H. unfold wrap64. rewrite Z.mod_small; lia. Qed.

Lemma wrapU64_small z : 0 <= z < 2^64 -> wrapU64 z = z.
Proof. intros H. unfold wrapU64. now rewrite Z.mod_small. Qed.

Lemma counter_wrap z : counter z -> wrap64 z = z /\ wrapU64 z = z.
Proof.
  unfold counter. intros H. split; [apply wrap64_small|apply wrapU64_small]; lia.
Qed.

(** Truncation yields the start of the hour, on the clock of the zone of
    its argument, that holds the argument. *)
Lemma timeTruncateDown_hour_start t :
  hour_start t (at_instant (timeTruncateDown t))
  /\ zone_offset (timeTruncateDown t) = zone_offset t.
Proof.
  unfold hour_start, timeTruncateDown. cbn [at_instant zone_offset].
  set (offset := zone_offset t * 1000000000).
  set (wall := at_instant t + offset).
  assert (HH : 0 < Hour) by reflexivity.
  pose proof (Z.mod_pos_bound wall Hour HH) as Hm.
  repeat split; try lia.
  replace (wall - wall mod Hour - offset + offset)
    with (wall - wall mod Hour) by lia.
  rewrite Zminus_mod, Zmod_mod, Z.sub_diag. reflexivity.
Qed.


(** A quarter past six in a zone five and a half hours east of UTC is
    truncated to six o'clock there, which is half past midnight in UTC;
    converted to UTC first, the same instant is truncated to midnight. *)
Example truncation_in_zone :
  at_instant (timeTruncateDown zoned_morning) = 30 * 60 * 1000000000
  /\ zone_offset (timeTruncateDown zoned_morning) = 19800
  /\ at_instant (timeTruncateDown (Time_UTC zoned_morning)) = 0.
Proof. repeat split. Qed.

(** [float64] values: 2^53 + 1 is not one and is converted to 2^53; 2.5 GB
    and an hour and a half are exact; a third is rounded, and 0.1 + 0.2 is
    above 0.3. *)
Example float64_samples :
  float64_of_Z (2^53 + 1) = float64_of_Z (2^53)
  /\ Size_GB 2500000000 [*] float64_of_Z 2 = float64_of_Z 5
  /\ Duration_Hours (90 * 60 * 1000000000) [*] float64_of_Z 2 = float64_of_Z 3
  /\ Duration_Hours (- (90 * 60 * 1000000000)) [*] float64_of_Z 2
     = float64_of_Z (- 3)
  /\ float64_of_Z 1 [/] float64_of_Z 3
     = float64_of_Z 6004799503160661 [/] float64_of_Z (2^54)
  /\ PrimFloat.ltb (float64_of_Z 3 [/] float64_of_Z 10)
       (float64_of_Z 1 [/] float64_of_Z 10 [+] float64_of_Z 2 [/] float64_of_Z 10)
     = true.
Proof. vm_compute. repeat split. Qed.

(** *** Running the monad on a connection that does not fail *)

Lemma query_healthy {A} (q : satelliteDB -> A) db :
  fault db = None -> query q db = (Ok (q db), db).
Proof. intros H. unfold query. now rewrite H. Qed.

Lemma bind_healthy {A B} (m : M A) (k : A -> M B) db a :
  m db = (Ok a, db) -> bind m k db = k a db.
Proof. intros H. unfold bind. now rewrite H. Qed.

Lemma mapM_healthy {A B} (f : A -> M B) (g : A -> B) l db :
  (forall x, f x db = (Ok (g x), db)) ->
  mapM f l db = (Ok (map g l), db).
Proof.
  intros Hf. induction l as [|x l IH]; [reflexivity|].
  simpl. rewrite (bind_healthy _ _ db (g x) (Hf x)).
  now rewrite (bind_healthy _ _ db (map g l) IH).
Qed.

(** *** The same call on changed tables *)

Section Respects.

Variable op : satelliteDB -> satelliteDB.
Hypothesis op_fault : forall db, fault (op db) = fault db.
Hypothesis op_set_fault : forall db f, op (set_fault db f) = set_fault (op db) f.

Lemma respects_ret {A} (a : A) : respects op (ret a).
Proof. intros db. now split. Qed.

Lemma respects_fail {A} e : respects op (@fail A e).
Proof. intros db. now split. Qed.

Lemma respects_panic {A} : respects op (@panic A).
Proof. intros db. now split. Qed.

Lemma respects_query {A} (q : satelliteDB -> A) :
  (forall db, q (op db) = q db) -> respects op (query q).
Proof.
  intros Hq db. unfold query. rewrite op_fault, Hq.
  destruct (fault db) as [[|k]|]; simpl; split;
    try reflexivity; now rewrite op_set_fault.
Qed.

Lemma respects_bind {A B} (m : M A) (k : A -> M B) :
  respects op m -> (forall a, respects op (k a)) -> respects op (bind m k).
Proof.
  intros Hm Hk db. unfold bind. destruct (Hm db) as [H1 H2].
  destruct (m (op db)) as [o1 d1]. destruct (m db) as [o2 d2]. simpl in *.
  subst o1 d1. destruct o2 as [a|e|]; [apply Hk| |]; now split.
Qed.

Lemma respects_mapM {A B} (f : A -> M B) l :
  (forall x, respects op (f x)) -> respects op (mapM f l).
Proof.
  intros Hf. induction l as [|x l IH]; [apply respects_ret|].
  simpl. apply respects_bind; [apply Hf|]. intros y.
  apply respects_bind; [exact IH|]. intros ys. apply respects_ret.
Qed.

End Respects.

Lemma respects_scan_int64 op v : respects op (scan_int64 v).
Proof. intros db. unfold scan_int64. now destruct (_ && _). Qed.

Lemma filter_sub {A} (Q R : A -> bool) l :
  (forall x, Q x = true -> R x = true) ->
  List.filter Q (List.filter R l) = List.filter Q l.
Proof.
  intros H. induction l as [|x l IH]; [reflexivity|].
  simpl. destruct (R x) eqn:Er; simpl.
  - now rewrite IH.
  - destruct (Q x) eqn:Eq; [|exact IH].
    rewrite (H x Eq) in Er. discriminate.
Qed.

Lemma scan_int64_fits v db : int64_range v -> scan_int64 v db = (Ok v, db).
Proof.
  intros [H1 H2]. unfold scan_int64.
  rewrite (proj2 (Z.leb_le _ _) H1), (proj2 (Z.ltb_lt _ _) H2). reflexivity.
Qed.

Lemma scan_int64_cases v db :
  scan_int64 v db
  = (if (- 2^63 <=? v) && (v <? 2^63) then Ok v else Err ErrStore, db).
Proof. unfold scan_int64. now destruct ((- 2^63 <=? v) && (v <? 2^63)). Qed.

Lemma GetTallies_healthy db :
  fault db = None ->
  GetTallies db = (Ok (map tally_of_dbx (bucket_storage_tallies db)), db).
Proof.
  intros H. unfold GetTallies.
  now rewrite (bind_healthy _ _ db _ (query_healthy _ db H)).
Qed.

(** *** Lists of rows *)

Lemma to_N_inj a b : Byte.to_N a = Byte.to_N b -> a = b.
Proof.
  intros H. pose proof (Byte.of_to_N a) as Ha. rewrite H, Byte.of_to_N in Ha.
  congruence.
Qed.

Lemma bytes_compare_eq s t : bytes_compare s t = Eq <-> s = t.
Proof.
  revert t. induction s as [|a s IH]; intros [|b t]; simpl; try (split; congruence).
  destruct (Byte.to_N a ?= Byte.to_N b)%N eqn:E.
  - apply N.compare_eq in E. apply to_N_inj in E. subst b.
    rewrite IH. split; congruence.
  - split; [discriminate|]. intros H. injection H as -> _.
    rewrite N.compare_refl in E. discriminate.
  - split; [discriminate|]. intros H. injection H as -> _.
    rewrite N.compare_refl in E. discriminate.
Qed.

Lemma bytes_eqb_eq s t : bytes_eqb s t = true <-> s = t.
Proof.
  unfold bytes_eqb. rewrite <- bytes_compare_eq.
  destruct (bytes_compare s t); split; congruence.
Qed.


Lemma bytes_eqb_neq s t : bytes_eqb s t = false <-> s <> t.
Proof.
  rewrite <- bytes_eqb_eq. destruct (bytes_eqb s t); split; congruence.
Qed.

Lemma distinct_In x l : In x (distinct bytes_eqb l) <-> In x l.
Proof.
  induction l as [|y l IH]; simpl; [reflexivity|].
  rewrite filter_In, IH, negb_true_iff, bytes_eqb_neq.
  destruct (List.list_eq_dec Byte.byte_eq_dec y x) as [->|Hne]; [tauto|].
  split; [tauto|]. intros [H|H]; [tauto|]. right. split; [assumption|congruence].
Qed.

Lemma distinct_NoDup l : List.NoDup (distinct bytes_eqb l).
Proof.
  induction l as [|y l IH]; simpl; constructor.
  - rewrite filter_In, negb_true_iff, bytes_eqb_neq. tauto.
  - now apply List.NoDup_filter.
Qed.

Lemma insert_desc_In x r l : In x (insert_desc r l) <-> x = r \/ In x l.
Proof.
  induction l as [|y l IH]; simpl; [intuition congruence|].
  destruct (tally_interval_start y <=? tally_interval_start r); simpl;
    [intuition congruence|].
  rewrite IH. intuition congruence.
Qed.

Lemma order_desc_In x l : In x (order_desc l) <-> In x l.
Proof.
  induction l as [|y l IH]; simpl; [reflexivity|].
  rewrite insert_desc_In, IH. intuition congruence.
Qed.



(** *** Interval weighting *)

Lemma weighted_snoc {A} (start : A -> Time) f pre (newer current : A) acc :
  weighted start f (pre ++ [newer; current]) acc
  = weighted start f (pre ++ [newer])
      (acc [+] f current [*] hours_between (start newer) (start current)).
Proof.
  induction pre as [|a pre IH]; [reflexivity|].
  destruct pre as [|c pre]; [reflexivity|].
  change (weighted start f ((a :: c :: pre) ++ [newer; current]) acc)
    with (weighted start f ((c :: pre) ++ [newer; current]) acc
          [+] f c [*] hours_between (start a) (start c)).
  rewrite IH. reflexivity.
Qed.

(** The loop over the tallies of one bucket is their interval weighting. *)
Lemma sum_tallies_weighted tallies i usage :
  (i < length tallies)%nat ->
  sum_tallies tallies i usage
  = Some (weighted bst_IntervalStart tally_bytes (take (S i) tallies) (fst usage),
          weighted bst_IntervalStart tally_objects (take (S i) tallies)
            (snd usage)).
Proof.
  revert usage. induction i as [|j IH]; intros [s0 o0] Hi.
  - destruct tallies as [|x l]; [simpl in Hi; lia|]. reflexivity.
  - destruct (lookup_lt_is_Some_2 tallies (S j) Hi) as [current Hc].
    destruct (lookup_lt_is_Some_2 tallies j ltac:(lia)) as [newer Hn].
    cbn [sum_tallies]. rewrite Hc, Hn. rewrite IH by lia.
    rewrite (take_S_r tallies (S j) current Hc), (take_S_r tallies j newer Hn).
    rewrite <- app_assoc. simpl app. rewrite !weighted_snoc.
    reflexivity.
Qed.

Lemma sum_tallies_all tallies usage :
  sum_tallies tallies (length tallies - 1)%nat usage
  = Some (weighted bst_IntervalStart tally_bytes tallies (fst usage),
          weighted bst_IntervalStart tally_objects tallies (snd usage)).
Proof.
  destruct tallies as [|x l]; [now destruct usage|].
  rewrite sum_tallies_weighted by (simpl; lia).
  now rewrite take_ge by (simpl; lia).
Qed.

(** The loop over the buckets is the weighting of one bucket after the
    other, on the same accumulators. *)
Lemma sum_buckets_weighted (m : list (list byte * list BucketStorageTally)) usage :
  sum_buckets m usage
  = Some (weighted_buckets bst_IntervalStart tally_bytes (map snd m) (fst usage),
          weighted_buckets bst_IntervalStart tally_objects (map snd m)
            (snd usage)).
Proof.
  revert usage. induction m as [|[k tallies] m IH]; intros usage.
  - now destruct usage.
  - cbn [sum_buckets]. rewrite sum_tallies_all, IH. reflexivity.
Qed.

(** *** GetProjectTotal on a connection that does not fail *)

Lemma assign_fresh {V} k (v : V) m :
  (forall kv, In kv m -> fst kv <> k) -> assign k v m = m ++ [(k, v)].
Proof.
  induction m as [|[k' v'] m IH]; intros Hm; [reflexivity|].
  simpl. assert (Hne : bytes_eqb k k' = false).
  { apply bytes_eqb_neq. intros ->. apply (Hm (k', v')); [now left|reflexivity]. }
  rewrite Hne. f_equal. apply IH. intros kv Hin. apply Hm. now right.
Qed.

Lemma collect_tallies_healthy projectID since before names m db :
  fault db = None -> List.NoDup names ->
  (forall kv, In kv m -> ~ In (fst kv) names) ->
  collect_tallies projectID since before names m db =
    (Ok (m ++ map (fun b => (b, window_tallies projectID since before db b)) names),
     db).
Proof.
  intros Hf. revert m. induction names as [|b rest IH]; intros m Hnd Hm.
  - simpl. now rewrite app_nil_r.
  - inversion Hnd as [|? ? Hb Hnd']; subst.
    cbn [collect_tallies].
    rewrite (bind_healthy _ _ db _ (query_healthy _ db Hf)).
    rewrite assign_fresh.
    2:{ intros kv Hin Heq. apply (Hm kv Hin). rewrite Heq. now left. }
    rewrite IH; [|assumption|].
    + rewrite <- app_assoc. reflexivity.
    + intros kv Hin. apply in_app_or in Hin as [Hin|[<-|[]]].
      * intros Hr. apply (Hm kv Hin). now right.
      * exact Hb.
Qed.

Lemma sumZ_split (rows : list RollupRow) :
  sumZ (map bw_settled rows) + sumZ (map bw_inline rows)
  = sumZ (map (fun r => bw_settled r + bw_inline r) rows).
Proof. induction rows as [|r rows IH]; simpl; lia. Qed.

(** The call on a connection that does not fail. *)
Lemma GetProjectTotal_healthy order projectID since before db :
  fault db = None ->
  let lo := at_instant (timeTruncateDown since) in
  let egress :=
    sumZ (map (fun r => bw_settled r + bw_inline r)
            (egress_rows projectID lo before db)) in
  let tallies := map snd (order (window_entries projectID lo before db)) in
  GetProjectTotal order projectID since before db =
    (if (- 2^63 <=? egress) && (egress <? 2^63)
     then Ok {| Storage :=
                  weighted_buckets bst_IntervalStart tally_bytes tallies
                    PrimFloat.zero;
                Egress := egress;
                ObjectCount :=
                  weighted_buckets bst_IntervalStart tally_objects tallies
                    PrimFloat.zero;
                Since := timeTruncateDown since; Before := before |}
     else Err ErrStore,
     db).
Proof.
  intros Hf lo egress tallies. unfold GetProjectTotal. fold lo.
  unfold getBucketsSinceAndBefore, getTotalEgress.
  rewrite (bind_healthy _ _ db _ (query_healthy _ db Hf)).
  fold (window_buckets projectID lo before db).
  assert (Hnil : forall kv : list byte * list BucketStorageTally,
            In kv [] -> ~ In (fst kv) (window_buckets projectID lo before db))
    by (intros kv Hin; destruct Hin).
  rewrite (bind_healthy _ _ db _
             (collect_tallies_healthy projectID lo before _ [] db Hf
                (distinct_NoDup _) Hnil)).
  simpl app. fold (window_entries projectID lo before db). fold tallies.
  unfold bind. rewrite (query_healthy _ db Hf), sumZ_split.
  fold (egress_rows projectID lo before db). fold egress.
  rewrite scan_int64_cases.
  destruct ((- 2^63 <=? egress) && (egress <? 2^63)); [|reflexivity].
  rewrite sum_buckets_weighted. reflexivity.
Qed.

(** *** Interval weighting in GetProjectTotal (C3) *)

Lemma weighted_ext {A} (start : A -> Time) f g l acc :
  (forall y, In y l -> f y = g y) ->
  weighted start f l acc = weighted start g l acc.
Proof.
  induction l as [|x l IH]; intros H; [reflexivity|].
  destruct l as [|y l]; [reflexivity|].
  change (weighted start f (x :: y :: l) acc)
    with (weighted start f (y :: l) acc
          [+] f y [*] hours_between (start x) (start y)).
  change (weighted start g (x :: y :: l) acc)
    with (weighted start g (y :: l) acc
          [+] g y [*] hours_between (start x) (start y)).
  rewrite IH by (intros z Hz; apply H; now right).
  rewrite (H y) by (right; now left). reflexivity.
Qed.















Ltac by_compute := vm_compute; first [reflexivity | discriminate | congruence].


(** *** The window of GetProjectTotal (C7) *)

Lemma in_window_iff since before t :
  in_window since before t = true <-> since <= t <= before.
Proof. unfold in_window. rewrite andb_true_iff, !Z.leb_le. reflexivity. Qed.

Lemma window_buckets_In projectID since before db b :
  In b (window_buckets projectID since before db) <->
  exists r, In r (bucket_storage_tallies db)
            /\ tally_project_id r = projectID /\ tally_bucket_name r = b
            /\ since <= tally_interval_start r <= before.
Proof.
  unfold window_buckets. rewrite distinct_In, in_map_iff. split.
  - intros (r & Hn & Hin). apply filter_In in Hin as [Hin Hsel].
    apply andb_true_iff in Hsel as [Hp Hw].
    apply N.eqb_eq in Hp. apply in_window_iff in Hw. eauto 6.
  - intros (r & Hin & Hp & Hn & Hw). exists r. split; [assumption|].
    apply filter_In. split; [assumption|].
    apply andb_true_iff. split; [now apply N.eqb_eq|now apply in_window_iff].
Qed.

Lemma storage_rows_In projectID bucket since before db r :
  In r (storage_rows projectID bucket since before db) <->
  In r (bucket_storage_tallies db)
  /\ tally_project_id r = projectID /\ tally_bucket_name r = bucket
  /\ since <= tally_interval_start r <= before.
Proof.
  unfold storage_rows, tally_selected.
  rewrite order_desc_In, filter_In, !andb_true_iff, N.eqb_eq, bytes_eqb_eq,
    in_window_iff.
  tauto.
Qed.

Lemma egress_rows_In projectID since before db r :
  In r (egress_rows projectID since before db) <->
  In r (bucket_bandwidth_rollups db)
  /\ bw_project_id r = projectID /\ bw_action r = PieceAction_GET
  /\ since <= bw_interval_start r <= before.
Proof.
  unfold egress_rows, rollup_selected.
  rewrite filter_In, !andb_true_iff, N.eqb_eq, Z.eqb_eq, in_window_iff.
  tauto.
Qed.

Lemma up_to_tallies before (Q : TallyRow -> bool) db :
  (forall r, Q r = true -> (tally_interval_start r <=? before) = true) ->
  List.filter Q (bucket_storage_tallies (up_to before db))
  = List.filter Q (bucket_storage_tallies db).
Proof. intros H. simpl. now apply filter_sub. Qed.

Lemma up_to_rollups before (Q : RollupRow -> bool) db :
  (forall r, Q r = true -> (bw_interval_start r <=? before) = true) ->
  List.filter Q (bucket_bandwidth_rollups (up_to before db))
  = List.filter Q (bucket_bandwidth_rollups db).
Proof. intros H. simpl. now apply filter_sub. Qed.

Lemma in_window_upper since before t :
  in_window since before t = true -> (t <=? before) = true.
Proof. unfold in_window. intros H. now apply andb_true_iff in H as [_ H]. Qed.

Lemma up_to_storage_rows projectID bucket since before db :
  storage_rows projectID bucket since before (up_to before db)
  = storage_rows projectID bucket since before db.
Proof.
  unfold storage_rows. rewrite up_to_tallies; [reflexivity|].
  intros r Hr. unfold tally_selected in Hr.
  apply andb_true_iff in Hr as [_ Hr]. now apply in_window_upper in Hr.
Qed.

Lemma respects_up_to_collect projectID since before names m :
  respects (up_to before) (collect_tallies projectID since before names m).
Proof.
  revert m. induction names as [|b rest IH]; intros m.
  - now apply respects_ret.
  - cbn [collect_tallies]. apply respects_bind; [|intros rows; apply IH].
    apply respects_query; try reflexivity.
    intros db. apply up_to_storage_rows.
Qed.

(** What the statements of [GetProjectTotal] select does not depend on the
    rows that start after [before]. *)
Lemma respects_up_to_GetProjectTotal order projectID since before :
  respects (up_to before) (GetProjectTotal order projectID since before).
Proof.
  unfold GetProjectTotal. apply respects_bind.
  { apply respects_query; try reflexivity. intros db.
    rewrite up_to_tallies; [reflexivity|].
    intros r Hr. apply andb_true_iff in Hr as [_ Hr].
    now apply in_window_upper in Hr. }
  intros names. apply respects_bind; [apply respects_up_to_collect|].
  intros m. apply respects_bind.
  { unfold getTotalEgress. apply respects_bind; [|apply respects_scan_int64].
    apply respects_query; try reflexivity. intros db.
    rewrite up_to_rollups; [reflexivity|].
    intros r Hr. unfold rollup_selected in Hr.
    apply andb_true_iff in Hr as [Hr _]. apply andb_true_iff in Hr as [_ Hr].
    now apply in_window_upper in Hr. }
  intros egress. destruct (sum_buckets _ _) as [[st oc]|];
    [now apply respects_ret|now apply respects_panic].
Qed.

(** C7 (as stated, refuted): with [before] at hour 1, the tally and the
    GET rollup that start at hour 1 are counted: the bucket is enumerated
    for the window from hour 1 to hour 1, the tally at hour 0 is weighted
    with the hour up to the tally at hour 1, and the rollup is in the
    egress.  Without the rows that start at [before] the totals are zero. *)
Lemma rows_at_before_are_counted :
  fst (getBucketsSinceAndBefore 1 Hour Hour db_boundary) = Ok [bucket_a]
  /\ match fst (GetProjectTotal (fun m => m) 1 (in_utc 0) Hour db_boundary) with
     | Ok usage => Storage usage = float64_of_Z 10 /\ Egress usage = 7
     | _ => False
     end
  /\ match fst (GetProjectTotal (fun m => m) 1 (in_utc 0) Hour
                  (strictly_before Hour db_boundary)) with
     | Ok usage => Storage usage = float64_of_Z 0 /\ Egress usage = 0
     | _ => False
     end.
Proof.
  split; [reflexivity|]. split; vm_compute; split; reflexivity.
Qed.

(** C7 (amended): the window is closed at its upper end.  For every
    project, [GetProjectTotal] considers only the tallies and bandwidth
    rollups that start at or before [before]: the call returns the same
    with and without the rows that start later.  A tally or rollup that
    starts at [before], in a window that is not empty, is included in the
    enumeration of the buckets, in the tallies that are weighted and in
    the rollups of which the egress is the sum, a sum that fits the int64
    it is scanned into.  (The window starts at [lo], the start of the hour
    that holds [since] on the clock of the zone of [since].) *)
Theorem project_total_window_closed order db projectID since before :
  let lo := at_instant (timeTruncateDown since) in
  let egress :=
    sumZ (map (fun r => bw_settled r + bw_inline r)
            (egress_rows projectID lo before db)) in
  fst (GetProjectTotal order projectID since before (up_to before db))
  = fst (GetProjectTotal order projectID since before db)
  /\ (lo <= before ->
      (forall r,
         In r (bucket_storage_tallies db) -> tally_project_id r = projectID ->
         tally_interval_start r = before ->
         In (tally_bucket_name r) (window_buckets projectID lo before db)
         /\ In (scan_storage_tally (tally_bucket_name r) r)
              (window_tallies projectID lo before db (tally_bucket_name r)))
      /\ (forall r,
            In r (bucket_bandwidth_rollups db) -> bw_project_id r = projectID ->
            bw_action r = PieceAction_GET -> bw_interval_start r = before ->
            In r (egress_rows projectID lo before db)))
  /\ (fault db = None -> int64_range egress ->
      exists usage,
        GetProjectTotal order projectID since before db = (Ok usage, db)
        /\ Storage usage
           = weighted_buckets bst_IntervalStart tally_bytes
               (map snd (order (window_entries projectID lo before db)))
               PrimFloat.zero
        /\ Egress usage = egress)
  /\ hour_start since lo.
Proof.
  intros lo egress. split; [|split; [|split]];
    [| | |apply timeTruncateDown_hour_start].
  - apply respects_up_to_GetProjectTotal.
  - intros Hlo. split.
    + intros r Hin Hp Ht. split.
      * apply window_buckets_In. exists r. repeat split; try assumption; lia.
      * unfold window_tallies. apply in_map. apply storage_rows_In.
        repeat split; try assumption; lia.
    + intros r Hin Hp Ha Ht. apply egress_rows_In.
      repeat split; try assumption; lia.
  - intros Hf [H1 H2].
    rewrite (GetProjectTotal_healthy order projectID since before db Hf).
    fold lo. fold egress.
    rewrite (proj2 (Z.leb_le _ _) H1), (proj2 (Z.ltb_lt _ _) H2).
    eexists. split; [reflexivity|]. split; reflexivity.
Qed.

(** The bucket with a tally at [before] is in the window that starts and
    ends at [before]. *)
Lemma project_total_window_closed_witness :
  In bucket_a
    (window_buckets 1 (at_instant (timeTruncateDown (in_utc Hour))) Hour
       db_boundary).
Proof.
  apply (proj1 (proj1 (proj1 (proj2 (project_total_window_closed (fun m => m)
                  db_boundary 1 (in_utc Hour) Hour)) ltac:(by_compute))
           (plain_tally 1 bucket_a Hour 20 2)
           ltac:(right; left; reflexivity) eq_refl eq_refl)).
Defined.

(** *** Pages of GetBucketTotals (C6, C10) *)

(** The range that [prefixMatch] builds selects the names that start with
    the prefix. *)
Lemma search_range_prefix prefix name :
  eval_range (fst (search_range prefix)) (snd (search_range prefix)) name
  = has_prefix prefix name.
Proof.
  unfold search_range. destruct (prefixIncrement prefix) as [r|] eqn:E; simpl.
  - destruct (PrefixRangeProps.prefixIncrement_Some prefix r E)
      as (pre & b & tl & -> & Hb & Htl & ->).
    now apply PrefixRangeProps.range_is_prefix.
  - apply PrefixRangeProps.prefixIncrement_None in E.
    now apply PrefixRangeProps.bytes_leb_all_ff.
Qed.

Lemma total_matching_prefix projectID prefix db :
  total_matching projectID prefix db
  = Z.of_nat (length (matching_buckets projectID prefix db)).
Proof.
  unfold total_matching, matching_names, matching_buckets.
  rewrite length_map. do 2 f_equal. apply List.filter_ext.
  intros r. now rewrite search_range_prefix.
Qed.

Lemma mapM_total {A B} (f : A -> M B) l db :
  (forall x, exists y, f x db = (Ok y, db)) ->
  exists ys, mapM f l db = (Ok ys, db) /\ length ys = length l.
Proof.
  intros Hf. induction l as [|x l IH].
  - exists []. split; reflexivity.
  - destruct (Hf x) as [y Hy]. destruct IH as (ys & Hys & Hlen).
    exists (y :: ys). simpl.
    rewrite (bind_healthy _ _ db y Hy), (bind_healthy _ _ db ys Hys).
    split; [reflexivity|]. simpl. now rewrite Hlen.
Qed.

Lemma capped_min cursor : capped cursor = Z.min (cur_Limit cursor) 50.
Proof.
  unfold capped. destruct (50 <? cur_Limit cursor) eqn:E.
  - apply Z.ltb_lt in E. lia.
  - apply Z.ltb_ge in E. lia.
Qed.

(** On a connection that does not fail a call that only reads leaves the
    handle as it is. *)
Lemma mapM_settles {A B} (f : A -> M B) l db :
  (forall x, snd (f x db) = db) -> snd (mapM f l db) = db.
Proof.
  intros Hf. induction l as [|x l IH]; [reflexivity|].
  cbn [mapM]. unfold bind at 1. specialize (Hf x).
  destruct (f x db) as [[y|e|] db1]; simpl in Hf; subst db1; try reflexivity.
  unfold bind. destruct (mapM f l db) as [[ys|e|] db2]; simpl in IH; now subst.
Qed.

Lemma bucket_usage_settles projectID since before bucket db :
  fault db = None -> snd (bucket_usage projectID since before bucket db) = db.
Proof.
  intros Hf. unfold bucket_usage.
  rewrite (bind_healthy _ _ db _ (query_healthy _ db Hf)).
  unfold bind at 1. rewrite scan_int64_cases.
  destruct (_ && _); [|reflexivity].
  rewrite (bind_healthy _ _ db _ (query_healthy _ db Hf)).
  now destruct (latest_tally _ _ _ _ _) as [[[total inline] remote] objects].
Qed.

(** The call on a connection that does not fail, as a cascade of its
    exits; [entries] is the outcome of the loop over the buckets of the
    page. *)
Lemma GetBucketTotals_healthy projectID cursor since before db :
  fault db = None -> impl db <> OtherImpl -> cur_Page cursor <> 0 ->
  let limit := capped cursor in
  let offset := wrapU64 (wrapU64 (cur_Page cursor - 1) * limit) in
  let total := total_matching projectID (cur_Search cursor) db in
  let entries :=
    fst (mapM (bucket_usage projectID (timeTruncateDown since) before)
           (take (Z.to_nat limit)
              (drop (Z.to_nat offset)
                 (sorted_matching projectID (cur_Search cursor) db))) db) in
  GetBucketTotals projectID cursor since before db =
    (if total =? 0 then
       Ok (mkPage [] (cur_Search cursor) limit offset 0 0 total)
     else if wrapU64 (total - 1) <? offset then Err (ErrPlain 1)
     else
       match entries with
       | Ok bucketUsages =>
           if limit =? 0 then Panic
           else
             Ok (mkPage bucketUsages (cur_Search cursor) limit offset
                   (if negb (total mod limit =? 0)
                    then wrapU64 (total / limit + 1) else total / limit)
                   (cur_Page cursor) total)
       | Err e => Err e
       | Panic => Panic
       end,
     db).
Proof.
  intros Hf Hi Hp limit offset total entries.
  unfold GetBucketTotals. fold (capped cursor). fold limit. fold offset.
  apply Z.eqb_neq in Hp. rewrite Hp.
  assert (Hpm : prefixMatch db (cur_Search cursor) =
                Ok (fst (search_range (cur_Search cursor)),
                    match prefixIncrement (cur_Search cursor) with
                    | Some p => Some p | None => None end)).
  { unfold prefixMatch, search_range.
    destruct (impl db); [| |congruence];
      destruct (prefixIncrement (cur_Search cursor)); reflexivity. }
  rewrite Hpm.
  assert (Hargs : match (match prefixIncrement (cur_Search cursor) with
                         | Some p => Some p | None => None end) with
                  | Some p => [cur_Search cursor; p]
                  | None => [cur_Search cursor]
                  end = snd (search_range (cur_Search cursor))).
  { unfold search_range. destruct (prefixIncrement (cur_Search cursor)); reflexivity. }
  rewrite Hargs.
  rewrite (bind_healthy _ _ db _ (query_healthy _ db Hf)).
  fold (total_matching projectID (cur_Search cursor) db). fold total.
  destruct (total =? 0); [reflexivity|].
  destruct (wrapU64 (total - 1) <? offset); [reflexivity|].
  rewrite (bind_healthy _ _ db _ (query_healthy _ db Hf)).
  fold (sorted_matching projectID (cur_Search cursor) db).
  pose proof (mapM_settles (bucket_usage projectID (timeTruncateDown since) before)
                (take (Z.to_nat limit)
                   (drop (Z.to_nat offset)
                      (sorted_matching projectID (cur_Search cursor) db))) db
                (fun b => bucket_usage_settles _ _ _ b db Hf)) as Hsnd.
  unfold bind. fold entries.
  destruct (mapM _ _ db) as [o db1] eqn:E. simpl in Hsnd. subst db1.
  unfold entries. cbn [fst].
  destruct o as [us|e|]; [|reflexivity|reflexivity].
  destruct (limit =? 0); reflexivity.
Qed.

Lemma ceil_div_spec a b :
  0 <= a -> 0 < b -> (ceil_div a b - 1) * b < a <= ceil_div a b * b.
Proof.
  intros Ha Hb. unfold ceil_div.
  pose proof (Z.div_mod (a + b - 1) b ltac:(lia)) as E.
  pose proof (Z.mod_pos_bound (a + b - 1) b Hb) as Hm. nia.
Qed.

Lemma page_count_ceil a b :
  0 <= a -> 0 < b ->
  (if negb (a mod b =? 0) then a / b + 1 else a / b) = ceil_div a b.
Proof.
  intros Ha Hb. unfold ceil_div.
  pose proof (Z.div_mod a b ltac:(lia)) as E.
  pose proof (Z.mod_pos_bound a b Hb) as Hm.
  destruct (a mod b =? 0) eqn:E0; simpl.
  - apply Z.eqb_eq in E0.
    apply (Z.div_unique (a + b - 1) b (a / b) (b - 1)); lia.
  - apply Z.eqb_neq in E0.
    apply (Z.div_unique (a + b - 1) b (a / b + 1) (a mod b - 1)); lia.
Qed.

(** C6 (as stated, refuted): no bucket matches, so the ceiling of the
    total over the limit is 0 and page 2 lies beyond it; the call returns
    an empty page and no error. *)
Lemma page_beyond_empty_listing :
  total_matching 1 [] db_empty = 0
  /\ ceil_div 0 10 < 2
  /\ fst (GetBucketTotals 1 (mkCursor [] 10 2) (in_utc 0) Hour db_empty)
     = Ok (mkPage [] [] 10 10 0 0 0).
Proof. repeat split. Qed.

(** Three buckets match and the limit is 2, so there are 2 pages; the
    offset of page 2^63 + 1 is 2^64, which is 0 in an unsigned 64-bit
    integer, and the call returns the first two buckets. *)
Example page_offset_wraps :
  total_matching 1 [] db_listing = 3
  /\ ceil_div 3 2 < 2^63 + 1
  /\ wrapU64 ((2^63 + 1 - 1) * 2) = 0
  /\ map bu_BucketName
       (BucketUsages
          (page_of (fst (GetBucketTotals 1 (mkCursor [] 2 (2^63 + 1))
                           (in_utc 0) Hour db_listing))))
     = [[x61]; [x62]].
Proof. vm_compute. repeat split; congruence. Qed.

(** C6 (amended): a cursor with page 0 fails with an error.  For a cursor
    and a total within the unsigned 64-bit integers, a dialect with a
    prefix range, and a connection that does not fail: when at least one
    bucket matches, the capped limit is not zero and the offset, (page - 1)
    times the capped limit, fits an unsigned 64-bit integer, a page beyond
    the ceiling of the total over the capped limit fails with the
    out-of-range error (when no bucket matches, an empty page is returned
    whatever the page number); the limit of a returned page is the
    requested limit capped at 50; and with a limit that is not zero the
    page count of a returned page is the ceiling of the total over the
    capped limit. *)
Theorem bucket_totals_paging projectID cursor since before db :
  0 <= cur_Limit cursor < 2^64 -> 0 <= cur_Page cursor < 2^64 ->
  let limit := Z.min (cur_Limit cursor) 50 in
  let total := total_matching projectID (cur_Search cursor) db in
  let result := fst (GetBucketTotals projectID cursor since before db) in
  total = Z.of_nat (length (matching_buckets projectID (cur_Search cursor) db))
  /\ (cur_Page cursor = 0 -> result = Err (ErrPlain 0))
  /\ (fault db = None -> impl db <> OtherImpl ->
      (0 < total < 2^64 -> 0 < limit -> (cur_Page cursor - 1) * limit < 2^64 ->
       ceil_div total limit < cur_Page cursor ->
       result = Err (ErrPlain 1))
      /\ (total = 0 -> cur_Page cursor <> 0 ->
          exists page, result = Ok page /\ BucketUsages page = [])
      /\ (forall page, result = Ok page ->
            Limit page = limit /\ TotalCount page = total
            /\ (0 < limit -> total < 2^64 ->
                PageCount page = ceil_div total limit
                /\ (PageCount page - 1) * limit < total <= PageCount page * limit))).
Proof.
  intros HL HP limit total result. split; [apply total_matching_prefix|]. split.
  - intros H0. unfold result, GetBucketTotals. rewrite H0. reflexivity.
  - intros Hf Hi.
    assert (Hpos : 0 <= total) by (unfold total, total_matching; lia).
    assert (Hrun : cur_Page cursor <> 0 ->
              exists entries : outcome (list BucketUsage),
                result =
                  (if total =? 0 then
                     Ok (mkPage [] (cur_Search cursor) limit
                           (wrapU64 (wrapU64 (cur_Page cursor - 1) * limit)) 0 0 total)
                   else if wrapU64 (total - 1)
                           <? wrapU64 (wrapU64 (cur_Page cursor - 1) * limit)
                   then Err (ErrPlain 1)
                   else
                     match entries with
                     | Ok bucketUsages =>
                         if limit =? 0 then Panic
                         else
                           Ok (mkPage bucketUsages (cur_Search cursor) limit
                                 (wrapU64 (wrapU64 (cur_Page cursor - 1) * limit))
                                 (if negb (total mod limit =? 0)
                                  then wrapU64 (total / limit + 1)
                                  else total / limit)
                                 (cur_Page cursor) total)
                     | Err e => Err e
                     | Panic => Panic
                     end)).
    { intros Hp. eexists. unfold result.
      rewrite (GetBucketTotals_healthy projectID cursor since before db Hf Hi Hp).
      cbn [fst]. unfold limit, total. rewrite <- capped_min. reflexivity. }
    split; [|split].
    + intros Ht Hl Hoff Hbeyond.
      pose proof (ceil_div_spec total limit ltac:(lia) Hl) as Hc.
      assert (Hp : cur_Page cursor <> 0) by nia.
      destruct (Hrun Hp) as (us & ->).
      rewrite (proj2 (Z.eqb_neq total 0)) by lia.
      rewrite (wrapU64_small (cur_Page cursor - 1)) by lia.
      rewrite (wrapU64_small ((cur_Page cursor - 1) * limit)) by nia.
      rewrite (wrapU64_small (total - 1)) by lia.
      rewrite (proj2 (Z.ltb_lt _ _)) by nia. reflexivity.
    + intros Ht Hp. destruct (Hrun Hp) as (us & ->).
      rewrite Ht. simpl. eexists. split; reflexivity.
    + intros page Hpage.
      destruct (Z.eq_dec (cur_Page cursor) 0) as [H0|Hp].
      { unfold result, GetBucketTotals in Hpage. rewrite H0 in Hpage. discriminate. }
      destruct (Hrun Hp) as (us & Hres). rewrite Hres in Hpage. clear Hres Hrun.
      destruct (total =? 0) eqn:Et.
      * apply Z.eqb_eq in Et. injection Hpage as <-. simpl.
        repeat split; try reflexivity.
        -- rewrite Et. unfold ceil_div. symmetry. apply Z.div_small. lia.
        -- rewrite Et. lia.
        -- lia.
      * apply Z.eqb_neq in Et.
        destruct (wrapU64 (total - 1) <? _); [discriminate|].
        destruct us as [us|e|]; [|discriminate|discriminate].
        destruct (limit =? 0) eqn:El; [discriminate|].
        injection Hpage as <-. simpl.
        split; [reflexivity|]. split; [reflexivity|].
        intros Hl Htot.
        assert (Hpc : (if negb (total mod limit =? 0)
                       then wrapU64 (total / limit + 1) else total / limit)
                      = ceil_div total limit).
        { rewrite <- (page_count_ceil total limit Hpos Hl).
          destruct (total mod limit =? 0) eqn:Em; simpl; [reflexivity|].
          apply Z.eqb_neq in Em. apply wrapU64_small.
          pose proof (Z.div_mod total limit ltac:(lia)) as E.
          pose proof (Z.mod_pos_bound total limit Hl) as Hm.
          assert (0 <= total / limit) by (apply Z.div_pos; lia).
          assert (limit <> 1) by (intros ->; rewrite Z.mod_1_r in Em; lia).
          nia. }
        rewrite Hpc. split; [reflexivity|].
        apply ceil_div_spec; lia.
Qed.

(** Two buckets, one per page: page 3 is out of range. *)
Lemma bucket_totals_paging_witness :
  fst (GetBucketTotals 1 (mkCursor [] 1 3) (in_utc 0) Hour db_two_buckets)
  = Err (ErrPlain 1).
Proof.
  apply (proj1 (proj2 (proj2 (bucket_totals_paging 1 (mkCursor [] 1 3) (in_utc 0) Hour
                         db_two_buckets ltac:(by_compute || (split; by_compute))
                         ltac:(split; by_compute))) eq_refl
                  ltac:(discriminate)));
    try by_compute; split; by_compute.
Defined.

(** C10: with a limit of 0, a page number of at least 1 and at least one
    matching bucket, on a connection that does not fail, the limit stays 0
    (the cap only lowers limits above 50) and the call reaches the
    division of the total by the limit, which panics. *)
Theorem zero_limit_division_panics projectID cursor since before db :
  fault db = None -> impl db <> OtherImpl ->
  cur_Limit cursor = 0 -> 1 <= cur_Page cursor ->
  (exists r, In r (bucket_metainfos db) /\ mi_project_id r = projectID
             /\ has_prefix (cur_Search cursor) (mi_name r) = true) ->
  capped cursor = 0
  /\ fst (GetBucketTotals projectID cursor since before db) = Panic.
Proof.
  intros Hf Hi Hl Hp (r & Hin & Hpid & Hpre).
  assert (Ht : 1 <= total_matching projectID (cur_Search cursor) db).
  { rewrite total_matching_prefix.
    assert (Hr : In r (matching_buckets projectID (cur_Search cursor) db)).
    { apply filter_In. split; [exact Hin|].
      apply andb_true_iff. split; [now apply N.eqb_eq|exact Hpre]. }
    destruct (matching_buckets projectID (cur_Search cursor) db);
      [destruct Hr|simpl; lia]. }
  assert (Hc : capped cursor = 0) by (unfold capped; rewrite Hl; reflexivity).
  split; [exact Hc|].
  rewrite (GetBucketTotals_healthy projectID cursor since before db Hf Hi
             ltac:(lia)).
  rewrite Hc. rewrite (proj2 (Z.eqb_neq _ 0)) by lia.
  rewrite Z.mul_0_r.
  assert (Hw : (wrapU64 (total_matching projectID (cur_Search cursor) db - 1)
                <? wrapU64 0) = false).
  { apply Z.ltb_ge. unfold wrapU64. rewrite Z.mod_0_l by lia.
    apply Z.mod_pos_bound. lia. }
  rewrite Hw. reflexivity.
Qed.

(** Two buckets, page 1, limit 0. *)
Lemma zero_limit_division_panics_witness :
  fst (GetBucketTotals 1 (mkCursor [] 0 1) (in_utc 0) Hour db_two_buckets)
  = Panic.
Proof.
  apply (zero_limit_division_panics 1 (mkCursor [] 0 1) (in_utc 0) Hour
           db_two_buckets);
    try by_compute.
  exists (mkMetainfoRow 1 [x61]). split; [left; reflexivity|]. split; reflexivity.
Defined.

(** *** Archiving rollups (C5) *)

Lemma take_matching_moved P n l :
  fst (take_matching P (Some n) l) = take n (List.filter P l).
Proof.
  revert n. induction l as [|x l IH]; intros n; [now destruct n|].
  simpl. destruct (P x) eqn:Ex.
  - destruct n as [|n]; [reflexivity|].
    specialize (IH n). destruct (take_matching P (Some n) l) as [moved rest].
    simpl in *. now rewrite IH.
  - specialize (IH n). destruct (take_matching P (Some n) l) as [moved rest].
    exact IH.
Qed.

Lemma take_matching_rest P n l :
  List.filter P (snd (take_matching P (Some n) l)) = drop n (List.filter P l).
Proof.
  revert n. induction l as [|x l IH]; intros n; [now destruct n|].
  simpl. destruct (P x) eqn:Ex.
  - destruct n as [|n]; [simpl; now rewrite Ex|].
    specialize (IH n). destruct (take_matching P (Some n) l) as [moved rest].
    exact IH.
  - specialize (IH n). destruct (take_matching P (Some n) l) as [moved rest].
    simpl in *. now rewrite Ex.
Qed.

Lemma take_matching_others P Q lim l :
  (forall x, P x = true -> Q x = false) ->
  List.filter Q (snd (take_matching P lim l)) = List.filter Q l.
Proof.
  intros HPQ. revert lim. induction l as [|x l IH]; intros lim; [reflexivity|].
  simpl. destruct (P x) eqn:Ex.
  - rewrite (HPQ x Ex). destruct lim as [[|n]|].
    + simpl. now rewrite (HPQ x Ex).
    + specialize (IH (Some n)).
      destruct (take_matching P (Some n) l) as [moved rest]. exact IH.
    + specialize (IH None).
      destruct (take_matching P None l) as [moved rest]. exact IH.
  - specialize (IH lim). destruct (take_matching P lim l) as [moved rest].
    simpl in *. now rewrite IH.
Qed.

Lemma take_matching_length P lim l :
  (length (fst (take_matching P lim l)) + length (snd (take_matching P lim l))
   = length l)%nat.
Proof.
  revert lim. induction l as [|x l IH]; intros lim; [reflexivity|].
  simpl. destruct (P x).
  - destruct lim as [[|n]|].
    + reflexivity.
    + specialize (IH (Some n)).
      destruct (take_matching P (Some n) l) as [moved rest]. simpl in *. lia.
    + specialize (IH None).
      destruct (take_matching P None l) as [moved rest]. simpl in *. lia.
  - specialize (IH lim). destruct (take_matching P lim l) as [moved rest].
    simpl in *. lia.
Qed.

(** One statement on a connection that still serves it. *)
Lemma archive_statement_runs action before limit db :
  fault db <> Some O ->
  let split := take_matching (to_archive action before) (option_map Z.to_nat limit)
                 (bucket_bandwidth_rollups db) in
  let rowCount := Z.of_nat (length (fst split)) in
  archive_statement action before limit db =
    (Row rowCount,
     mkSatelliteDB (impl db) (bucket_storage_tallies db) (snd split)
       (bucket_bandwidth_rollup_archives db ++ fst split) (bucket_metainfos db)
       (option_map Nat.pred (fault db)) ((action, rowCount) :: round_trips db)).
Proof.
  intros Hf. cbn zeta. unfold archive_statement.
  destruct (take_matching _ _ _) as [moved rest]. simpl.
  destruct (fault db) as [[|k]|]; [congruence|reflexivity|reflexivity].
Qed.

Lemma archive_statement_fails action before limit db :
  fault db = Some O ->
  archive_statement action before limit db = (DriverErr, db).
Proof. intros Hf. unfold archive_statement. now rewrite Hf. Qed.

Lemma rounds_last action b m : 0 <= m < b -> rounds action b m = [(Some action, m)].
Proof.
  intros H. unfold rounds. rewrite Z.div_small, Z.mod_small by lia. reflexivity.
Qed.

Lemma rounds_step action b m :
  0 < b <= m -> rounds action b m = (Some action, b) :: rounds action b (m - b).
Proof.
  intros H. unfold rounds.
  replace m with ((m - b) + 1 * b) at 1 2 by lia.
  rewrite Z.div_add, Z_mod_plus_full by lia.
  assert (0 <= (m - b) / b) by (apply Z.div_pos; lia).
  rewrite Z2Nat.inj_add by lia. rewrite Nat.add_comm. reflexivity.
Qed.

(** What one round does to the rows an action still has to give up. *)
Lemma round_moves action before b db :
  0 < b ->
  let P := to_archive (Some action) before in
  let split := take_matching P (Some (Z.to_nat b)) (bucket_bandwidth_rollups db) in
  fst split = take (Z.to_nat b) (pending action before db)
  /\ List.filter P (snd split) = drop (Z.to_nat b) (pending action before db)
  /\ Z.of_nat (length (fst split)) = Z.min b (pending_count action before db).
Proof.
  intros Hb P split. unfold split, pending_count, pending. fold P.
  rewrite take_matching_moved, take_matching_rest.
  repeat split. rewrite length_take. lia.
Qed.

Lemma archive_loop_healthy fuel action before b acc db :
  fault db = None -> 0 < b ->
  (length (pending action before db) < fuel)%nat ->
  exists db',
    archive_loop fuel action before b acc db =
      Some ((acc + pending_count action before db, None), db')
    /\ round_trips db' =
         rev (rounds action b (pending_count action before db)) ++ round_trips db
    /\ fault db' = None /\ impl db' = impl db
    /\ pending action before db' = []
    /\ (forall a', a' <> action -> pending a' before db' = pending a' before db)
    /\ bucket_bandwidth_rollup_archives db' =
         bucket_bandwidth_rollup_archives db ++ pending action before db.
Proof.
  revert acc db. induction fuel as [|fuel IH]; intros acc db Hf Hb Hfuel; [lia|].
  cbn [archive_loop].
  rewrite archive_statement_runs by (rewrite Hf; discriminate).
  cbn [option_map]. rewrite Hf. cbn [option_map].
  destruct (round_moves action before b db Hb) as (Hmoved & Hrest & Hcount).
  set (split := take_matching (to_archive (Some action) before)
                  (Some (Z.to_nat b)) (bucket_bandwidth_rollups db)) in *.
  set (db1 := mkSatelliteDB _ _ _ _ _ _ _).
  assert (Hothers : forall a', a' <> action ->
            pending a' before db1 = pending a' before db).
  { intros a' Hne. unfold pending, db1. simpl. apply take_matching_others.
    intros x Hx. simpl in *. apply andb_true_iff in Hx as [Ha _].
    apply Z.eqb_eq in Ha. rewrite Ha.
    rewrite (proj2 (Z.eqb_neq action a')) by congruence. reflexivity. }
  assert (Hpend1 : pending action before db1 =
                   drop (Z.to_nat b) (pending action before db)) by exact Hrest.
  rewrite Hcount.
  destruct (Z.min b (pending_count action before db) <? b) eqn:Elt.
  - apply Z.ltb_lt in Elt.
    assert (Hm : 0 <= pending_count action before db < b).
    { assert (0 <= pending_count action before db)
        by (unfold pending_count; lia).
      lia. }
    exists db1. rewrite Z.min_r by lia. split; [reflexivity|].
    split.
    { unfold db1. cbn [round_trips].
      rewrite (rounds_last action b _ Hm), Hcount, Z.min_r by lia. reflexivity. }
    split; [reflexivity|]. split; [reflexivity|].
    split.
    { rewrite Hpend1. apply drop_ge. unfold pending_count in Hm. lia. }
    split; [exact Hothers|].
    unfold db1. simpl. rewrite Hmoved, take_ge; [reflexivity|].
    unfold pending_count in Hm. lia.
  - apply Z.ltb_ge in Elt.
    assert (Hm : b <= pending_count action before db) by lia.
    assert (Hlen1 : pending_count action before db1 =
                    pending_count action before db - b).
    { unfold pending_count in *. rewrite Hpend1, length_drop. lia. }
    destruct (IH (acc + Z.min b (pending_count action before db)) db1
                eq_refl Hb) as (db' & Hrun & Htrips & Hf' & Hi' & Hp' & Ho' & Ha').
    { rewrite Hpend1, length_drop. unfold pending_count in Hm. lia. }
    exists db'. rewrite Hrun, Hlen1.
    split.
    { replace (acc + Z.min b (pending_count action before db)
               + (pending_count action before db - b))
        with (acc + pending_count action before db) by lia.
      reflexivity. }
    split.
    { rewrite Htrips, Hlen1. unfold db1 at 1. cbn [round_trips].
      rewrite Hcount, Z.min_l by lia.
      rewrite (rounds_step action b (pending_count action before db)) by lia.
      cbn [rev]. now rewrite <- app_assoc. }
    split; [exact Hf'|]. split; [exact Hi'|]. split; [exact Hp'|].
    split.
    { intros a' Hne. now rewrite (Ho' a' Hne), (Hothers a' Hne). }
    rewrite Ha', Hpend1. unfold db1. simpl.
    rewrite Hmoved, <- app_assoc. now rewrite take_drop.
Qed.

(** Whatever the connection does, the loop of one action ends within
    [fuel] rounds, and the count it returns, also next to an error, is the
    number of rows that went from the live table to the archive. *)
Lemma archive_loop_count fuel action before b acc db :
  0 < b -> (length (pending action before db) < fuel)%nat ->
  exists c e db',
    archive_loop fuel action before b acc db = Some ((c, e), db')
    /\ c - acc = archived_rows db db' /\ c - acc = removed_rows db db'
    /\ 0 <= c - acc /\ impl db' = impl db.
Proof.
  intros Hb. revert acc db.
  induction fuel as [|fuel IH]; intros acc db Hfuel; [lia|].
  cbn [archive_loop].
  destruct (option_eq_dec (fault db) (Some O)) as [Hf|Hf].
  - rewrite (archive_statement_fails _ _ _ db Hf).
    exists acc, (Some ErrStore), db. unfold archived_rows, removed_rows.
    repeat split; lia.
  - rewrite (archive_statement_runs _ _ _ db Hf). cbn [option_map].
    destruct (round_moves action before b db Hb) as (Hmoved & Hrest & Hcount).
    pose proof (take_matching_length (to_archive (Some action) before)
                  (Some (Z.to_nat b)) (bucket_bandwidth_rollups db)) as Hlen.
    set (split := take_matching (to_archive (Some action) before)
                    (Some (Z.to_nat b)) (bucket_bandwidth_rollups db)) in *.
    set (db1 := mkSatelliteDB _ _ _ _ _ _ _).
    assert (Ha1 : archived_rows db db1 = Z.of_nat (length (fst split))).
    { unfold archived_rows, db1. simpl. rewrite length_app. lia. }
    assert (Hr1 : removed_rows db db1 = Z.of_nat (length (fst split))).
    { unfold removed_rows, db1. simpl. lia. }
    destruct (Z.of_nat (length (fst split)) <? b) eqn:Elt.
    + exists (acc + Z.of_nat (length (fst split))), None, db1.
      repeat split; lia.
    + apply Z.ltb_ge in Elt.
      destruct (IH (acc + Z.of_nat (length (fst split))) db1)
        as (c & e & db' & Hrun & Hca & Hcr & Hpos & Hi).
      { change (pending action before db1) with (List.filter
          (to_archive (Some action) before) (snd split)).
        rewrite Hrest, length_drop. unfold pending_count in Hcount. lia. }
      exists c, e, db'. split; [exact Hrun|].
      unfold archived_rows, removed_rows in *.
      repeat split; try lia. now rewrite Hi.
Qed.

Lemma sumZ_cons x l : sumZ (x :: l) = x + sumZ l.
Proof. reflexivity. Qed.

Lemma flat_map_ext_In {A B} (f g : A -> list B) l :
  (forall a, In a l -> f a = g a) -> flat_map f l = flat_map g l.
Proof.
  induction l as [|x l IH]; intros H; [reflexivity|].
  simpl. rewrite (H x) by now left. rewrite IH; [reflexivity|].
  intros a Ha. apply H. now right.
Qed.

Lemma archive_actions_healthy fuel actions before b acc db :
  fault db = None -> 0 < b -> List.NoDup actions ->
  (forall a, In a actions -> (length (pending a before db) < fuel)%nat) ->
  exists db',
    archive_actions fuel actions before b acc db =
      Some ((acc + sumZ (map (fun a => pending_count a before db) actions), None),
            db')
    /\ round_trips db' =
         rev (flat_map (fun a => rounds a b (pending_count a before db)) actions)
         ++ round_trips db
    /\ fault db' = None
    /\ (forall a, In a actions -> pending a before db' = [])
    /\ (forall a, ~ In a actions -> pending a before db' = pending a before db).
Proof.
  intros Hf Hb. revert acc db Hf.
  induction actions as [|a rest IH]; intros acc db Hf Hnd Hfuel.
  - exists db. simpl. rewrite Z.add_0_r.
    split; [reflexivity|]. split; [reflexivity|]. split; [assumption|].
    split; [intros a Hin; destruct Hin|reflexivity].
  - inversion Hnd as [|? ? Ha Hnd']; subst.
    cbn [archive_actions]. unfold archiveRollupsBeforeByAction.
    destruct (archive_loop_healthy fuel a before b 0 db Hf Hb)
      as (db1 & Hrun & Htrips & Hf1 & _ & Hp1 & Ho1 & _).
    { apply Hfuel. now left. }
    rewrite Hrun.
    assert (Hne : forall a', In a' rest -> a' <> a) by (intros a' Hin ->; contradiction).
    assert (Hsame : forall a', In a' rest ->
              pending_count a' before db1 = pending_count a' before db).
    { intros a' Hin. unfold pending_count. now rewrite (Ho1 a' (Hne a' Hin)). }
    destruct (IH (acc + (0 + pending_count a before db)) db1 Hf1 Hnd')
      as (db' & Hrun' & Htrips' & Hf' & Hp' & Ho').
    { intros a' Hin. rewrite (Ho1 a' (Hne a' Hin)). apply Hfuel. now right. }
    exists db'. rewrite Hrun'.
    rewrite (map_ext_in _ _ rest Hsame).
    split.
    { cbn [map]. rewrite sumZ_cons.
      match goal with
      | |- Some (?x, _, _) = Some (?y, _, _) => replace x with y by lia
      end.
      reflexivity. }
    split.
    { rewrite Htrips', Htrips.
      rewrite (flat_map_ext_In _ (fun a => rounds a b (pending_count a before db)) rest)
        by (intros a' Hin; now rewrite (Hsame a' Hin)).
      cbn [flat_map]. rewrite rev_app_distr, <- app_assoc. reflexivity. }
    split; [exact Hf'|]. split.
    + intros a' [<-|Hin]; [|now apply Hp'].
      rewrite (Ho' a Ha). exact Hp1.
    + intros a' Hnin. rewrite Ho' by (intros Hin; apply Hnin; now right).
      apply Ho1. intros ->. apply Hnin. now left.
Qed.

Lemma pending_le_live action before db :
  (length (pending action before db) <= length (bucket_bandwidth_rollups db))%nat.
Proof. unfold pending. apply List.filter_length_le. Qed.

Lemma archive_actions_count fuel actions before b acc db :
  0 < b -> (length (bucket_bandwidth_rollups db) < fuel)%nat ->
  exists c e db',
    archive_actions fuel actions before b acc db = Some ((c, e), db')
    /\ c - acc = archived_rows db db' /\ c - acc = removed_rows db db'
    /\ 0 <= c - acc.
Proof.
  intros Hb. revert acc db.
  induction actions as [|a rest IH]; intros acc db Hfuel.
  - exists acc, None, db. unfold archived_rows, removed_rows. repeat split; lia.
  - cbn [archive_actions]. unfold archiveRollupsBeforeByAction.
    pose proof (pending_le_live a before db) as Hle.
    destruct (archive_loop_count fuel a before b 0 db Hb ltac:(lia))
      as (c1 & e1 & db1 & Hrun & Hca & Hcr & Hpos & _).
    rewrite Hrun. destruct e1 as [e1|].
    + exists (acc + c1), (Some ErrStore), db1. repeat split; lia.
    + destruct (IH (acc + c1) db1) as (c & e & db' & Hrun' & Hca' & Hcr' & Hpos').
      { unfold removed_rows in Hcr. lia. }
      exists c, e, db'. split; [exact Hrun'|].
      unfold archived_rows, removed_rows in *. repeat split; lia.
Qed.

(** *** Runs on a connection that serves [k] more statements *)

Lemma sumZ_app l1 l2 : sumZ (l1 ++ l2) = sumZ l1 + sumZ l2.
Proof. induction l1 as [|x l1 IH]; simpl; [reflexivity|]. unfold sumZ in *. simpl. lia. Qed.

Lemma rounds_sum action b m :
  0 < b -> 0 <= m -> sumZ (map snd (rounds action b m)) = m.
Proof.
  intros Hb Hm. unfold rounds. rewrite map_app, sumZ_app.
  assert (Hrep : forall n, sumZ (map snd (replicate n (Some action, b)))
                           = Z.of_nat n * b).
  { induction n as [|n IH]; [reflexivity|].
    cbn [replicate map]. rewrite sumZ_cons, IH. cbn [snd]. lia. }
  rewrite Hrep. cbn [map snd]. rewrite sumZ_cons. cbn [sumZ fold_right].
  assert (0 <= m / b) by (apply Z.div_pos; lia).
  rewrite Z2Nat.id by lia.
  pose proof (Z.div_mod m b ltac:(lia)). lia.
Qed.

(** The loop of one action: the rounds the connection serves are those of
    a run that does not fail, the count is what they moved, and the error
    is returned when the connection fails before the last of them. *)
Lemma archive_loop_served fuel action before b acc db k :
  fault db = Some k -> 0 < b ->
  (length (pending action before db) < fuel)%nat ->
  let trips := rounds action b (pending_count action before db) in
  exists db',
    archive_loop fuel action before b acc db =
      Some ((acc + sumZ (map snd (take k trips)),
             if (length trips <=? k)%nat then None else Some ErrStore), db')
    /\ round_trips db' = rev (take k trips) ++ round_trips db
    /\ fault db' = Some (k - length trips)%nat
    /\ (forall a', a' <> action -> pending a' before db' = pending a' before db).
Proof.
  revert acc db k.
  induction fuel as [|fuel IH]; intros acc db k Hf Hb Hfuel trips; [lia|].
  assert (Hm0 : 0 <= pending_count action before db)
    by (unfold pending_count; lia).
  cbn [archive_loop]. destruct k as [|j].
  { rewrite (archive_statement_fails _ _ _ db Hf).
    exists db. rewrite take_0. cbn [map rev app].
    assert (Hlen : (length trips <=? 0)%nat = false).
    { apply Nat.leb_gt. unfold trips, rounds. rewrite length_app. simpl. lia. }
    rewrite Hlen. replace (acc + sumZ []) with acc by (cbn; lia).
    split; [reflexivity|]. split; [reflexivity|]. split; [exact Hf|].
    reflexivity. }
  rewrite archive_statement_runs by (rewrite Hf; discriminate).
  cbn [option_map]. rewrite Hf. cbn [option_map Nat.pred].
  destruct (round_moves action before b db Hb) as (Hmoved & Hrest & Hcount).
  set (split := take_matching (to_archive (Some action) before)
                  (Some (Z.to_nat b)) (bucket_bandwidth_rollups db)) in *.
  set (db1 := mkSatelliteDB _ _ _ _ _ _ _).
  assert (Hothers : forall a', a' <> action ->
            pending a' before db1 = pending a' before db).
  { intros a' Hne. unfold pending, db1. simpl. apply take_matching_others.
    intros x Hx. simpl in *. apply andb_true_iff in Hx as [Ha _].
    apply Z.eqb_eq in Ha. rewrite Ha.
    rewrite (proj2 (Z.eqb_neq action a')) by congruence. reflexivity. }
  assert (Hpend1 : pending action before db1 =
                   drop (Z.to_nat b) (pending action before db)) by exact Hrest.
  rewrite Hcount.
  destruct (Z.min b (pending_count action before db) <? b) eqn:Elt.
  - apply Z.ltb_lt in Elt.
    assert (Hm : 0 <= pending_count action before db < b) by lia.
    exists db1. rewrite Z.min_r by lia.
    unfold trips. rewrite (rounds_last action b _ Hm).
    cbn [length take map snd rev app Nat.leb Nat.sub].
    rewrite take_nil. cbn [map rev app].
    replace (sumZ [pending_count action before db])
      with (pending_count action before db) by (cbn; lia).
    split; [reflexivity|]. split.
    { unfold db1. cbn [round_trips]. rewrite Hcount, Z.min_r by lia.
      reflexivity. }
    split; [unfold db1; cbn [fault]; f_equal; lia|exact Hothers].
  - apply Z.ltb_ge in Elt.
    assert (Hm : b <= pending_count action before db) by lia.
    assert (Hlen1 : pending_count action before db1 =
                    pending_count action before db - b).
    { unfold pending_count in *. rewrite Hpend1, length_drop. lia. }
    destruct (IH (acc + Z.min b (pending_count action before db)) db1 j
                eq_refl Hb) as (db' & Hrun & Htrips & Hf' & Ho').
    { rewrite Hpend1, length_drop. unfold pending_count in Hm. lia. }
    exists db'. rewrite Hrun, Hlen1.
    unfold trips.
    rewrite (rounds_step action b (pending_count action before db)) by lia.
    cbn [length take map snd Nat.leb Nat.sub].
    rewrite sumZ_cons, Z.min_l by lia.
    split.
    { match goal with
      | |- Some (?x, _, _) = Some (?y, _, _) => replace x with y by lia
      end.
      reflexivity. }
    split.
    { rewrite Htrips, Hlen1. unfold db1 at 1. cbn [round_trips].
      rewrite Hcount, Z.min_l by lia.
      cbn [rev]. now rewrite <- app_assoc. }
    split; [now rewrite Hf', Hlen1|].
    intros a' Hne. now rewrite (Ho' a' Hne), (Hothers a' Hne).
Qed.

Lemma archive_actions_served fuel actions before b acc db k :
  fault db = Some k -> 0 < b -> List.NoDup actions ->
  (forall a, In a actions -> (length (pending a before db) < fuel)%nat) ->
  let trips :=
    flat_map (fun a => rounds a b (pending_count a before db)) actions in
  exists db',
    archive_actions fuel actions before b acc db =
      Some ((acc + sumZ (map snd (take k trips)),
             if (length trips <=? k)%nat then None else Some ErrStore), db')
    /\ round_trips db' = rev (take k trips) ++ round_trips db.
Proof.
  intros Hf Hb. revert acc db k Hf.
  induction actions as [|a rest IH]; intros acc db k Hf Hnd Hfuel trips.
  - exists db. unfold trips. cbn [flat_map]. rewrite take_nil.
    cbn [archive_actions map rev app length Nat.leb].
    replace (acc + sumZ []) with acc by (cbn; lia). now split.
  - inversion Hnd as [|? ? Ha Hnd']; subst.
    cbn [archive_actions]. unfold archiveRollupsBeforeByAction.
    destruct (archive_loop_served fuel a before b 0 db k Hf Hb)
      as (db1 & Hrun & Htrips & Hf1 & Ho1).
    { apply Hfuel. now left. }
    rewrite Hrun. clear Hrun.
    set (first := rounds a b (pending_count a before db)) in *.
    assert (Hne : forall a', In a' rest -> a' <> a)
      by (intros a' Hin ->; contradiction).
    assert (Hsame : forall a', In a' rest ->
              pending_count a' before db1 = pending_count a' before db).
    { intros a' Hin. unfold pending_count. now rewrite (Ho1 a' (Hne a' Hin)). }
    unfold trips. cbn [flat_map]. fold first.
    set (others := flat_map (fun a => rounds a b (pending_count a before db))
                     rest).
    rewrite length_app.
    destruct (length first <=? k)%nat eqn:E.
    + apply Nat.leb_le in E.
      destruct (IH (acc + (0 + sumZ (map snd (take k first)))) db1
                  (k - length first)%nat Hf1 Hnd')
        as (db' & Hrun' & Htrips').
      { intros a' Hin. rewrite (Ho1 a' (Hne a' Hin)). apply Hfuel. now right. }
      rewrite (flat_map_ext_In _ (fun a => rounds a b (pending_count a before db))
                 rest) in Hrun', Htrips'
        by (intros a' Hin; now rewrite (Hsame a' Hin)).
      fold others in Hrun', Htrips'.
      exists db'. rewrite Hrun'.
      rewrite take_ge in * by lia.
      rewrite take_app_ge by lia. rewrite map_app, sumZ_app.
      assert (Eb : (length first + length others <=? k)%nat
                   = (length others <=? k - length first)%nat).
      { destruct (length others <=? k - length first)%nat eqn:E2.
        - apply Nat.leb_le in E2. apply Nat.leb_le. lia.
        - apply Nat.leb_gt in E2. apply Nat.leb_gt. lia. }
      rewrite Eb. split.
      { match goal with
        | |- Some (?x, _, _) = Some (?y, _, _) => replace x with y by lia
        end.
        reflexivity. }
      rewrite Htrips', Htrips, rev_app_distr, <- app_assoc. reflexivity.
    + apply Nat.leb_gt in E.
      exists db1.
      assert (Eb : (length first + length others <=? k)%nat = false)
        by (apply Nat.leb_gt; lia).
      rewrite Eb, take_app_le by lia.
      split; [|exact Htrips].
      match goal with
      | |- Some (?x, _, _) = Some (?y, _, _) => replace x with y by lia
      end.
      reflexivity.
Qed.

Lemma trips_since_app db0 db new :
  round_trips db = rev new ++ round_trips db0 -> trips_since db0 db = new.
Proof.
  intros H. unfold trips_since. rewrite H, length_app.
  replace (length (rev new) + length (round_trips db0) - length (round_trips db0))%nat
    with (length (rev new)) by lia.
  rewrite take_app_length. apply rev_involutive.
Qed.

(** C5: [ArchiveRollupsBefore] returns 0 and leaves the tables alone when
    the batch size is not positive.  On the batched dialect, with a
    connection that does not fail, it runs the actions one after the
    other, each with rounds of exactly [batchSize] rows followed by one
    round of fewer rows, which ends the loop of that action; the count is
    the number of rows the actions had to give up, and none of them is
    left.  On every run that is given enough rounds, also one that a
    failing statement ends, the count returned is the number of rows that
    have gone from the live table to the archive; a statement that fails
    ends the loop of its action at once, with the count so far and the
    error.  On the batched dialect with a connection that serves [k] more
    statements and then fails, the rounds executed are the first [k]
    rounds of the run that does not fail, the count returned is the number
    of rows these rounds moved, and the error is returned with it unless
    [k] rounds are all there is to do: the actions after the one that
    failed are not run. *)
Theorem archive_rollups_before :
  (forall fuel actions before batchSize db,
     batchSize <= 0 ->
     ArchiveRollupsBefore fuel actions before batchSize db = Some ((0, None), db))
  /\ (forall fuel actions before batchSize db,
        0 < batchSize -> impl db = Cockroach -> fault db = None ->
        List.NoDup actions ->
        (length (bucket_bandwidth_rollups db) < fuel)%nat ->
        exists db',
          ArchiveRollupsBefore fuel actions before batchSize db =
            Some ((sumZ (map (fun a => pending_count a before db) actions), None),
                  db')
          /\ trips_since db db' =
               flat_map (fun a => rounds a batchSize (pending_count a before db))
                 actions
          /\ (forall a, In a actions -> pending a before db' = []))
  /\ (forall action batchSize m,
        0 < batchSize -> 0 <= m ->
        exists k r,
          rounds action batchSize m =
            replicate k (Some action, batchSize) ++ [(Some action, r)]
          /\ 0 <= r < batchSize /\ Z.of_nat k * batchSize + r = m)
  /\ (forall fuel actions before batchSize db,
        (length (bucket_bandwidth_rollups db) < fuel)%nat ->
        exists c e db',
          ArchiveRollupsBefore fuel actions before batchSize db = Some ((c, e), db')
          /\ c = archived_rows db db' /\ c = removed_rows db db')
  /\ (forall fuel action before batchSize archivedCount db,
        fault db = Some O ->
        archive_loop (S fuel) action before batchSize archivedCount db =
          Some ((archivedCount, Some ErrStore), db))
  /\ (forall fuel actions before batchSize db k,
        0 < batchSize -> impl db = Cockroach -> fault db = Some k ->
        List.NoDup actions ->
        (length (bucket_bandwidth_rollups db) < fuel)%nat ->
        let trips :=
          flat_map (fun a => rounds a batchSize (pending_count a before db))
            actions in
        exists db',
          ArchiveRollupsBefore fuel actions before batchSize db =
            Some ((sumZ (map snd (take k trips)),
                   if (length trips <=? k)%nat then None else Some ErrStore),
                  db')
          /\ trips_since db db' = take k trips).
Proof.
  split; [|split; [|split; [|split; [|split]]]].
  - intros fuel actions before b db Hb. unfold ArchiveRollupsBefore.
    now rewrite (proj2 (Z.leb_le b 0) Hb).
  - intros fuel actions before b db Hb Hi Hf Hnd Hfuel.
    unfold ArchiveRollupsBefore.
    rewrite (proj2 (Z.leb_gt b 0)) by lia. rewrite Hi.
    destruct (archive_actions_healthy fuel actions before b 0 db Hf Hb Hnd)
      as (db' & Hrun & Htrips & _ & Hp & _).
    { intros a _. pose proof (pending_le_live a before db). lia. }
    exists db'. rewrite Hrun. split; [reflexivity|].
    split; [now apply trips_since_app|exact Hp].
  - intros action b m Hb Hm. exists (Z.to_nat (m / b)), (m mod b).
    split; [reflexivity|].
    pose proof (Z.mod_pos_bound m b Hb). pose proof (Z.div_mod m b ltac:(lia)).
    assert (0 <= m / b) by (apply Z.div_pos; lia).
    rewrite Z2Nat.id by lia. split; lia.
  - intros fuel actions before b db Hfuel. unfold ArchiveRollupsBefore.
    destruct (b <=? 0) eqn:Eb.
    { exists 0, None, db. unfold archived_rows, removed_rows. repeat split; lia. }
    apply Z.leb_gt in Eb. destruct (impl db).
    + destruct (option_eq_dec (fault db) (Some O)) as [Hf|Hf].
      * rewrite (archive_statement_fails _ _ _ db Hf).
        exists 0, (Some ErrStore), db. unfold archived_rows, removed_rows.
        repeat split; lia.
      * rewrite (archive_statement_runs _ _ _ db Hf).
        pose proof (take_matching_length (to_archive None before) None
                      (bucket_bandwidth_rollups db)) as Hlen.
        cbn [option_map]. eexists _, None, _. split; [reflexivity|].
        unfold archived_rows, removed_rows. simpl. rewrite length_app.
        split; lia.
    + destruct (archive_actions_count fuel actions before b 0 db Eb Hfuel)
        as (c & e & db' & Hrun & Hca & Hcr & _).
      exists c, e, db'. split; [exact Hrun|]. split; lia.
    + exists 0, None, db. unfold archived_rows, removed_rows. repeat split; lia.
  - intros fuel action before b acc db Hf. cbn [archive_loop].
    now rewrite (archive_statement_fails _ _ _ db Hf).
  - intros fuel actions before b db k Hb Hi Hf Hnd Hfuel trips.
    unfold ArchiveRollupsBefore.
    rewrite (proj2 (Z.leb_gt b 0)) by lia. rewrite Hi.
    destruct (archive_actions_served fuel actions before b 0 db k Hf Hb Hnd)
      as (db' & Hrun & Htrips).
    { intros a _. pose proof (pending_le_live a before db). lia. }
    exists db'. rewrite Hrun. split; [reflexivity|].
    now apply trips_since_app.
Qed.

(** Five GET rows and one PUT row in batches of two: rounds of 2, 2 and 1
    rows, then a round of 1 row.  On a connection that serves one
    statement: one round of 2 rows, and the count 2 with the error. *)
Lemma archive_rollups_before_witness :
  (exists db',
     ArchiveRollupsBefore 7 [2; 1] 0 2 (db_rollups None) = Some ((6, None), db')
     /\ trips_since (db_rollups None) db' =
          [(Some 2, 2); (Some 2, 2); (Some 2, 1); (Some 1, 1)]
     /\ (forall a, In a [2; 1] -> pending a 0 db' = []))
  /\ (exists db',
        ArchiveRollupsBefore 7 [2; 1] 0 2 (db_rollups (Some 1%nat))
        = Some ((2, Some ErrStore), db')
        /\ trips_since (db_rollups (Some 1%nat)) db' = [(Some 2, 2)]).
Proof.
  assert (Hnd : List.NoDup [2; 1]).
  { constructor; [intros [H|[]]; discriminate H|].
    constructor; [intros []|constructor]. }
  split.
  - apply (proj1 (proj2 archive_rollups_before) 7%nat [2; 1] 0 2
             (db_rollups None));
      [reflexivity|reflexivity|reflexivity|exact Hnd|by_compute].
  - apply (proj2 (proj2 (proj2 (proj2 (proj2 archive_rollups_before))))
             7%nat [2; 1] 0 2 (db_rollups (Some 1%nat)) 1%nat);
      [reflexivity|reflexivity|reflexivity|exact Hnd|by_compute].
Defined.

(** The second statement fails: the two rows of the first round are in the
    archive, and the call returns 2 with the error. *)
Example archive_partial_count :
  match ArchiveRollupsBefore 7 [2; 1] 0 2 (db_rollups (Some 1%nat)) with
  | Some ((c, e), db') =>
      c = 2 /\ e = Some ErrStore
      /\ bucket_bandwidth_rollup_archives db' = [rollup_of 2 1; rollup_of 2 3]
      /\ length (bucket_bandwidth_rollups db') = 4%nat
  | None => False
  end.
Proof. vm_compute. repeat split. Qed.

(** *** Runs on a connection that does not fail *)

Lemma insert_name_perm n l : Permutation (insert_name n l) (n :: l).
Proof.
  induction l as [|x l IH]; simpl; [reflexivity|].
  destruct (bytes_leb n x); [reflexivity|].
  rewrite IH. apply perm_swap.
Qed.

Lemma order_names_perm l : Permutation (order_names l) l.
Proof.
  induction l as [|n l IH]; simpl; [reflexivity|].
  rewrite insert_name_perm. now constructor.
Qed.

Lemma sorted_matching_length projectID prefix db :
  Z.of_nat (length (sorted_matching projectID prefix db))
  = total_matching projectID prefix db.
Proof.
  unfold sorted_matching, total_matching.
  now rewrite (Permutation_length (order_names_perm _)).
Qed.

Lemma mapM_Forall2 {A B} (f : A -> M B) l db :
  (forall x, exists y, f x db = (Ok y, db)) ->
  exists ys, mapM f l db = (Ok ys, db)
             /\ Forall2 (fun x y => f x db = (Ok y, db)) l ys.
Proof.
  intros Hf. induction l as [|x l IH].
  - exists []. split; [reflexivity|constructor].
  - destruct (Hf x) as [y Hy]. destruct IH as (ys & Hys & Hall).
    exists (y :: ys). simpl.
    rewrite (bind_healthy _ _ db y Hy),
            (bind_healthy _ _ db ys Hys).
    split; [reflexivity|now constructor].
Qed.

Lemma mapM_Ok_Forall2 {A B} (f : A -> M B) l db ys :
  (forall x, snd (f x db) = db) ->
  fst (mapM f l db) = Ok ys ->
  Forall2 (fun x y => f x db = (Ok y, db)) l ys.
Proof.
  intros Hs. revert ys. induction l as [|x l IH]; intros ys H.
  - simpl in H. injection H as <-. constructor.
  - cbn [mapM] in H. unfold bind in H at 1.
    pose proof (Hs x) as Hx.
    destruct (f x db) as [[y|e|] db1] eqn:E; simpl in Hx; subst db1;
      try discriminate H.
    unfold bind in H. pose proof (mapM_settles f l db Hs) as Hl.
    destruct (mapM f l db) as [[zs|e|] db2] eqn:E2; simpl in Hl; subst db2;
      try discriminate H.
    simpl in H. injection H as <-. constructor; [exact E|now apply IH].
Qed.

(** Sums over a part of the rollups are within the sum of the absolute
    values over all of them. *)
Lemma sum_part_bound (g : RollupRow -> Z) (P : RollupRow -> bool) l :
  (forall r, Z.abs (g r) <= Z.abs (bw_settled r) + Z.abs (bw_inline r)) ->
  Z.abs (sumZ (map g (List.filter P l)))
  <= sumZ (map (fun r => Z.abs (bw_settled r) + Z.abs (bw_inline r)) l).
Proof.
  intros Hg. induction l as [|x l IH]; [simpl; lia|].
  cbn [List.filter]. pose proof (Hg x) as Hx.
  assert (Hc : forall (h : RollupRow -> Z) y ys,
             sumZ (map h (y :: ys)) = h y + sumZ (map h ys)) by reflexivity.
  rewrite (Hc _ x l).
  destruct (P x); [rewrite Hc|]; lia.
Qed.

Lemma bandwidth_fits_total db (P : RollupRow -> bool) :
  bandwidth_fits db ->
  int64_range (sumZ (map (fun r => bw_settled r + bw_inline r)
                       (List.filter P (bucket_bandwidth_rollups db)))).
Proof.
  intros H. unfold bandwidth_fits in H.
  pose proof (sum_part_bound (fun r => bw_settled r + bw_inline r) P
                (bucket_bandwidth_rollups db) ltac:(intros r; cbv beta; lia)) as Hb.
  cbv beta in Hb. unfold int64_range.
  change (2 ^ 63) with 9223372036854775808 in *. lia.
Qed.

Lemma bandwidth_fits_settled db (P : RollupRow -> bool) :
  bandwidth_fits db ->
  int64_range (sumZ (map bw_settled (List.filter P (bucket_bandwidth_rollups db)))).
Proof.
  intros H. unfold bandwidth_fits in H.
  pose proof (sum_part_bound bw_settled P (bucket_bandwidth_rollups db)
                ltac:(intros r; cbv beta; lia)) as Hb.
  cbv beta in Hb. unfold int64_range.
  change (2 ^ 63) with 9223372036854775808 in *. lia.
Qed.

Lemma bandwidth_fits_inline db (P : RollupRow -> bool) :
  bandwidth_fits db ->
  int64_range (sumZ (map bw_inline (List.filter P (bucket_bandwidth_rollups db)))).
Proof.
  intros H. unfold bandwidth_fits in H.
  pose proof (sum_part_bound bw_inline P (bucket_bandwidth_rollups db)
                ltac:(intros r; cbv beta; lia)) as Hb.
  cbv beta in Hb. unfold int64_range.
  change (2 ^ 63) with 9223372036854775808 in *. lia.
Qed.

(** Two rollups of 2^62 bytes are more than [bandwidth_fits] admits. *)
Example egress_scan_overflows :
  bandwidth_fits db_heavy -> False.
Proof. vm_compute. discriminate. Qed.

(** Their sum of 2^63 does not fit the [int64] it is scanned into: the
    three reads fail, on a connection that does not. *)
Example egress_scan_fails :
  fst (GetProjectTotal (fun m => m) 1 (in_utc 0) Hour db_heavy) = Err ErrStore
  /\ fst (GetBucketUsageRollups 1 (in_utc 0) Hour db_heavy) = Err ErrStore
  /\ fst (GetBucketTotals 1 (mkCursor [] 2 1) (in_utc 0) Hour db_heavy)
     = Err ErrStore.
Proof. vm_compute. repeat split. Qed.

(** One entry of a page on a connection that does not fail. *)
Lemma bucket_usage_run projectID since before bucket db :
  fault db = None ->
  let egress :=
    sumZ (map (fun r => bw_settled r + bw_inline r)
            (List.filter
               (fun r => rollup_selected projectID (at_instant since) before
                           PieceAction_GET r
                         && bytes_eqb (bw_bucket_name r) bucket)
               (bucket_bandwidth_rollups db))) in
  exists u,
    bucket_usage projectID since before bucket db
    = (if (- 2^63 <=? egress) && (egress <? 2^63) then Ok u else Err ErrStore,
       db)
    /\ bu_ProjectID u = projectID /\ bu_BucketName u = bucket
    /\ bu_Since u = since /\ bu_Before u = before
    /\ bu_Egress u = Size_GB egress
    /\ match storage_rows projectID bucket (at_instant since) before db with
       | newest :: _ =>
           bu_ObjectCount u = tally_object_count newest
           /\ bu_Storage u
              = Size_GB (if total_bytes newest =? 0
                         then wrap64 (tally_inline newest + tally_remote newest)
                         else total_bytes newest)
       | [] => bu_ObjectCount u = 0 /\ bu_Storage u = Size_GB 0
       end.
Proof.
  intros H egress.
  exists (let '(total, inline, remote, objects) :=
            latest_tally projectID bucket (at_instant since) before db in
          mkBucketUsage projectID bucket
            (Size_GB (if total =? 0 then wrap64 (inline + remote) else total))
            (Size_GB egress) objects since before).
  split.
  - unfold bucket_usage.
    rewrite (bind_healthy _ _ db _ (query_healthy _ db H)).
    rewrite sumZ_split. fold egress.
    unfold bind at 1. rewrite scan_int64_cases.
    destruct ((- 2^63 <=? egress) && (egress <? 2^63)); [|reflexivity].
    rewrite (bind_healthy _ _ db _ (query_healthy _ db H)).
    now destruct (latest_tally _ _ _ _ _) as [[[total inline] remote] objects].
  - unfold latest_tally.
    destruct (storage_rows projectID bucket (at_instant since) before db)
      as [|newest rest]; now repeat split.
Qed.

(** The entries of a page that is returned, with the names they were
    computed for. *)
Lemma GetBucketTotals_entries projectID cursor since before db page :
  fault db = None -> impl db <> OtherImpl ->
  fst (GetBucketTotals projectID cursor since before db) = Ok page ->
  Limit page = capped cursor
  /\ Offset page = wrapU64 (wrapU64 (cur_Page cursor - 1) * capped cursor)
  /\ TotalCount page = total_matching projectID (cur_Search cursor) db
  /\ Forall2
       (fun b u => bucket_usage projectID (timeTruncateDown since) before b db
                   = (Ok u, db))
       (take (Z.to_nat (Limit page))
          (drop (Z.to_nat (Offset page))
             (sorted_matching projectID (cur_Search cursor) db)))
       (BucketUsages page).
Proof.
  intros Hf Hi Hr.
  assert (Hp : cur_Page cursor <> 0).
  { intros H0. unfold GetBucketTotals in Hr. rewrite H0 in Hr. discriminate Hr. }
  rewrite (GetBucketTotals_healthy projectID cursor since before db Hf Hi Hp) in Hr.
  cbn [fst] in Hr.
  destruct (total_matching projectID (cur_Search cursor) db =? 0) eqn:E0.
  - injection Hr as <-. cbn [Limit Offset TotalCount BucketUsages].
    apply Z.eqb_eq in E0. split; [reflexivity|]. split; [reflexivity|].
    split; [now rewrite E0|].
    rewrite <- sorted_matching_length in E0.
    destruct (sorted_matching projectID (cur_Search cursor) db);
      [|simpl in E0; lia].
    rewrite drop_nil, take_nil. constructor.
  - destruct (_ <? _); [discriminate Hr|].
    destruct (fst (mapM _ _ db)) as [us|e|] eqn:E; try discriminate Hr.
    destruct (capped cursor =? 0); [discriminate Hr|].
    injection Hr as <-. cbn [Limit Offset TotalCount BucketUsages].
    repeat split.
    apply mapM_Ok_Forall2; [|exact E].
    intros b. now apply bucket_usage_settles.
Qed.

Lemma bucket_usage_fits projectID since before bucket db :
  fault db = None -> bandwidth_fits db ->
  exists u, bucket_usage projectID since before bucket db = (Ok u, db).
Proof.
  intros Hf Hb.
  destruct (bucket_usage_run projectID since before bucket db Hf)
    as (u & Hu & _).
  exists u. rewrite Hu.
  pose proof (bandwidth_fits_total db
                (fun r => rollup_selected projectID (at_instant since) before
                            PieceAction_GET r
                          && bytes_eqb (bw_bucket_name r) bucket) Hb) as [H1 H2].
  apply Z.leb_le in H1. apply Z.ltb_lt in H2. now rewrite H1, H2.
Qed.

Lemma Forall2_names projectID since before db names usages :
  Forall2 (fun b u => bucket_usage projectID since before b db = (Ok u, db))
    names usages ->
  fault db = None ->
  map bu_BucketName usages = names
  /\ Forall (fun u => bu_ProjectID u = projectID /\ bu_Since u = since
                      /\ bu_Before u = before) usages.
Proof.
  intros Hall Hf. induction Hall as [|b u names usages Hu _ [IH1 IH2]].
  - split; [reflexivity|constructor].
  - destruct (bucket_usage_run projectID since before b db Hf)
      as (u' & Hu' & Hp & Hn & Hs & Hb & _).
    rewrite Hu in Hu'. destruct (_ && _); [|discriminate Hu'].
    assert (u' = u) by congruence. subst u'.
    split; [simpl; now rewrite Hn, IH1|].
    constructor; [now repeat split|exact IH2].
Qed.

(** *** GetBucketUsageRollups on a connection that does not fail *)

Lemma filter_and {A} (Q P : A -> bool) l :
  List.filter Q (List.filter P l) = List.filter (fun x => P x && Q x) l.
Proof.
  induction l as [|x l IH]; [reflexivity|]. simpl.
  destruct (P x); simpl; [destruct (Q x)|]; now rewrite ?IH.
Qed.

Lemma rollups_by_action_fit projectID bucket since before db :
  bandwidth_fits db ->
  Forall (fun row => int64_range (fst (fst row)) /\ int64_range (snd (fst row)))
    (rollups_by_action projectID bucket since before db).
Proof.
  intros Hb. unfold rollups_by_action. apply List.Forall_forall. intros row Hin.
  apply in_map_iff in Hin as (a & <- & _). cbn [fst snd].
  rewrite filter_and.
  split; [apply bandwidth_fits_settled|apply bandwidth_fits_inline]; exact Hb.
Qed.

Lemma scan_egress_fits rows r db :
  Forall (fun row => int64_range (fst (fst row)) /\ int64_range (snd (fst row)))
    rows ->
  scan_egress rows r db = (Ok (fold_left fill_egress rows r), db).
Proof.
  intros H. revert r.
  induction H as [|[[settled inline] action] rows [H1 H2] _ IH]; intros r;
    [reflexivity|].
  cbn [scan_egress fold_left]. cbn [fst snd] in H1, H2.
  rewrite (bind_healthy _ _ db _ (scan_int64_fits settled db H1)).
  rewrite (bind_healthy _ _ db _ (scan_int64_fits inline db H2)).
  apply IH.
Qed.

Lemma fold_egress_keeps rows r :
  let r' := fold_left fill_egress rows r in
  bur_ProjectID r' = bur_ProjectID r /\ bur_BucketName r' = bur_BucketName r
  /\ TotalStoredData r' = TotalStoredData r /\ TotalSegments r' = TotalSegments r
  /\ bur_ObjectCount r' = bur_ObjectCount r /\ MetadataSize r' = MetadataSize r
  /\ bur_Since r' = bur_Since r /\ bur_Before r' = bur_Before r.
Proof.
  revert r. induction rows as [|[[settled inline] action] rows IH]; intros r.
  - now repeat split.
  - cbn [fold_left]. cbv zeta in IH |- *.
    destruct (IH (fill_egress r (settled, inline, action)))
      as (H1 & H2 & H3 & H4 & H5 & H6 & H7 & H8).
    rewrite H1, H2, H3, H4, H5, H6, H7, H8. unfold fill_egress.
    destruct (action =? PieceAction_GET); [now repeat split|].
    destruct (action =? PieceAction_GET_AUDIT); [now repeat split|].
    destruct (action =? PieceAction_GET_REPAIR); now repeat split.
Qed.

Lemma fold_egress_sums rows r :
  let step action acc (row : Z * Z * Z) :=
    if snd row =? action
    then acc [+] Size_GB (wrap64 (fst (fst row) + snd (fst row)))
    else acc in
  let r' := fold_left fill_egress rows r in
  GetEgress r' = fold_left (step PieceAction_GET) rows (GetEgress r)
  /\ AuditEgress r' = fold_left (step PieceAction_GET_AUDIT) rows (AuditEgress r)
  /\ RepairEgress r'
     = fold_left (step PieceAction_GET_REPAIR) rows (RepairEgress r).
Proof.
  cbv zeta. revert r.
  induction rows as [|[[settled inline] action] rows IH]; intros r.
  - now repeat split.
  - cbn [fold_left]. destruct (IH (fill_egress r (settled, inline, action)))
      as (H1 & H2 & H3).
    rewrite H1, H2, H3. cbn [fst snd]. unfold fill_egress.
    destruct (action =? PieceAction_GET) eqn:E1.
    { apply Z.eqb_eq in E1. subst action. now repeat split. }
    destruct (action =? PieceAction_GET_AUDIT) eqn:E2.
    { apply Z.eqb_eq in E2. subst action. now repeat split. }
    destruct (action =? PieceAction_GET_REPAIR) eqn:E3; now repeat split.
Qed.

(** The storage loop of one bucket adds the interval-weighted counters of
    its tallies, oldest first. *)
Lemma fill_storage_weighted rows i r :
  (i < length rows)%nat ->
  exists r',
    fill_storage rows i r = Some r'
    /\ bur_ProjectID r' = bur_ProjectID r /\ bur_BucketName r' = bur_BucketName r
    /\ bur_Since r' = bur_Since r /\ bur_Before r' = bur_Before r
    /\ RepairEgress r' = RepairEgress r /\ GetEgress r' = GetEgress r
    /\ AuditEgress r' = AuditEgress r
    /\ TotalStoredData r'
       = weighted tally_interval_start
           (fun c => Size_GB (rollup_stored_bytes c)) (take (S i) rows)
           (TotalStoredData r)
    /\ TotalSegments r'
       = weighted tally_interval_start
           (fun c => float64_of_Z (rollup_segments c)) (take (S i) rows)
           (TotalSegments r)
    /\ bur_ObjectCount r'
       = weighted tally_interval_start
           (fun c => float64_of_Z (tally_object_count c)) (take (S i) rows)
           (bur_ObjectCount r)
    /\ MetadataSize r'
       = weighted tally_interval_start
           (fun c => Size_GB (wrap64 (tally_metadata_size c))) (take (S i) rows)
           (MetadataSize r).
Proof.
  intros Hi. revert r. induction i as [|j IH]; intros r.
  - exists r. destruct rows as [|x l]; [simpl in Hi; lia|]. now repeat split.
  - destruct (lookup_lt_is_Some_2 rows (S j) Hi) as [current Hc].
    destruct (lookup_lt_is_Some_2 rows j ltac:(lia)) as [newer Hn].
    cbn [fill_storage]. rewrite Hc, Hn.
    match goal with
    | |- context [fill_storage rows j ?u] =>
        destruct (IH ltac:(lia) u)
          as (r' & Hrun & H1 & H2 & H3 & H4 & H5 & H6 & H7 & H8 & H9 & H10 & H11)
    end.
    exists r'. split; [exact Hrun|].
    rewrite (take_S_r rows (S j) _ Hc), (take_S_r rows j _ Hn).
    rewrite <- app_assoc. simpl app. rewrite !weighted_snoc.
    rewrite (take_S_r rows j _ Hn) in H8, H9, H10, H11.
    do 7 (split; [assumption|]).
    split; [exact H8|]. split; [exact H9|]. split; [exact H10|exact H11].
Qed.

(** One bucket of [GetBucketUsageRollups]. *)
Lemma bucket_usage_rollup_run projectID since before bucket db :
  fault db = None -> bandwidth_fits db ->
  let rows := storage_rows projectID bucket (at_instant since) before db in
  let groups := rollups_by_action projectID bucket (at_instant since) before db in
  exists r,
    bucket_usage_rollup projectID since before bucket db = (Ok r, db)
    /\ bur_ProjectID r = projectID /\ bur_BucketName r = bucket
    /\ bur_Since r = since /\ bur_Before r = before
    /\ TotalStoredData r
       = weighted tally_interval_start
           (fun c => Size_GB (rollup_stored_bytes c)) rows PrimFloat.zero
    /\ TotalSegments r
       = weighted tally_interval_start
           (fun c => float64_of_Z (rollup_segments c)) rows PrimFloat.zero
    /\ bur_ObjectCount r
       = weighted tally_interval_start
           (fun c => float64_of_Z (tally_object_count c)) rows PrimFloat.zero
    /\ MetadataSize r
       = weighted tally_interval_start
           (fun c => Size_GB (wrap64 (tally_metadata_size c))) rows PrimFloat.zero
    /\ GetEgress r = egress_of PieceAction_GET groups
    /\ AuditEgress r = egress_of PieceAction_GET_AUDIT groups
    /\ RepairEgress r = egress_of PieceAction_GET_REPAIR groups.
Proof.
  intros Hf Hb rows groups. unfold bucket_usage_rollup.
  rewrite (bind_healthy _ _ db _ (query_healthy _ db Hf)).
  fold groups.
  rewrite (bind_healthy _ _ db _
             (scan_egress_fits groups _ db
                (rollups_by_action_fit projectID bucket (at_instant since)
                   before db Hb))).
  rewrite (bind_healthy _ _ db _ (query_healthy _ db Hf)).
  fold rows.
  set (r00 := mkBucketUsageRollup projectID bucket PrimFloat.zero PrimFloat.zero
                PrimFloat.zero PrimFloat.zero PrimFloat.zero PrimFloat.zero
                PrimFloat.zero since before).
  set (r0 := fold_left fill_egress groups r00).
  destruct (fold_egress_keeps groups r00)
    as (E1 & E2 & E3 & E4 & E5 & E6 & E7 & E8).
  destruct (fold_egress_sums groups r00) as (G1 & G2 & G3).
  fold r0 in E1, E2, E3, E4, E5, E6, E7, E8, G1, G2, G3.
  cbn [r00 bur_ProjectID bur_BucketName TotalStoredData TotalSegments
       bur_ObjectCount MetadataSize bur_Since bur_Before GetEgress AuditEgress
       RepairEgress] in E1, E2, E3, E4, E5, E6, E7, E8, G1, G2, G3.
  fold (egress_of PieceAction_GET groups) in G1.
  fold (egress_of PieceAction_GET_AUDIT groups) in G2.
  fold (egress_of PieceAction_GET_REPAIR groups) in G3.
  destruct rows as [|x l] eqn:E.
  - exists r0. split; [reflexivity|]. cbn [weighted].
    repeat split; assumption.
  - destruct (fill_storage_weighted (x :: l) (length (x :: l) - 1)%nat r0
                ltac:(simpl; lia))
      as (r' & Hrun & H1 & H2 & H3 & H4 & H5 & H6 & H7 & H8 & H9 & H10 & H11).
    rewrite Hrun. exists r'. split; [reflexivity|].
    rewrite take_ge in H8, H9, H10, H11 by (simpl; lia).
    rewrite E3 in H8. rewrite E4 in H9. rewrite E5 in H10. rewrite E6 in H11.
    repeat split; congruence.
Qed.

Lemma bucket_usage_rollup_settles projectID since before bucket db :
  fault db = None ->
  snd (bucket_usage_rollup projectID since before bucket db) = db.
Proof.
  intros Hf. unfold bucket_usage_rollup.
  rewrite (bind_healthy _ _ db _ (query_healthy _ db Hf)).
  unfold bind at 1.
  assert (Hs : forall rows r, snd (scan_egress rows r db) = db).
  { induction rows as [|[[settled inline] action] rows IH]; intros r;
      [reflexivity|].
    cbn [scan_egress]. unfold bind at 1. rewrite scan_int64_cases.
    destruct (_ && _); [|reflexivity].
    unfold bind at 1. rewrite scan_int64_cases.
    destruct (_ && _); [|reflexivity]. apply IH. }
  match goal with
  | |- context [scan_egress ?rows ?r db] =>
      pose proof (Hs rows r) as Hsr; destruct (scan_egress rows r db) as [[r1|e|] db1]
  end; simpl in Hsr; subst db1; try reflexivity.
  rewrite (bind_healthy _ _ db _ (query_healthy _ db Hf)).
  now destruct (fill_storage _ _ _).
Qed.

Lemma GetBucketUsageRollups_healthy projectID since before db :
  fault db = None -> bandwidth_fits db ->
  let lo := timeTruncateDown (Time_UTC since) in
  exists rollups,
    GetBucketUsageRollups projectID since before db = (Ok rollups, db)
    /\ Forall2
         (fun b r => bucket_usage_rollup projectID lo before b db = (Ok r, db))
         (window_buckets projectID (at_instant lo) before db) rollups.
Proof.
  intros Hf Hb lo.
  destruct (mapM_Forall2 (bucket_usage_rollup projectID lo before)
              (window_buckets projectID (at_instant lo) before db) db)
    as (rollups & Hmap & Hall).
  { intros b.
    destruct (bucket_usage_rollup_run projectID lo before b db Hf Hb)
      as (r & Hr & _). now exists r. }
  exists rollups. split; [|exact Hall].
  unfold GetBucketUsageRollups, getBucketsSinceAndBefore. fold lo.
  rewrite (bind_healthy _ _ db _ (query_healthy _ db Hf)).
  fold (window_buckets projectID (at_instant lo) before db). exact Hmap.
Qed.

Lemma Forall2_map_eq {A B} (f : B -> A) l1 l2 :
  Forall2 (fun a b => f b = a) l1 l2 -> map f l2 = l1.
Proof. induction 1 as [|a b l1 l2 Hab _ IH]; simpl; congruence. Qed.

Lemma Forall2_right {A B} (P : B -> Prop) (l1 : list A) l2 :
  Forall2 (fun _ b => P b) l1 l2 -> Forall P l2.
Proof. induction 1; now constructor. Qed.

(** *** The legacy columns *)

Lemma scan_storage_tally_effective bucket row :
  counters_in_range row ->
  scan_storage_tally bucket row = effective_tally bucket row.
Proof.
  intros (_ & _ & _ & Hs & _).
  unfold scan_storage_tally, effective_tally, effective_bytes, effective_value.
  destruct (counter_wrap _ Hs) as [Hw _]. now rewrite Hw.
Qed.

Lemma rollup_stored_bytes_effective row :
  counters_in_range row -> rollup_stored_bytes row = effective_bytes row.
Proof.
  intros (Hb & _ & _ & Hs & _).
  unfold rollup_stored_bytes, effective_bytes, effective_value.
  destruct (counter_wrap _ Hb) as [Hb1 _].
  destruct (counter_wrap _ Hs) as [Hs1 Hs2].
  unfold counter in Hb.
  destruct (0 <? total_bytes row) eqn:E.
  - apply Z.ltb_lt in E.
    destruct (total_bytes row =? 0) eqn:E0; [apply Z.eqb_eq in E0; lia|].
    exact Hb1.
  - apply Z.ltb_ge in E.
    assert (E0 : (total_bytes row =? 0) = true) by (apply Z.eqb_eq; lia).
    rewrite E0, (Z.add_comm (tally_remote row)), Hs2. exact Hs1.
Qed.

Lemma rollup_segments_effective row :
  counters_in_range row -> rollup_segments row = effective_segments row.
Proof.
  intros (_ & _ & _ & _ & Hc & _ & _ & Hs).
  unfold rollup_segments, effective_segments, effective_value.
  destruct (counter_wrap _ Hs) as [_ Hs2]. unfold counter in Hc.
  destruct (0 <? total_segments_count row) eqn:E.
  - apply Z.ltb_lt in E.
    destruct (total_segments_count row =? 0) eqn:E0;
      [apply Z.eqb_eq in E0; lia|reflexivity].
  - apply Z.ltb_ge in E.
    assert (E0 : (total_segments_count row =? 0) = true)
      by (apply Z.eqb_eq; lia).
    rewrite E0, (Z.add_comm (remote_segments_count row)). exact Hs2.
Qed.

Lemma tally_of_dbx_effective row :
  counters_in_range row ->
  bt_TotalBytes (tally_of_dbx row) = effective_bytes row
  /\ bt_TotalSegments (tally_of_dbx row) = effective_segments row.
Proof.
  intros (Hb & _ & _ & Hs & Hc & _ & _ & Hcs).
  unfold tally_of_dbx, effective_bytes, effective_segments, effective_value.
  cbn [bt_TotalBytes bt_TotalSegments].
  destruct (counter_wrap _ Hb) as [Hb1 _].
  destruct (counter_wrap _ Hs) as [Hs1 Hs2].
  destruct (counter_wrap _ Hc) as [Hc1 _].
  destruct (counter_wrap _ Hcs) as [Hcs1 Hcs2].
  split.
  - destruct (total_bytes row =? 0); [now rewrite Hs2|exact Hb1].
  - destruct (total_segments_count row =? 0); [now rewrite Hcs2|exact Hc1].
Qed.

(** C8: when the counters of the stored rows are non-negative and they,
    and the sums of the legacy columns, fit a signed 64-bit column, on a
    connection that does not fail and whose bandwidth sums fit the 64-bit
    integers they are scanned into, each of the four reads works with the
    effective values of the rows: the canonical column when it is not
    zero, else the sum of the two legacy columns.  [GetTallies] returns
    the effective total bytes and the effective segment count of every
    row; the storage of [GetProjectTotal] is the interval weighting of
    tallies that carry the effective bytes of the rows in its window; the
    stored data and the segments of each rollup of
    [GetBucketUsageRollups] are the interval weightings of the effective
    bytes, in GB, and of the effective segment counts of the rows of its
    bucket; the storage of each entry of a page of [GetBucketTotals] is
    the effective bytes, in GB, of the newest row of its bucket in the
    window.  [GetProjectTotal] and [GetBucketTotals] read no segment
    counts. *)
Theorem legacy_fallback order db projectID since before cursor :
  fault db = None -> bandwidth_fits db -> impl db <> OtherImpl ->
  Forall counters_in_range (bucket_storage_tallies db) ->
  let lo := at_instant (timeTruncateDown since) in
  let lo_utc := at_instant (timeTruncateDown (Time_UTC since)) in
  (exists tallies,
     fst (GetTallies db) = Ok tallies
     /\ Forall2
          (fun row t => bt_TotalBytes t = effective_bytes row
                        /\ bt_TotalSegments t = effective_segments row)
          (bucket_storage_tallies db) tallies)
  /\ (exists usage,
        fst (GetProjectTotal order projectID since before db) = Ok usage
        /\ Storage usage
           = weighted_buckets bst_IntervalStart tally_bytes
               (map snd
                  (order
                     (map (fun b =>
                             (b, map (effective_tally b)
                                   (storage_rows projectID b lo before db)))
                        (window_buckets projectID lo before db))))
               PrimFloat.zero)
  /\ (exists rollups,
        fst (GetBucketUsageRollups projectID since before db) = Ok rollups
        /\ map bur_BucketName rollups
           = window_buckets projectID lo_utc before db
        /\ Forall
             (fun r =>
                let rows :=
                  storage_rows projectID (bur_BucketName r) lo_utc before db in
                TotalStoredData r
                = weighted tally_interval_start
                    (fun c => Size_GB (effective_bytes c)) rows PrimFloat.zero
                /\ TotalSegments r
                   = weighted tally_interval_start
                       (fun c => float64_of_Z (effective_segments c)) rows
                       PrimFloat.zero)
             rollups)
  /\ (forall page,
        fst (GetBucketTotals projectID cursor since before db) = Ok page ->
        Forall
          (fun u =>
             match storage_rows projectID (bu_BucketName u) lo before db with
             | newest :: _ => bu_Storage u = Size_GB (effective_bytes newest)
             | [] => bu_Storage u = Size_GB 0
             end)
          (BucketUsages page))
  /\ (forall row,
        (total_bytes row = 0 ->
         effective_bytes row = tally_inline row + tally_remote row)
        /\ (total_bytes row <> 0 -> effective_bytes row = total_bytes row)
        /\ (total_segments_count row = 0 ->
            effective_segments row
            = inline_segments_count row + remote_segments_count row)
        /\ (total_segments_count row <> 0 ->
            effective_segments row = total_segments_count row)).
Proof.
  intros Hf Hb Hi Hrange lo lo_utc.
  assert (Hrows : forall b since', Forall counters_in_range
                    (storage_rows projectID b since' before db)).
  { intros b since'. rewrite List.Forall_forall in *. intros row Hin.
    apply Hrange. now apply storage_rows_In in Hin. }
  split; [|split; [|split; [|split]]].
  - exists (map tally_of_dbx (bucket_storage_tallies db)).
    split; [now rewrite (GetTallies_healthy db Hf)|].
    clear Hrows. induction Hrange as [|row rows Hrow _ IH]; constructor;
      [now apply tally_of_dbx_effective|exact IH].
  - rewrite (GetProjectTotal_healthy order projectID since before db Hf).
    cbn [fst]. fold lo.
    destruct (bandwidth_fits_total db
                (rollup_selected projectID lo before PieceAction_GET) Hb)
      as [H1 H2].
    apply Z.leb_le in H1. apply Z.ltb_lt in H2.
    unfold egress_rows. rewrite H1, H2. eexists. split; [reflexivity|].
    cbn [Storage]. do 3 f_equal. unfold window_entries.
    apply map_ext. intros b. f_equal. unfold window_tallies.
    apply map_ext_in. intros row Hin. apply scan_storage_tally_effective.
    specialize (Hrows b lo). rewrite List.Forall_forall in Hrows.
    now apply Hrows.
  - destruct (GetBucketUsageRollups_healthy projectID since before db Hf Hb)
      as (rollups & Hrun & Hall).
    fold lo_utc in Hall.
    exists rollups. split; [now rewrite Hrun|].
    assert (Hfacts : Forall2
              (fun b r =>
                 bur_BucketName r = b
                 /\ TotalStoredData r
                    = weighted tally_interval_start
                        (fun c => Size_GB (effective_bytes c))
                        (storage_rows projectID b lo_utc before db)
                        PrimFloat.zero
                 /\ TotalSegments r
                    = weighted tally_interval_start
                        (fun c => float64_of_Z (effective_segments c))
                        (storage_rows projectID b lo_utc before db)
                        PrimFloat.zero)
              (window_buckets projectID lo_utc before db) rollups).
    { eapply Forall2_impl; [exact Hall|]. intros b r Hr. cbv beta in Hr.
      destruct (bucket_usage_rollup_run projectID
                  (timeTruncateDown (Time_UTC since)) before b db Hf Hb)
        as (r' & Hr' & _ & Hn & _ & _ & Hd & Hs & _).
      assert (r' = r) by congruence. subst r'.
      fold lo_utc in Hd, Hs.
      specialize (Hrows b lo_utc). rewrite List.Forall_forall in Hrows.
      split; [exact Hn|]. split.
      - rewrite Hd. apply weighted_ext. intros c Hc. cbv beta.
        now rewrite (rollup_stored_bytes_effective c (Hrows c Hc)).
      - rewrite Hs. apply weighted_ext. intros c Hc. cbv beta.
        now rewrite (rollup_segments_effective c (Hrows c Hc)). }
    split.
    + apply Forall2_map_eq. eapply Forall2_impl; [exact Hfacts|].
      now intros b r (Hn & _).
    + eapply Forall2_right. eapply Forall2_impl; [exact Hfacts|].
      intros b r (Hn & Hrest). cbv zeta. rewrite Hn. exact Hrest.
  - intros page Hpage.
    destruct (GetBucketTotals_entries projectID cursor since before db page
                Hf Hi Hpage) as (_ & _ & _ & Hall).
    induction Hall as [|b u names usages Hu _ IH]; constructor; [|exact IH].
    destruct (bucket_usage_run projectID (timeTruncateDown since) before b db
                Hf) as (u' & Hu' & _ & Hn & _ & _ & _ & Hst).
    rewrite Hu in Hu'. destruct (_ && _); [|discriminate Hu'].
    assert (u' = u) by congruence. subst u'. rewrite Hn. fold lo in Hst.
    specialize (Hrows b lo). rewrite List.Forall_forall in Hrows.
    destruct (storage_rows projectID b lo before db) as [|newest rest];
      [apply Hst|].
    destruct Hst as [_ Hst]. rewrite Hst. f_equal.
    destruct (Hrows newest ltac:(now left)) as (_ & _ & _ & Hs & _).
    unfold effective_bytes, effective_value.
    destruct (counter_wrap _ Hs) as [Hw _]. now rewrite Hw.
  - intros row. unfold effective_bytes, effective_segments, effective_value.
    repeat split; intros H.
    + now rewrite H.
    + now rewrite (proj2 (Z.eqb_neq _ _) H).
    + now rewrite H.
    + now rewrite (proj2 (Z.eqb_neq _ _) H).
Qed.

(** A row written before the canonical columns existed, with 3 inline and
    4 remote bytes and 1 inline and 2 remote segments, enters the rollup of
    its bucket with 7 bytes and 3 segments. *)
Lemma legacy_fallback_witness :
  exists rollups,
    fst (GetBucketUsageRollups 1 (in_utc 0) Hour db_legacy) = Ok rollups
    /\ map bur_BucketName rollups = [bucket_a]
    /\ Forall
         (fun r =>
            let rows := storage_rows 1 (bur_BucketName r) 0 Hour db_legacy in
            TotalStoredData r
            = weighted tally_interval_start
                (fun c => Size_GB (effective_bytes c)) rows PrimFloat.zero
            /\ TotalSegments r
               = weighted tally_interval_start
                   (fun c => float64_of_Z (effective_segments c)) rows
                   PrimFloat.zero)
         rollups.
Proof.
  assert (Hrange : Forall counters_in_range (bucket_storage_tallies db_legacy)).
  { apply List.Forall_cons; [|apply List.Forall_cons; [|apply List.Forall_nil]];
      unfold counters_in_range, counter; vm_compute; intuition congruence. }
  destruct (legacy_fallback (fun m => m) db_legacy 1 (in_utc 0) Hour
              (mkCursor [] 2 1) eq_refl ltac:(vm_compute; reflexivity)
              ltac:(discriminate) Hrange) as (_ & _ & H & _).
  exact H.
Defined.

End AccountingProps.

(** ** UpdateSegmentPieces: outcomes, retries and competing writers *)
Module MetabaseMore.
Import Metabase MetabaseProps.

(** Every outcome of the call, by the state it is made in. *)
Lemma update_cases db opts :
  let r := UpdateSegmentPieces db opts in
  (~ valid opts /\ r = (db, Some (ErrInvalidRequest
                                     (if (StreamID opts =? 0)%N then 0 else 1)%nat)))
  \/ (valid opts /\ broken db = true /\ r = (db, Some ErrStore))
  \/ (valid opts /\ broken db = false /\ stored db opts = None
      /\ r = (db, Some ErrObjectNotFound))
  \/ (valid opts /\ broken db = false
      /\ exists pieces, stored db opts = Some pieces
         /\ r = (let v := if decide (pieces = OldPieces opts)
                          then NewPieces opts else pieces in
                 (mkDB (<[(StreamID opts, Position opts) := v]> (segments db)) false,
                  if Pieces_Equal (NewPieces opts) v
                  then None else Some ErrValueChanged))).
Proof.
  cbn zeta. unfold UpdateSegmentPieces.
  destruct (StreamID opts =? 0)%N eqn:G1.
  { left. split; [|reflexivity]. intros [H _]. now apply N.eqb_eq in G1. }
  destruct (length (NewPieces opts) =? 0)%nat eqn:G2.
  { left. split; [|reflexivity]. intros [_ H].
    destruct (NewPieces opts); [congruence|discriminate]. }
  assert (Hv : valid opts).
  { split; [now apply N.eqb_neq|]. intros E. rewrite E in G2. discriminate. }
  right. unfold update_remote_pieces.
  destruct (broken db) eqn:Hb; [left; split; [exact Hv|split; reflexivity]|].
  right. fold (stored db opts).
  destruct (stored db opts) as [pieces|] eqn:Hs;
    [right|left; split; [exact Hv|split; [reflexivity|split; reflexivity]]].
  split; [exact Hv|]. split; [reflexivity|]. exists pieces. split; [reflexivity|].
  cbn zeta. now destruct (Pieces_Equal _ _).
Qed.

(** X1: a call that returns an error leaves the table exactly as it was,
    whatever the error; and no call, failed or not, changes any other
    segment or the state of the connection. *)
Theorem update_error_changes_nothing db opts :
  let db' := fst (UpdateSegmentPieces db opts) in
  (snd (UpdateSegmentPieces db opts) <> None -> db' = db)
  /\ (forall key, key <> (StreamID opts, Position opts) ->
        segments db' !! key = segments db !! key)
  /\ broken db' = broken db.
Proof.
  cbn zeta.
  destruct (update_cases db opts)
    as [[_ ->]|[(_ & _ & ->)|[(_ & _ & _ & ->)|(Hv & Hb & pieces & Hs & ->)]]];
    try (repeat split; reflexivity).
  cbn zeta. simpl. split; [|split].
  - destruct (decide (pieces = OldPieces opts)) as [E|E].
    + rewrite Pieces_Equal_refl. congruence.
    + intros _. now apply db_unchanged.
  - intros key Hk. now rewrite lookup_insert_ne.
  - now rewrite Hb.
Qed.

Lemma update_error_changes_nothing_witness :
  fst (UpdateSegmentPieces db_two (mkOpts 7 0 [p2] [p3])) = db_two.
Proof.
  apply (proj1 (update_error_changes_nothing db_two (mkOpts 7 0 [p2] [p3]))).
  intros H. vm_compute in H. discriminate H.
Defined.

(** X2: a call that returns no error leaves the segment with pieces that
    equal the new pieces up to order: they are the new pieces themselves
    when the old pieces matched, and the pieces that were stored before
    otherwise. *)
Theorem update_success_postcondition db opts :
  snd (UpdateSegmentPieces db opts) = None ->
  exists before after,
    stored db opts = Some before
    /\ stored (fst (UpdateSegmentPieces db opts)) opts = Some after
    /\ Pieces_Equal (NewPieces opts) after = true
    /\ after = (if decide (before = OldPieces opts) then NewPieces opts else before).
Proof.
  destruct (update_cases db opts)
    as [[_ ->]|[(_ & _ & ->)|[(_ & _ & _ & ->)|(Hv & Hb & pieces & Hs & ->)]]];
    try discriminate.
  cbn zeta. simpl. intros He.
  exists pieces. eexists. split; [exact Hs|]. split.
  { unfold stored. simpl. apply lookup_insert_eq. }
  split; [|reflexivity].
  destruct (Pieces_Equal _ _); [reflexivity|discriminate].
Qed.

Lemma update_success_postcondition_witness :
  exists before after,
    stored db_two (mkOpts 7 0 [p1; p2] [p3]) = Some before
    /\ stored (fst (UpdateSegmentPieces db_two (mkOpts 7 0 [p1; p2] [p3])))
         (mkOpts 7 0 [p1; p2] [p3]) = Some after
    /\ Pieces_Equal [p3] after = true
    /\ after = (if decide (before = [p1; p2]) then [p3] else before).
Proof.
  apply (update_success_postcondition db_two (mkOpts 7 0 [p1; p2] [p3])).
  reflexivity.
Defined.

(** X3: a call that succeeded can be repeated: the same call on the
    resulting table succeeds again and changes nothing. *)
Theorem update_retry_is_idempotent db opts :
  snd (UpdateSegmentPieces db opts) = None ->
  UpdateSegmentPieces (fst (UpdateSegmentPieces db opts)) opts
  = (fst (UpdateSegmentPieces db opts), None).
Proof.
  destruct (update_cases db opts)
    as [[_ ->]|[(_ & _ & ->)|[(_ & _ & _ & ->)|(Hv & Hb & pieces & Hs & ->)]]];
    try discriminate.
  cbn zeta. simpl. intros He.
  set (v := if decide (pieces = OldPieces opts) then NewPieces opts else pieces) in *.
  set (db1 := mkDB (<[(StreamID opts, Position opts) := v]> (segments db)) false).
  assert (Hs1 : stored db1 opts = Some v) by (unfold stored; simpl; apply lookup_insert_eq).
  assert (Hv1 : Pieces_Equal (NewPieces opts) v = true)
    by (destruct (Pieces_Equal (NewPieces opts) v); [reflexivity|discriminate]).
  rewrite (update_existing db1 opts v eq_refl Hv Hs1). cbn zeta.
  assert (Hw : (if decide (v = OldPieces opts) then NewPieces opts else v) = v).
  { destruct (decide (v = OldPieces opts)) as [E|E]; [|reflexivity].
    unfold v in *. destruct (decide (pieces = OldPieces opts)); congruence. }
  rewrite Hw, Hv1. f_equal. unfold db1. simpl. f_equal. apply insert_insert_eq.
Qed.

Lemma update_retry_is_idempotent_witness :
  UpdateSegmentPieces (fst (UpdateSegmentPieces db_two (mkOpts 7 0 [p1; p2] [p3])))
    (mkOpts 7 0 [p1; p2] [p3])
  = (fst (UpdateSegmentPieces db_two (mkOpts 7 0 [p1; p2] [p3])), None).
Proof.
  apply (update_retry_is_idempotent db_two (mkOpts 7 0 [p1; p2] [p3])).
  reflexivity.
Defined.



End MetabaseMore.

(** ** prefixIncrement and prefixMatch: shape of the bound *)
Module PrefixRangeMore.
Import PrefixRange PrefixRangeProps Accounting.

Lemma has_prefix_refl p : has_prefix p p = true.
Proof.
  induction p as [|a p IH]; [reflexivity|]. simpl.
  now rewrite (Byte.byte_dec_lb eq_refl), IH.
Qed.

Lemma bytes_lt_irrefl s : ~ bytes_lt s s.
Proof.
  unfold bytes_lt. intros H.
  pose proof (bytes_compare_antisym s s) as E. rewrite H in E. discriminate E.
Qed.

(** X5: the bound that [prefixIncrement] returns is not empty, is at most
    as long as the prefix, agrees with the prefix on all bytes but its
    last one, and does not itself start with the prefix. *)
Theorem prefixIncrement_shape p r :
  prefixIncrement p = Some r ->
  r <> [] /\ (length r <= length p)%nat
  /\ take (length r - 1) r = take (length r - 1) p
  /\ has_prefix p r = false.
Proof.
  intros H.
  destruct (prefixIncrement_Some p r H) as (pre & b & tl & Hp & Hb & Htl & Hr).
  split; [|split; [|split]].
  - rewrite Hr. now destruct pre.
  - rewrite Hr, Hp, !length_app. simpl. lia.
  - rewrite Hr, Hp, length_app. simpl.
    replace (length pre + 1 - 1)%nat with (length pre) by lia.
    now rewrite !take_app_length.
  - destruct (has_prefix p r) eqn:E; [|reflexivity].
    destruct (has_prefix_app p r E) as [tl' Hr'].
    assert (Hlt : bytes_lt r r).
    { rewrite Hr at 2. rewrite Hr', Hp, <- app_assoc. simpl.
      now apply bytes_lt_incr. }
    now apply bytes_lt_irrefl in Hlt.
Qed.

Lemma prefixIncrement_shape_witness :
  [x61; x63] <> [] /\ (length [x61; x63] <= length [x61; x62; xff; xff])%nat
  /\ take (length [x61; x63] - 1) [x61; x63]
     = take (length [x61; x63] - 1) [x61; x62; xff; xff]
  /\ has_prefix [x61; x62; xff; xff] [x61; x63] = false.
Proof.
  apply (prefixIncrement_shape [x61; x62; xff; xff] [x61; x63]). reflexivity.
Defined.

(** X6: on both handled dialects the expression and arguments that
    [prefixMatch] returns select exactly the values that start with the
    prefix, also for a prefix without upper bound (empty or all 0xff);
    on any other dialect [prefixMatch] fails. *)
Theorem prefixMatch_selects_prefix db prefix :
  (impl db <> OtherImpl ->
   exists e incr,
     prefixMatch db prefix = Ok (e, incr)
     /\ (incr = None <-> (prefix = [] \/ all_ff prefix = true))
     /\ forall name,
          eval_range e (prefix :: match incr with Some q => [q] | None => [] end)
            name
          = has_prefix prefix name)
  /\ (impl db = OtherImpl -> prefixMatch db prefix = Err (ErrPlain 2)).
Proof.
  split.
  - intros Hi. unfold prefixMatch.
    destruct (prefixIncrement prefix) as [r|] eqn:E.
    + exists RangeBetween, (Some r).
      split; [destruct (impl db); congruence|]. split.
      * split; [discriminate|]. intros Hn.
        assert (prefixIncrement prefix = None)
          by (apply prefixIncrement_None; destruct Hn as [->|Hn]; [reflexivity|exact Hn]).
        congruence.
      * intros name.
        destruct (prefixIncrement_Some prefix r E) as (pre & b & tl & -> & Hb & Htl & ->).
        now apply range_is_prefix.
    + exists RangeFrom, None.
      split; [destruct (impl db); congruence|]. split.
      * split; [|reflexivity]. intros _. right. now apply prefixIncrement_None.
      * intros name. apply prefixIncrement_None in E.
        now apply bytes_leb_all_ff.
  - intros Hi. unfold prefixMatch. now rewrite Hi.
Qed.

Lemma prefixMatch_selects_prefix_witness :
  exists e incr,
    prefixMatch db_two_buckets [x61] = Ok (e, incr)
    /\ (incr = None <-> ([x61] = [] \/ all_ff [x61] = true))
    /\ forall name,
         eval_range e ([x61] :: match incr with Some q => [q] | None => [] end) name
         = has_prefix [x61] name.
Proof.
  apply (proj1 (prefixMatch_selects_prefix db_two_buckets [x61])). discriminate.
Defined.

End PrefixRangeMore.

(** ** Archiving: what moves and what stays *)
Module ArchiveMore.
Import PrefixRange Accounting AccountingMore AccountingProps.

Lemma take_matching_perm P lim l :
  Permutation l (snd (take_matching P lim l) ++ fst (take_matching P lim l)).
Proof.
  revert lim. induction l as [|x l IH]; intros lim; [reflexivity|].
  simpl. destruct (P x).
  - destruct lim as [[|n]|].
    + simpl. now rewrite app_nil_r.
    + specialize (IH (Some n)).
      destruct (take_matching P (Some n) l) as [moved rest]. simpl in *.
      rewrite <- Permutation_middle. now constructor.
    + specialize (IH None).
      destruct (take_matching P None l) as [moved rest]. simpl in *.
      rewrite <- Permutation_middle. now constructor.
  - specialize (IH lim). destruct (take_matching P lim l) as [moved rest].
    simpl in *. now constructor.
Qed.

Lemma take_matching_Forall P lim l :
  Forall (fun x => P x = true) (fst (take_matching P lim l)).
Proof.
  revert lim. induction l as [|x l IH]; intros lim; [constructor|].
  simpl. destruct (P x) eqn:Ex.
  - destruct lim as [[|n]|].
    + constructor.
    + specialize (IH (Some n)).
      destruct (take_matching P (Some n) l) as [moved rest]. now constructor.
    + specialize (IH None).
      destruct (take_matching P None l) as [moved rest]. now constructor.
  - specialize (IH lim). now destruct (take_matching P lim l) as [moved rest].
Qed.

Lemma take_matching_all P l :
  take_matching P None l
  = (List.filter P l, List.filter (fun x => negb (P x)) l).
Proof.
  induction l as [|x l IH]; [reflexivity|].
  simpl. rewrite IH. now destruct (P x).
Qed.


Lemma filter_nil_neg {A} (P : A -> bool) l :
  List.filter P l = [] -> List.filter (fun x => negb (P x)) l = l.
Proof.
  induction l as [|x l IH]; [reflexivity|].
  simpl. destruct (P x); [discriminate|]. intros H. simpl. now rewrite IH.
Qed.

Lemma moves_refl D db : moves D db db.
Proof.
  split; [reflexivity|]. split; [reflexivity|]. split; [reflexivity|].
  exists []. rewrite !app_nil_r.
  split; [reflexivity|]. split; [reflexivity|]. split; [constructor|reflexivity].
Qed.

Lemma moves_trans D db1 db2 db3 :
  moves D db1 db2 -> moves D db2 db3 -> moves D db1 db3.
Proof.
  intros (Hi & Ht & Hm & m1 & Ha1 & Hp1 & Hf1 & Hk1)
         (Hi' & Ht' & Hm' & m2 & Ha2 & Hp2 & Hf2 & Hk2).
  split; [congruence|]. split; [congruence|]. split; [congruence|].
  exists (m1 ++ m2). split; [now rewrite Ha2, Ha1, app_assoc|].
  split; [|split].
  - rewrite Hp1, Hp2. rewrite <- !app_assoc.
    apply Permutation_app_head, Permutation_app_comm.
  - now apply Forall_app.
  - now rewrite Hk2.
Qed.

Lemma moves_weaken (D D' : RollupRow -> bool) db db' :
  (forall r, D r = true -> D' r = true) -> moves D db db' -> moves D' db db'.
Proof.
  intros Hsub (Hi & Ht & Hm & m & Ha & Hp & Hf & Hk).
  split; [exact Hi|]. split; [exact Ht|]. split; [exact Hm|].
  exists m. split; [exact Ha|]. split; [exact Hp|]. split.
  - eapply List.Forall_impl; [|exact Hf]. intros r Hr. now apply Hsub.
  - assert (Hneg : forall r, negb (D' r) = true -> negb (D r) = true).
    { intros r Hr. destruct (D r) eqn:E; [|reflexivity].
      rewrite (Hsub r E) in Hr. discriminate. }
    rewrite <- (filter_sub (fun r => negb (D' r)) (fun r => negb (D r))
                  (bucket_bandwidth_rollups db') Hneg).
    rewrite Hk. now apply filter_sub.
Qed.

Lemma archive_statement_moves action before limit db :
  moves (to_archive action before) db
    (snd (archive_statement action before limit db)).
Proof.
  destruct (option_eq_dec (fault db) (Some O)) as [Hf|Hf].
  - rewrite (archive_statement_fails _ _ _ db Hf). apply moves_refl.
  - rewrite (archive_statement_runs _ _ _ db Hf). simpl.
    split; [reflexivity|]. split; [reflexivity|]. split; [reflexivity|].
    eexists. split; [reflexivity|]. split; [|split].
    + apply take_matching_perm.
    + apply take_matching_Forall.
    + apply take_matching_others. intros x Hx. now rewrite Hx.
Qed.

Lemma archive_loop_moves fuel action before b acc db r db' :
  archive_loop fuel action before b acc db = Some (r, db') ->
  moves (to_archive (Some action) before) db db'.
Proof.
  revert acc db. induction fuel as [|fuel IH]; intros acc db H; [discriminate|].
  cbn [archive_loop] in H.
  pose proof (archive_statement_moves (Some action) before (Some b) db) as Hm.
  destruct (archive_statement (Some action) before (Some b) db) as [[rc| |] db1];
    simpl in Hm.
  - destruct (rc <? b).
    + injection H as _ <-. exact Hm.
    + eapply moves_trans; [exact Hm|]. eapply IH. exact H.
  - injection H as _ <-. exact Hm.
  - injection H as _ <-. exact Hm.
Qed.

Lemma due_cons a rest before r :
  due (a :: rest) before r = to_archive (Some a) before r || due rest before r.
Proof. reflexivity. Qed.

Lemma archive_actions_moves fuel actions before b acc db r db' :
  archive_actions fuel actions before b acc db = Some (r, db') ->
  moves (due actions before) db db'.
Proof.
  revert acc db. induction actions as [|a rest IH]; intros acc db H.
  - injection H as _ <-. apply moves_refl.
  - cbn [archive_actions] in H. unfold archiveRollupsBeforeByAction in H.
    destruct (archive_loop fuel a before b 0 db) as [[[c e] db1]|] eqn:E;
      [|discriminate].
    apply archive_loop_moves in E.
    assert (E1 : moves (due (a :: rest) before) db db1).
    { eapply moves_weaken; [|exact E]. intros x Hx. rewrite due_cons, Hx.
      reflexivity. }
    destruct e as [e|].
    + injection H as _ <-. exact E1.
    + eapply moves_trans; [exact E1|].
      eapply moves_weaken; [|eapply IH; exact H].
      intros x Hx. rewrite due_cons, Hx. apply orb_true_r.
Qed.

Lemma due_before actions before r :
  due actions before r = true -> to_archive None before r = true.
Proof.
  unfold due. rewrite existsb_exists. intros (a & _ & Ha).
  simpl in *. now apply andb_true_iff in Ha as [_ Ha].
Qed.

Lemma ArchiveRollupsBefore_moves fuel actions before b db r db' :
  ArchiveRollupsBefore fuel actions before b db = Some (r, db') ->
  moves (to_archive None before) db db'
  /\ (impl db = Cockroach -> moves (due actions before) db db').
Proof.
  unfold ArchiveRollupsBefore. intros H.
  destruct (b <=? 0).
  { injection H as _ <-. split; [|intros _]; apply moves_refl. }
  destruct (impl db) eqn:Hi.
  - pose proof (archive_statement_moves None before None db) as Hm.
    destruct (archive_statement None before None db) as [[rc| |] db1];
      injection H as _ <-; (split; [exact Hm|discriminate]).
  - apply archive_actions_moves in H. split; [|intros _; exact H].
    eapply moves_weaken; [|exact H]. apply due_before.
  - injection H as _ <-. split; [apply moves_refl|discriminate].
Qed.

(** X7: archiving is a move without loss: whatever the dialect, the batch
    size and the failures of the connection, the rows of the live table
    and of the archive after the call are, together, the rows that were
    there before, each as often as before; tallies and bucket records are
    not touched. *)
Theorem archive_is_lossless fuel actions before batchSize db r db' :
  ArchiveRollupsBefore fuel actions before batchSize db = Some (r, db') ->
  Permutation
    (bucket_bandwidth_rollups db ++ bucket_bandwidth_rollup_archives db)
    (bucket_bandwidth_rollups db' ++ bucket_bandwidth_rollup_archives db')
  /\ bucket_storage_tallies db' = bucket_storage_tallies db
  /\ bucket_metainfos db' = bucket_metainfos db.
Proof.
  intros H. apply ArchiveRollupsBefore_moves in H as [H _].
  destruct H as (_ & Ht & Hm & moved & Ha & Hp & _).
  split; [|split; assumption].
  rewrite Ha, Hp. rewrite <- !app_assoc.
  apply Permutation_app_head, Permutation_app_comm.
Qed.

Lemma archive_is_lossless_witness :
  Permutation
    (bucket_bandwidth_rollups (db_rollups (Some 1%nat))
     ++ bucket_bandwidth_rollup_archives (db_rollups (Some 1%nat)))
    ([rollup_of 1 2; rollup_of 2 4; rollup_of 2 5; rollup_of 2 6]
     ++ [rollup_of 2 1; rollup_of 2 3]).
Proof.
  apply (proj1 (archive_is_lossless 7 [2; 1] 0 2 (db_rollups (Some 1%nat))
                  (2, Some ErrStore)
                  (mkSatelliteDB Cockroach []
                     [rollup_of 1 2; rollup_of 2 4; rollup_of 2 5; rollup_of 2 6]
                     [rollup_of 2 1; rollup_of 2 3] [] (Some O)
                     [(Some 2, 2)]) eq_refl)).
Defined.

Lemma due_In actions before r :
  due actions before r = true <->
  In (bw_action r) actions /\ bw_interval_start r <= before.
Proof.
  unfold due. rewrite existsb_exists. simpl. split.
  - intros (a & Hin & Ha). apply andb_true_iff in Ha as [Ha Ht].
    apply Z.eqb_eq in Ha. apply Z.leb_le in Ht. subst a. now split.
  - intros [Hin Ht]. exists (bw_action r). split; [exact Hin|].
    apply andb_true_iff. split; [apply Z.eqb_refl|now apply Z.leb_le].
Qed.

(** X8: archiving never touches a row that is not due: whatever the
    dialect and the failures, every row added to the archive has an
    interval start at or before the cutoff and is added after the rows
    that were archived before, and the live rows that start after the
    cutoff stay, in their order.  On the batched dialect the rows added
    have one of the actions that were run, and the live rows of any other
    action stay. *)
Theorem archive_moves_only_due_rows fuel actions before batchSize db r db' :
  ArchiveRollupsBefore fuel actions before batchSize db = Some (r, db') ->
  (exists added,
     bucket_bandwidth_rollup_archives db'
     = bucket_bandwidth_rollup_archives db ++ added
     /\ Forall (fun x => bw_interval_start x <= before) added
     /\ (impl db = Cockroach -> Forall (fun x => In (bw_action x) actions) added))
  /\ List.filter (fun x => before <? bw_interval_start x)
       (bucket_bandwidth_rollups db')
     = List.filter (fun x => before <? bw_interval_start x)
         (bucket_bandwidth_rollups db)
  /\ (impl db = Cockroach ->
      List.filter (fun x => negb (existsb (Z.eqb (bw_action x)) actions))
        (bucket_bandwidth_rollups db')
      = List.filter (fun x => negb (existsb (Z.eqb (bw_action x)) actions))
          (bucket_bandwidth_rollups db)).
Proof.
  intros H. apply ArchiveRollupsBefore_moves in H as [Hall Hcr].
  split; [|split].
  - destruct (impl db) eqn:Hi.
    + destruct Hall as (_ & _ & _ & moved & Ha & _ & Hf & _).
      exists moved. split; [exact Ha|]. split; [|discriminate].
      eapply List.Forall_impl; [|exact Hf]. intros x Hx. simpl in Hx.
      now apply Z.leb_le.
    + destruct (Hcr eq_refl) as (_ & _ & _ & moved & Ha & _ & Hf & _).
      exists moved. split; [exact Ha|]. split; [|intros _].
      * eapply List.Forall_impl; [|exact Hf]. intros x Hx.
        now apply due_In in Hx.
      * eapply List.Forall_impl; [|exact Hf]. intros x Hx.
        now apply due_In in Hx.
    + destruct Hall as (_ & _ & _ & moved & Ha & _ & Hf & _).
      exists moved. split; [exact Ha|]. split; [|discriminate].
      eapply List.Forall_impl; [|exact Hf]. intros x Hx. simpl in Hx.
      now apply Z.leb_le.
  - destruct Hall as (_ & _ & _ & moved & _ & _ & _ & Hk). simpl in Hk.
    rewrite (List.filter_ext (fun x => before <? bw_interval_start x)
               (fun x => negb (bw_interval_start x <=? before)))
      by (intros x; apply Z.ltb_antisym).
    rewrite Hk. apply List.filter_ext. intros x. symmetry. apply Z.ltb_antisym.
  - intros Hi. destruct (Hcr Hi) as (_ & _ & _ & moved & _ & _ & _ & Hk).
    assert (Hsub : forall x,
              negb (existsb (Z.eqb (bw_action x)) actions) = true ->
              negb (due actions before x) = true).
    { intros x Hx. destruct (due actions before x) eqn:E; [|reflexivity].
      apply due_In in E as [Hin _].
      assert (Hex : existsb (Z.eqb (bw_action x)) actions = true).
      { apply existsb_exists. exists (bw_action x). split; [exact Hin|].
        apply Z.eqb_refl. }
      rewrite Hex in Hx. discriminate. }
    rewrite <- (filter_sub _ _ (bucket_bandwidth_rollups db') Hsub).
    rewrite Hk. now apply filter_sub.
Qed.

Lemma archive_moves_only_due_rows_witness :
  List.filter (fun x => negb (existsb (Z.eqb (bw_action x)) [2]))
    [rollup_of 1 2; rollup_of 2 6]
  = List.filter (fun x => negb (existsb (Z.eqb (bw_action x)) [2]))
      (bucket_bandwidth_rollups (db_rollups (Some 2%nat))).
Proof.
  apply (proj2 (proj2 (archive_moves_only_due_rows 7 [2] 0 2
                         (db_rollups (Some 2%nat)) (4, Some ErrStore)
                         (mkSatelliteDB Cockroach []
                            [rollup_of 1 2; rollup_of 2 6]
                            [rollup_of 2 1; rollup_of 2 3; rollup_of 2 4;
                             rollup_of 2 5] [] (Some O)
                            [(Some 2, 2); (Some 2, 2)]) eq_refl))).
  reflexivity.
Defined.

(** The archive after the actions have run on a connection that does not
    fail. *)
Lemma archive_actions_archives fuel actions before b acc db r db' :
  fault db = None -> 0 < b -> List.NoDup actions ->
  (forall a, In a actions -> (length (pending a before db) < fuel)%nat) ->
  archive_actions fuel actions before b acc db = Some (r, db') ->
  bucket_bandwidth_rollup_archives db'
  = bucket_bandwidth_rollup_archives db
    ++ flat_map (fun a => pending a before db) actions.
Proof.
  intros Hf Hb. revert acc db r Hf.
  induction actions as [|a rest IH]; intros acc db r Hf Hnd Hfuel H.
  - injection H as _ <-. simpl. now rewrite app_nil_r.
  - inversion Hnd as [|? ? Ha Hnd']; subst.
    cbn [archive_actions] in H. unfold archiveRollupsBeforeByAction in H.
    destruct (archive_loop_healthy fuel a before b 0 db Hf Hb)
      as (db1 & Hrun & _ & Hf1 & _ & _ & Ho1 & Ha1).
    { apply Hfuel. now left. }
    rewrite Hrun in H.
    assert (Hne : forall a', In a' rest -> a' <> a) by (intros a' Hin ->; contradiction).
    assert (Hfu1 : forall a', In a' rest ->
              (length (pending a' before db1) < fuel)%nat).
    { intros a' Hin. rewrite (Ho1 a' (Hne a' Hin)). apply Hfuel. now right. }
    rewrite (IH _ db1 r Hf1 Hnd' Hfu1 H).
    rewrite Ha1. cbn [flat_map]. rewrite <- app_assoc. do 2 f_equal.
    apply flat_map_ext_In. intros a' Hin. now apply Ho1, Hne.
Qed.

Lemma no_pending_no_due actions before db :
  (forall a, In a actions -> pending a before db = []) ->
  List.filter (due actions before) (bucket_bandwidth_rollups db) = [].
Proof.
  intros H. destruct (List.filter _ _) as [|x l] eqn:E; [reflexivity|].
  assert (Hx : In x (List.filter (due actions before) (bucket_bandwidth_rollups db)))
    by (rewrite E; now left).
  apply filter_In in Hx as [Hin Hd].
  unfold due in Hd. apply existsb_exists in Hd as (a & Ha & Hx).
  assert (Hp : In x (pending a before db)) by (apply filter_In; now split).
  rewrite (H a Ha) in Hp. destruct Hp.
Qed.

(** The call on the batched dialect, on a connection that does not fail. *)
Lemma archive_cockroach_healthy fuel actions before b db :
  0 < b -> impl db = Cockroach -> fault db = None -> List.NoDup actions ->
  (length (bucket_bandwidth_rollups db) < fuel)%nat ->
  exists db',
    ArchiveRollupsBefore fuel actions before b db =
      Some ((sumZ (map (fun a => pending_count a before db) actions), None), db')
    /\ bucket_bandwidth_rollups db'
       = List.filter (fun r => negb (due actions before r))
           (bucket_bandwidth_rollups db)
    /\ bucket_bandwidth_rollup_archives db'
       = bucket_bandwidth_rollup_archives db
         ++ flat_map (fun a => pending a before db) actions
    /\ fault db' = None /\ impl db' = Cockroach
    /\ List.filter (due actions before) (bucket_bandwidth_rollups db') = [].
Proof.
  intros Hb Hi Hf Hnd Hfuel.
  assert (Hfa : forall a, In a actions ->
            (length (pending a before db) < fuel)%nat).
  { intros a _. pose proof (pending_le_live a before db). lia. }
  destruct (archive_actions_healthy fuel actions before b 0 db Hf Hb Hnd Hfa)
    as (db' & Hrun & _ & Hf' & Hp & _).
  exists db'. unfold ArchiveRollupsBefore.
  rewrite (proj2 (Z.leb_gt b 0)) by lia. rewrite Hi, Hrun.
  split; [reflexivity|].
  pose proof (archive_actions_moves _ _ _ _ _ _ _ _ Hrun)
    as (Hi' & _ & _ & _ & _ & _ & _ & Hk).
  split; [|split; [|split; [|split]]].
  - rewrite <- Hk. symmetry. apply filter_nil_neg.
    now apply no_pending_no_due.
  - exact (archive_actions_archives _ _ _ _ _ _ _ _ Hf Hb Hnd Hfa Hrun).
  - exact Hf'.
  - now rewrite Hi'.
  - now apply no_pending_no_due.
Qed.

(** X9: on the batched dialect, on a connection that does not fail, the
    tables after the call do not depend on the batch size: the live table
    is left with the rows that are not due, in their order, and the
    archive has received the due rows, action after action, each action's
    rows in the order of the live table. *)
Theorem archive_batch_size_is_immaterial fuel actions before b1 b2 db :
  0 < b1 -> 0 < b2 -> impl db = Cockroach -> fault db = None ->
  List.NoDup actions ->
  (length (bucket_bandwidth_rollups db) < fuel)%nat ->
  exists c db1 db2,
    ArchiveRollupsBefore fuel actions before b1 db = Some ((c, None), db1)
    /\ ArchiveRollupsBefore fuel actions before b2 db = Some ((c, None), db2)
    /\ bucket_bandwidth_rollups db1 = bucket_bandwidth_rollups db2
    /\ bucket_bandwidth_rollup_archives db1 = bucket_bandwidth_rollup_archives db2
    /\ bucket_bandwidth_rollups db1
       = List.filter (fun r => negb (due actions before r))
           (bucket_bandwidth_rollups db)
    /\ bucket_bandwidth_rollup_archives db1
       = bucket_bandwidth_rollup_archives db
         ++ flat_map (fun a => pending a before db) actions.
Proof.
  intros Hb1 Hb2 Hi Hf Hnd Hfuel.
  destruct (archive_cockroach_healthy fuel actions before b1 db Hb1 Hi Hf Hnd Hfuel)
    as (db1 & Hr1 & Hl1 & Ha1 & _).
  destruct (archive_cockroach_healthy fuel actions before b2 db Hb2 Hi Hf Hnd Hfuel)
    as (db2 & Hr2 & Hl2 & Ha2 & _).
  exists (sumZ (map (fun a => pending_count a before db) actions)), db1, db2.
  split; [exact Hr1|]. split; [exact Hr2|].
  split; [congruence|]. split; [congruence|]. now split.
Qed.

Lemma archive_batch_size_is_immaterial_witness :
  exists c db1 db2,
    ArchiveRollupsBefore 7 [2; 1] 0 2 (db_rollups None) = Some ((c, None), db1)
    /\ ArchiveRollupsBefore 7 [2; 1] 0 5 (db_rollups None) = Some ((c, None), db2)
    /\ bucket_bandwidth_rollups db1 = bucket_bandwidth_rollups db2
    /\ bucket_bandwidth_rollup_archives db1 = bucket_bandwidth_rollup_archives db2
    /\ bucket_bandwidth_rollups db1
       = List.filter (fun r => negb (due [2; 1] 0 r))
           (bucket_bandwidth_rollups (db_rollups None))
    /\ bucket_bandwidth_rollup_archives db1
       = bucket_bandwidth_rollup_archives (db_rollups None)
         ++ flat_map (fun a => pending a 0 (db_rollups None)) [2; 1].
Proof.
  apply (archive_batch_size_is_immaterial 7 [2; 1] 0 2 5 (db_rollups None));
    try reflexivity.
  - constructor; [intros [H|[]]; discriminate H|].
    constructor; [intros []|constructor].
  - by_compute.
Defined.

(** The call on the dialect that moves everything in one statement. *)
Lemma archive_postgres_runs fuel actions before b db :
  0 < b -> impl db = Postgres -> fault db <> Some O ->
  let due_rows := List.filter (to_archive None before) (bucket_bandwidth_rollups db) in
  ArchiveRollupsBefore fuel actions before b db =
    Some ((Z.of_nat (length due_rows), None),
          mkSatelliteDB Postgres (bucket_storage_tallies db)
            (List.filter (fun r => negb (to_archive None before r))
               (bucket_bandwidth_rollups db))
            (bucket_bandwidth_rollup_archives db ++ due_rows)
            (bucket_metainfos db) (option_map Nat.pred (fault db))
            ((None, Z.of_nat (length due_rows)) :: round_trips db)).
Proof.
  intros Hb Hi Hf. cbn zeta. unfold ArchiveRollupsBefore.
  rewrite (proj2 (Z.leb_gt b 0)) by lia. rewrite Hi.
  rewrite (archive_statement_runs _ _ _ db Hf). cbn [option_map].
  rewrite take_matching_all, Hi. reflexivity.
Qed.

(** X10: on Postgres the call issues one statement, whatever the batch
    size and the number of rows: it moves every row that starts at or
    before the cutoff to the end of the archive, in the order of the live
    table, and returns their number; when the statement fails it returns
    0 with the error and nothing has moved. *)
Theorem archive_postgres_single_statement fuel actions before batchSize db :
  0 < batchSize -> impl db = Postgres ->
  let due_rows :=
    List.filter (fun r => bw_interval_start r <=? before)
      (bucket_bandwidth_rollups db) in
  (fault db <> Some O ->
   exists db',
     ArchiveRollupsBefore fuel actions before batchSize db
     = Some ((Z.of_nat (length due_rows), None), db')
     /\ bucket_bandwidth_rollups db'
        = List.filter (fun r => before <? bw_interval_start r)
            (bucket_bandwidth_rollups db)
     /\ bucket_bandwidth_rollup_archives db'
        = bucket_bandwidth_rollup_archives db ++ due_rows
     /\ trips_since db db' = [(None, Z.of_nat (length due_rows))])
  /\ (fault db = Some O ->
      ArchiveRollupsBefore fuel actions before batchSize db
      = Some ((0, Some ErrStore), db)).
Proof.
  intros Hb Hi. cbn zeta. split.
  - intros Hf. eexists. split; [now apply archive_postgres_runs|].
    simpl. split; [|split; [reflexivity|]].
    + apply List.filter_ext. intros r. symmetry. apply Z.ltb_antisym.
    + now apply trips_since_app.
  - intros Hf. unfold ArchiveRollupsBefore.
    rewrite (proj2 (Z.leb_gt batchSize 0)) by lia. rewrite Hi.
    now rewrite (archive_statement_fails _ _ _ db Hf).
Qed.

Lemma archive_postgres_single_statement_witness :
  ArchiveRollupsBefore 0 [] 0 1
    (mkSatelliteDB Postgres [] [rollup_of 2 1] [] [] (Some O) [])
  = Some ((0, Some ErrStore),
          mkSatelliteDB Postgres [] [rollup_of 2 1] [] [] (Some O) []).
Proof.
  apply (proj2 (archive_postgres_single_statement 0 [] 0 1
                  (mkSatelliteDB Postgres [] [rollup_of 2 1] [] [] (Some O) [])
                  ltac:(reflexivity) eq_refl)).
  reflexivity.
Defined.

Lemma filter_neg_nil {A} (P : A -> bool) l :
  List.filter P (List.filter (fun x => negb (P x)) l) = [].
Proof.
  induction l as [|x l IH]; [reflexivity|].
  simpl. destruct (P x) eqn:E; simpl; [exact IH|]. now rewrite E.
Qed.

Lemma sumZ_zero {A} (f : A -> Z) l :
  (forall x, In x l -> f x = 0) -> sumZ (map f l) = 0.
Proof.
  induction l as [|x l IH]; intros H; [reflexivity|].
  simpl map. rewrite sumZ_cons, (H x) by now left.
  rewrite IH; [reflexivity|]. intros y Hy. apply H. now right.
Qed.

Lemma flat_map_nil {A B} (f : A -> list B) l :
  (forall x, In x l -> f x = []) -> flat_map f l = [].
Proof.
  induction l as [|x l IH]; intros H; [reflexivity|].
  simpl. rewrite (H x) by now left. apply IH. intros y Hy. apply H. now right.
Qed.

Lemma due_none_pending actions before db a :
  List.filter (due actions before) (bucket_bandwidth_rollups db) = [] ->
  In a actions -> pending a before db = [].
Proof.
  intros Hn Ha. unfold pending.
  rewrite <- (filter_sub (to_archive (Some a) before) (due actions before)).
  - now rewrite Hn.
  - intros x Hx. unfold due. apply existsb_exists. now exists a.
Qed.

(** X11: a second call with the same arguments, after a call that ran on a
    connection that does not fail, archives nothing: it returns 0 and
    leaves the live table and the archive as the first call left them. *)
Theorem archive_rerun_archives_nothing fuel actions before batchSize db :
  fault db = None -> List.NoDup actions ->
  (length (bucket_bandwidth_rollups db) < fuel)%nat ->
  exists c db1 db2,
    ArchiveRollupsBefore fuel actions before batchSize db = Some ((c, None), db1)
    /\ ArchiveRollupsBefore fuel actions before batchSize db1
       = Some ((0, None), db2)
    /\ bucket_bandwidth_rollups db2 = bucket_bandwidth_rollups db1
    /\ bucket_bandwidth_rollup_archives db2 = bucket_bandwidth_rollup_archives db1.
Proof.
  intros Hf Hnd Hfuel.
  destruct (Z_le_gt_dec batchSize 0) as [Hb|Hb].
  { exists 0, db, db. unfold ArchiveRollupsBefore.
    rewrite (proj2 (Z.leb_le batchSize 0) Hb). now repeat split. }
  assert (Hb' : 0 < batchSize) by lia.
  destruct (impl db) eqn:Hi.
  - assert (Hf0 : fault db <> Some O) by (rewrite Hf; discriminate).
    eexists _, _, _. split; [now apply archive_postgres_runs|].
    match goal with
    | |- ArchiveRollupsBefore _ _ _ _ ?d = _ /\ _ =>
        assert (Hf1 : fault d <> Some O) by (simpl; rewrite Hf; discriminate);
        rewrite (archive_postgres_runs fuel actions before batchSize d Hb' eq_refl Hf1)
    end.
    simpl. rewrite filter_neg_nil. simpl. rewrite app_nil_r.
    split; [reflexivity|]. split; [|reflexivity].
    apply filter_sub. tauto.
  - destruct (archive_cockroach_healthy fuel actions before batchSize db
                Hb' Hi Hf Hnd Hfuel) as (db1 & Hr1 & Hl1 & Ha1 & Hf1 & Hi1 & Hn1).
    assert (Hfuel1 : (length (bucket_bandwidth_rollups db1) < fuel)%nat).
    { rewrite Hl1. pose proof (List.filter_length_le
         (fun r => negb (due actions before r)) (bucket_bandwidth_rollups db)).
      lia. }
    destruct (archive_cockroach_healthy fuel actions before batchSize db1
                Hb' Hi1 Hf1 Hnd Hfuel1) as (db2 & Hr2 & Hl2 & Ha2 & _).
    exists (sumZ (map (fun a => pending_count a before db) actions)), db1, db2.
    split; [exact Hr1|].
    assert (Hp : forall a, In a actions -> pending a before db1 = [])
      by (intros a Ha; now apply (due_none_pending actions)).
    rewrite Hr2, sumZ_zero
      by (intros a Ha; unfold pending_count; now rewrite (Hp a Ha)).
    split; [reflexivity|]. split.
    + rewrite Hl2. now apply filter_nil_neg.
    + rewrite Ha2, flat_map_nil by exact Hp. apply app_nil_r.
  - exists 0, db, db. unfold ArchiveRollupsBefore.
    rewrite (proj2 (Z.leb_gt batchSize 0)) by lia. rewrite Hi. now repeat split.
Qed.

Lemma archive_rerun_archives_nothing_witness :
  exists c db1 db2,
    ArchiveRollupsBefore 7 [2; 1] 0 2 (db_rollups None) = Some ((c, None), db1)
    /\ ArchiveRollupsBefore 7 [2; 1] 0 2 db1 = Some ((0, None), db2)
    /\ bucket_bandwidth_rollups db2 = bucket_bandwidth_rollups db1
    /\ bucket_bandwidth_rollup_archives db2 = bucket_bandwidth_rollup_archives db1.
Proof.
  apply (archive_rerun_archives_nothing 7 [2; 1] 0 2 (db_rollups None)).
  - reflexivity.
  - constructor; [intros [H|[]]; discriminate H|].
    constructor; [intros []|constructor].
  - by_compute.
Defined.

Lemma filter_partition_perm {A} (P : A -> bool) l :
  Permutation l (List.filter (fun x => negb (P x)) l ++ List.filter P l).
Proof.
  induction l as [|x l IH]; [reflexivity|].
  simpl. destruct (P x); simpl.
  - rewrite <- Permutation_middle. now constructor.
  - now constructor.
Qed.

Lemma pending_counts_length actions before db :
  sumZ (map (fun a => pending_count a before db) actions)
  = Z.of_nat (length (flat_map (fun a => pending a before db) actions)).
Proof.
  induction actions as [|a rest IH]; [reflexivity|].
  simpl map. rewrite sumZ_cons, IH. simpl flat_map. rewrite length_app.
  unfold pending_count. lia.
Qed.

(** X12: the two dialects agree.  When the actions that are run cover the
    actions of all live rows, the batched call and the single statement,
    started on the same tables on connections that do not fail, return
    the same count and leave the same live table, and their archives hold
    the same rows (in a different order). *)
Theorem archive_dialects_agree fuel actions before batchSize dbc dbp :
  0 < batchSize -> impl dbc = Cockroach -> impl dbp = Postgres ->
  fault dbc = None -> fault dbp = None -> List.NoDup actions ->
  (length (bucket_bandwidth_rollups dbc) < fuel)%nat ->
  bucket_bandwidth_rollups dbp = bucket_bandwidth_rollups dbc ->
  bucket_bandwidth_rollup_archives dbp = bucket_bandwidth_rollup_archives dbc ->
  Forall (fun r => In (bw_action r) actions) (bucket_bandwidth_rollups dbc) ->
  exists c dbc' dbp',
    ArchiveRollupsBefore fuel actions before batchSize dbc = Some ((c, None), dbc')
    /\ ArchiveRollupsBefore fuel actions before batchSize dbp
       = Some ((c, None), dbp')
    /\ bucket_bandwidth_rollups dbc' = bucket_bandwidth_rollups dbp'
    /\ Permutation (bucket_bandwidth_rollup_archives dbc')
         (bucket_bandwidth_rollup_archives dbp').
Proof.
  intros Hb Hic Hip Hfc Hfp Hnd Hfuel Hlive Harch Hcover.
  destruct (archive_cockroach_healthy fuel actions before batchSize dbc
              Hb Hic Hfc Hnd Hfuel) as (dbc' & Hrc & Hlc & Hac & _).
  assert (Hfp0 : fault dbp <> Some O) by (rewrite Hfp; discriminate).
  pose proof (archive_postgres_runs fuel actions before batchSize dbp Hb Hip Hfp0)
    as Hrp. cbn zeta in Hrp. rewrite Hlive, Harch in Hrp.
  set (live := bucket_bandwidth_rollups dbc) in *.
  assert (Hsame : List.filter (fun r => negb (due actions before r)) live
                  = List.filter (fun r => negb (to_archive None before r)) live).
  { apply List.filter_ext_in. intros r Hr. f_equal.
    rewrite List.Forall_forall in Hcover. specialize (Hcover r Hr).
    destruct (due actions before r) eqn:E.
    - symmetry. now apply due_before in E.
    - destruct (to_archive None before r) eqn:E'; [|reflexivity].
      simpl in E'. apply Z.leb_le in E'.
      assert (due actions before r = true) by (apply due_In; now split).
      congruence. }
  assert (Hperm : Permutation (flat_map (fun a => pending a before dbc) actions)
                    (List.filter (to_archive None before) live)).
  { pose proof (ArchiveRollupsBefore_moves _ _ _ _ _ _ _ Hrc) as [_ Hm].
    destruct (Hm Hic) as (_ & _ & _ & moved & Ha & Hp & _).
    rewrite Hac in Ha. apply app_inv_head in Ha. subst moved.
    fold live in Hp. rewrite Hlc, Hsame in Hp.
    pose proof (filter_partition_perm (to_archive None before) live) as Hq.
    apply (Permutation_app_inv_l
             (List.filter (fun r => negb (to_archive None before r)) live)).
    now rewrite <- Hp, <- Hq. }
  eexists _, dbc', _. split; [exact Hrc|].
  rewrite Hrp, pending_counts_length, (Permutation_length Hperm).
  split; [reflexivity|]. simpl. split.
  - now rewrite Hlc.
  - rewrite Hac. now apply Permutation_app_head.
Qed.

Lemma archive_dialects_agree_witness :
  exists c dbc' dbp',
    ArchiveRollupsBefore 7 [2; 1] 0 2 (db_rollups None) = Some ((c, None), dbc')
    /\ ArchiveRollupsBefore 7 [2; 1] 0 2
         (mkSatelliteDB Postgres []
            (bucket_bandwidth_rollups (db_rollups None)) [] [] None [])
       = Some ((c, None), dbp')
    /\ bucket_bandwidth_rollups dbc' = bucket_bandwidth_rollups dbp'
    /\ Permutation (bucket_bandwidth_rollup_archives dbc')
         (bucket_bandwidth_rollup_archives dbp').
Proof.
  apply (archive_dialects_agree 7 [2; 1] 0 2 (db_rollups None)
           (mkSatelliteDB Postgres []
              (bucket_bandwidth_rollups (db_rollups None)) [] [] None []));
    try reflexivity.
  - constructor; [intros [H|[]]; discriminate H|].
    constructor; [intros []|constructor].
  - by_compute.
  - repeat constructor; simpl; tauto.
Defined.

End ArchiveMore.

(** ** Writing tallies and reading them back *)
Module WriteMore.
Import PrefixRange Accounting AccountingMore AccountingProps.

Lemma GetTallies_runs db :
  fault db <> Some O ->
  fst (GetTallies db) = Ok (map tally_of_dbx (bucket_storage_tallies db)).
Proof.
  intros H. unfold GetTallies, bind, query.
  destruct (fault db) as [[|k]|]; [congruence| |]; reflexivity.
Qed.

Lemma unnest_tallies_rows intervalStart tallies :
  unnest_tallies intervalStart (map bt_BucketName tallies)
    (map bt_ProjectID tallies) (map bt_TotalBytes tallies)
    (map bt_TotalSegments tallies) (map bt_ObjectCount tallies)
    (map bt_MetadataSize tallies)
  = map (row_of_tally intervalStart) tallies.
Proof.
  induction tallies as [|t l IH]; [reflexivity|]. simpl. now rewrite IH.
Qed.

Lemma tally_read_back intervalStart t :
  tally_in_range t -> tally_of_dbx (row_of_tally intervalStart t) = t.
Proof.
  intros (Ho & Hs & Hb & Hm). destruct t as [pid name oc segs bytes meta].
  unfold tally_of_dbx, row_of_tally. simpl in *.
  destruct (counter_wrap _ Ho) as [-> _]. destruct (counter_wrap _ Hm) as [-> _].
  f_equal.
  - destruct (segs =? 0) eqn:E; [|now apply counter_wrap].
    apply Z.eqb_eq in E. now subst.
  - destruct (bytes =? 0) eqn:E; [|now apply counter_wrap].
    apply Z.eqb_eq in E. now subst.
Qed.

Lemma insert_tallies_cases rows db :
  (fst (insert_tallies rows db) = Ok tt
   /\ bucket_storage_tallies (snd (insert_tallies rows db))
      = bucket_storage_tallies db ++ rows
   /\ fault (snd (insert_tallies rows db)) = option_map Nat.pred (fault db)
   /\ fault db <> Some O)
  \/ (fst (insert_tallies rows db) = Err ErrStore
      /\ bucket_storage_tallies (snd (insert_tallies rows db))
         = bucket_storage_tallies db).
Proof.
  unfold insert_tallies.
  destruct (fault db) as [[|k]|] eqn:Hf; [right; now split| |];
    destruct (keys_distinct _); simpl; rewrite ?Hf;
    first [left; repeat split; discriminate | right; now split].
Qed.

(** X14: what [SaveTallies] (and [CreateStorageTally]) writes comes back
    from [GetTallies]: after a call that returned no error, [GetTallies]
    returns the tallies it returned before followed by the saved tallies,
    with the same project, bucket and counters.  A call that returns an
    error has inserted nothing, and an empty batch issues no statement at
    all, so that it succeeds on a broken connection too. *)
Theorem saved_tallies_are_read_back intervalStart bucketTallies db :
  Forall tally_in_range bucketTallies ->
  let r := SaveTallies intervalStart bucketTallies db in
  (fst r = Ok tt -> fault (snd r) <> Some O ->
   fst (GetTallies (snd r))
   = Ok (map tally_of_dbx (bucket_storage_tallies db) ++ bucketTallies))
  /\ (fst r <> Ok tt ->
      bucket_storage_tallies (snd r) = bucket_storage_tallies db)
  /\ (bucketTallies = [] -> r = (Ok tt, db))
  /\ (forall tally,
        bucketTallies
        = [mkBucketTally (st_ProjectID tally) (st_BucketName tally)
             (st_ObjectCount tally) (st_TotalSegmentCount tally)
             (st_TotalBytes tally) (st_MetadataSize tally)] ->
        intervalStart = st_IntervalStart tally ->
        CreateStorageTally tally db = r).
Proof.
  intros Hrange. cbn zeta.
  assert (Hback : map tally_of_dbx (map (row_of_tally intervalStart) bucketTallies)
                  = bucketTallies).
  { induction Hrange as [|t l Ht _ IH]; [reflexivity|].
    simpl. now rewrite tally_read_back, IH. }
  split; [|split; [|split]].
  - unfold SaveTallies. destruct bucketTallies as [|t l].
    + simpl. intros _ Hf. rewrite (GetTallies_runs db Hf). now rewrite app_nil_r.
    + cbn [length Nat.eqb]. rewrite unnest_tallies_rows.
      intros Hok Hf.
      destruct (insert_tallies_cases (map (row_of_tally intervalStart) (t :: l)) db)
        as [(_ & Hrows & _)|(Herr & _)]; [|congruence].
      rewrite (GetTallies_runs _ Hf), Hrows, map_app, Hback. reflexivity.
  - unfold SaveTallies. destruct bucketTallies as [|t l].
    + simpl. congruence.
    + cbn [length Nat.eqb]. rewrite unnest_tallies_rows. intros Hne.
      destruct (insert_tallies_cases (map (row_of_tally intervalStart) (t :: l)) db)
        as [(Hok & _)|(_ & Hrows)]; [congruence|exact Hrows].
  - intros ->. reflexivity.
  - intros tally -> ->. reflexivity.
Qed.

Lemma saved_tallies_are_read_back_witness :
  fst (GetTallies (snd (SaveTallies (2 * Hour) [tally_one; tally_two] db_boundary)))
  = Ok (map tally_of_dbx (bucket_storage_tallies db_boundary)
        ++ [tally_one; tally_two]).
Proof.
  apply (proj1 (saved_tallies_are_read_back (2 * Hour) [tally_one; tally_two]
                  db_boundary
                  ltac:(repeat constructor; by_compute))).
  - reflexivity.
  - discriminate.
Defined.

End WriteMore.

(** ** CreateSchema: bounded retries *)
Module PgutilMore.
Import Pgutil.

Section Retries.

Variable pgerror : Type.
Variable IsConstraintError : option pgerror -> bool.
Variable exec : nat -> option pgerror.

Lemma CreateSchema_loop_spec n k err :
  (0 < n)%nat ->
  let r := CreateSchema_loop pgerror IsConstraintError exec n k err in
  (k < snd r <= k + n)%nat
  /\ fst r = exec (snd r - 1)%nat
  /\ (forall j, (k <= j < snd r - 1)%nat -> IsConstraintError (exec j) = true)
  /\ ((snd r < k + n)%nat -> IsConstraintError (fst r) = false).
Proof.
  revert k err. induction n as [|n IH]; intros k err Hn; [lia|].
  cbn zeta. cbn [CreateSchema_loop].
  destruct (IsConstraintError (exec k)) eqn:E.
  - destruct n as [|n].
    + cbn [CreateSchema_loop fst snd]. replace (S k - 1)%nat with k by lia.
      split; [lia|]. split; [reflexivity|]. split; intros; lia.
    + specialize (IH (S k) (exec k) ltac:(lia)). cbn zeta in IH.
      destruct IH as (Hb & He & Hall & Hlast).
      split; [lia|]. split; [exact He|]. split.
      * intros j Hj. destruct (Nat.eq_dec j k) as [->|Hne]; [exact E|].
        apply Hall. lia.
      * intros Hlt. apply Hlast. lia.
  - cbn [fst snd]. replace (S k - 1)%nat with k by lia.
    split; [lia|]. split; [reflexivity|]. split; [intros; lia|].
    intros _. exact E.
Qed.

End Retries.

(** X15: [CreateSchema] executes at least one and at most five statements.
    It stops at the first statement that does not end in a constraint
    error and returns what that statement returned (nil when it
    succeeded); all statements before it ended in constraint errors, and
    when all five do, the error of the fifth is returned. *)
Theorem CreateSchema_retries (pgerror : Type)
    (IsConstraintError : option pgerror -> bool) (exec : nat -> option pgerror) :
  let err := fst (CreateSchema pgerror IsConstraintError exec) in
  let n := snd (CreateSchema pgerror IsConstraintError exec) in
  (1 <= n <= 5)%nat
  /\ err = exec (n - 1)%nat
  /\ (forall k, (k < n - 1)%nat -> IsConstraintError (exec k) = true)
  /\ ((n < 5)%nat -> IsConstraintError err = false)
  /\ (IsConstraintError err = true -> n = 5%nat).
Proof.
  cbn zeta. unfold CreateSchema.
  destruct (CreateSchema_loop_spec pgerror IsConstraintError exec 5 0 None
              ltac:(lia)) as (Hb & He & Hall & Hlast).
  split; [lia|]. split; [exact He|]. split; [|split].
  - intros k Hk. apply Hall. lia.
  - intros Hlt. apply Hlast. lia.
  - intros Hc.
    destruct (Nat.eq_dec
                (snd (CreateSchema_loop pgerror IsConstraintError exec 5 0 None))
                5%nat) as [E|E]; [exact E|].
    rewrite Hlast in Hc by lia. discriminate.
Qed.

(** Two constraint errors, then success: three statements, no error. *)
Lemma CreateSchema_retries_witness :
  is_unique_violation
    (fst (CreateSchema sample_error is_unique_violation
            (fun k => if (k <? 2)%nat then Some UniqueViolation else None)))
  = false.
Proof.
  apply (proj1 (proj2 (proj2 (proj2
           (CreateSchema_retries sample_error is_unique_violation
              (fun k => if (k <? 2)%nat then Some UniqueViolation else None)))))).
  vm_compute. lia.
Defined.

End PgutilMore.

(** ** Reading usage: what the calls cannot do *)
Module ReadMore.
Import PrefixRange Accounting AccountingMore AccountingProps.

(** *** No panics *)

Lemma no_panic_ret {A} (a : A) : no_panic (ret a).
Proof. intros db. discriminate. Qed.

Lemma no_panic_fail {A} e : no_panic (@fail A e).
Proof. intros db. discriminate. Qed.

Lemma no_panic_query {A} (q : satelliteDB -> A) : no_panic (query q).
Proof.
  intros db. unfold query. destruct (fault db) as [[|k]|]; discriminate.
Qed.

Lemma no_panic_bind {A B} (m : M A) (k : A -> M B) :
  no_panic m -> (forall a, no_panic (k a)) -> no_panic (bind m k).
Proof.
  intros Hm Hk db. unfold bind. specialize (Hm db).
  destruct (m db) as [[a|e|] db1]; simpl in *; [apply Hk|discriminate|congruence].
Qed.

Lemma no_panic_mapM {A B} (f : A -> M B) l :
  (forall x, no_panic (f x)) -> no_panic (mapM f l).
Proof.
  intros Hf. induction l as [|x l IH]; [apply no_panic_ret|].
  simpl. apply no_panic_bind; [apply Hf|]. intros y.
  apply no_panic_bind; [exact IH|]. intros ys. apply no_panic_ret.
Qed.

Lemma no_panic_collect projectID since before names m :
  no_panic (collect_tallies projectID since before names m).
Proof.
  revert m. induction names as [|b rest IH]; intros m; [apply no_panic_ret|].
  cbn [collect_tallies]. apply no_panic_bind; [apply no_panic_query|].
  intros rows. apply IH.
Qed.

Lemma no_panic_scan_int64 v : no_panic (scan_int64 v).
Proof. intros db. unfold scan_int64. destruct (_ && _); discriminate. Qed.

Lemma no_panic_scan_egress rows r : no_panic (scan_egress rows r).
Proof.
  revert r. induction rows as [|[[settled inline] action] rows IH]; intros r.
  - apply no_panic_ret.
  - cbn [scan_egress]. apply no_panic_bind; [apply no_panic_scan_int64|].
    intros s. apply no_panic_bind; [apply no_panic_scan_int64|].
    intros i. apply IH.
Qed.

Lemma fill_storage_some rows i r :
  (i < length rows)%nat -> exists r', fill_storage rows i r = Some r'.
Proof.
  revert r. induction i as [|j IH]; intros r Hi; [now exists r|].
  destruct (lookup_lt_is_Some_2 rows (S j) Hi) as [current Hc].
  destruct (lookup_lt_is_Some_2 rows j ltac:(lia)) as [newer Hn].
  cbn [fill_storage]. rewrite Hc, Hn. apply IH. lia.
Qed.

Lemma fill_storage_all rows r :
  exists r', fill_storage rows (length rows - 1)%nat r = Some r'.
Proof.
  destruct rows as [|x l]; [now exists r|].
  apply fill_storage_some. simpl. lia.
Qed.

(** X16: the loops over the tallies never index out of range:
    [GetProjectTotal], [GetBucketUsageRollups] and [GetTallies] do not
    panic, whatever the tables hold and whenever the connection fails;
    they return a result or an error. *)
Theorem usage_reads_never_panic order projectID since before :
  no_panic (GetProjectTotal order projectID since before)
  /\ no_panic (GetBucketUsageRollups projectID since before)
  /\ no_panic GetTallies.
Proof.
  split; [|split].
  - unfold GetProjectTotal. apply no_panic_bind.
    { unfold getBucketsSinceAndBefore. apply no_panic_query. }
    intros names. apply no_panic_bind; [apply no_panic_collect|].
    intros m. apply no_panic_bind.
    { unfold getTotalEgress.
      apply no_panic_bind; [apply no_panic_query|].
      intros total. apply no_panic_scan_int64. }
    intros egress. rewrite sum_buckets_weighted. apply no_panic_ret.
  - unfold GetBucketUsageRollups. apply no_panic_bind.
    { unfold getBucketsSinceAndBefore. apply no_panic_query. }
    intros names. apply no_panic_mapM. intros bucket.
    unfold bucket_usage_rollup. apply no_panic_bind; [apply no_panic_query|].
    intros rollups. apply no_panic_bind; [apply no_panic_scan_egress|].
    intros rollup. apply no_panic_bind; [apply no_panic_query|].
    intros rows.
    match goal with
    | |- context [fill_storage rows _ ?r] =>
        destruct (fill_storage_all rows r) as [r' Hr]
    end.
    rewrite Hr. apply no_panic_ret.
  - unfold GetTallies. apply no_panic_bind; [apply no_panic_query|].
    intros rows. apply no_panic_ret.
Qed.

Lemma no_panic_bucket_usage projectID since before bucket :
  no_panic (bucket_usage projectID since before bucket).
Proof.
  unfold bucket_usage. apply no_panic_bind; [apply no_panic_query|].
  intros total. apply no_panic_bind; [apply no_panic_scan_int64|].
  intros egress. apply no_panic_bind; [apply no_panic_query|].
  intros [[[tb inl] rem] oc]. apply no_panic_ret.
Qed.

(** X17: with a limit of at least 1 [GetBucketTotals] does not panic,
    whatever the page, the tables and the state of the connection: the
    division by the limit is the only place where it can. *)
Theorem bucket_totals_safe_with_limit projectID cursor since before :
  1 <= cur_Limit cursor ->
  no_panic (GetBucketTotals projectID cursor since before).
Proof.
  intros Hl db. unfold GetBucketTotals.
  destruct (cur_Page cursor =? 0); [discriminate|].
  destruct (prefixMatch db (cur_Search cursor)) as [[e incr]|err|] eqn:Hpm.
  - match goal with
    | |- fst (?m db) <> Panic => assert (Hm : no_panic m); [|apply Hm]
    end.
    apply no_panic_bind; [apply no_panic_query|]. intros total.
    destruct (total =? 0); [apply no_panic_ret|].
    destruct (_ <? _); [apply no_panic_fail|].
    apply no_panic_bind; [apply no_panic_query|]. intros buckets.
    apply no_panic_bind.
    { apply no_panic_mapM. intros b. apply no_panic_bucket_usage. }
    intros usages.
    assert (Hc : ((if 50 <? cur_Limit cursor then 50 else cur_Limit cursor) =? 0)
                 = false).
    { destruct (50 <? cur_Limit cursor); apply Z.eqb_neq; lia. }
    rewrite Hc. apply no_panic_ret.
  - discriminate.
  - unfold prefixMatch in Hpm.
    destruct (impl db); destruct (prefixIncrement (cur_Search cursor));
      discriminate Hpm.
Qed.

Lemma bucket_totals_safe_with_limit_witness :
  fst (GetBucketTotals 1 (mkCursor [] 1 3) (in_utc 0) Hour db_two_buckets)
  <> Panic.
Proof.
  apply (bucket_totals_safe_with_limit 1 (mkCursor [] 1 3) (in_utc 0) Hour).
  by_compute.
Defined.

(** *** Projects do not see each other *)


Lemma only_project_tallies projectID (Q : TallyRow -> bool) db :
  (forall r, Q r = true -> (tally_project_id r =? projectID)%N = true) ->
  List.filter Q (bucket_storage_tallies (only_project projectID db))
  = List.filter Q (bucket_storage_tallies db).
Proof. intros H. simpl. now apply filter_sub. Qed.

Lemma only_project_rollups projectID (Q : RollupRow -> bool) db :
  (forall r, Q r = true -> (bw_project_id r =? projectID)%N = true) ->
  List.filter Q (bucket_bandwidth_rollups (only_project projectID db))
  = List.filter Q (bucket_bandwidth_rollups db).
Proof. intros H. simpl. now apply filter_sub. Qed.

Ltac first_conjunct :=
  intros r Hr; repeat (apply andb_true_iff in Hr as [Hr _]); exact Hr.

Lemma only_project_storage_rows projectID bucket since before db :
  storage_rows projectID bucket since before (only_project projectID db)
  = storage_rows projectID bucket since before db.
Proof.
  unfold storage_rows. rewrite only_project_tallies; [reflexivity|].
  unfold tally_selected. first_conjunct.
Qed.

Lemma respects_getBuckets projectID since before :
  respects (only_project projectID)
    (getBucketsSinceAndBefore projectID since before).
Proof.
  apply respects_query; try reflexivity.
  intros db. rewrite only_project_tallies; [reflexivity|]. first_conjunct.
Qed.

Lemma respects_collect projectID since before names m :
  respects (only_project projectID)
    (collect_tallies projectID since before names m).
Proof.
  revert m. induction names as [|b rest IH]; intros m.
  - now apply respects_ret.
  - cbn [collect_tallies]. apply respects_bind; [|intros rows; apply IH].
    apply respects_query; try reflexivity.
    intros db. apply only_project_storage_rows.
Qed.

Lemma respects_scan_egress op rows r : respects op (scan_egress rows r).
Proof.
  revert r. induction rows as [|[[settled inline] action] rows IH]; intros r.
  - now apply respects_ret.
  - cbn [scan_egress]. apply respects_bind; [apply respects_scan_int64|].
    intros s. apply respects_bind; [apply respects_scan_int64|].
    intros i. apply IH.
Qed.

Lemma respects_bucket_usage projectID since before bucket :
  respects (only_project projectID) (bucket_usage projectID since before bucket).
Proof.
  unfold bucket_usage. apply respects_bind.
  { apply respects_query; try reflexivity. intros db.
    rewrite only_project_rollups; [reflexivity|].
    unfold rollup_selected. first_conjunct. }
  intros total. apply respects_bind; [apply respects_scan_int64|].
  intros egress. apply respects_bind.
  { apply respects_query; try reflexivity. intros db.
    unfold latest_tally. now rewrite only_project_storage_rows. }
  intros [[[tb inl] rem] oc]. apply respects_ret; reflexivity.
Qed.

(** X18: the usage of a project does not depend on the rows of other
    projects: [GetProjectTotal], [GetBucketUsageRollups] and
    [GetBucketTotals] return the same result, in every state of the
    connection, when all tallies and rollups of other projects are taken
    out of the tables. *)
Theorem usage_ignores_other_projects order projectID since before cursor db :
  fst (GetProjectTotal order projectID since before (only_project projectID db))
  = fst (GetProjectTotal order projectID since before db)
  /\ fst (GetBucketUsageRollups projectID since before (only_project projectID db))
     = fst (GetBucketUsageRollups projectID since before db)
  /\ fst (GetBucketTotals projectID cursor since before (only_project projectID db))
     = fst (GetBucketTotals projectID cursor since before db).
Proof.
  split; [|split].
  - apply (respects_bind (only_project projectID)); try reflexivity.
    { apply respects_getBuckets. }
    intros names. apply respects_bind; try reflexivity.
    { apply respects_collect. }
    intros m. apply respects_bind; try reflexivity.
    { unfold getTotalEgress.
      apply respects_bind; [|intros total; apply respects_scan_int64].
      apply respects_query; try reflexivity. intros d.
      rewrite only_project_rollups; [reflexivity|].
      unfold rollup_selected. first_conjunct. }
    intros egress. destruct (sum_buckets _ _) as [[st oc]|];
      [apply respects_ret|apply respects_panic]; reflexivity.
  - apply (respects_bind (only_project projectID)); try reflexivity.
    { apply respects_getBuckets. }
    intros names. apply respects_mapM; try reflexivity. intros bucket.
    unfold bucket_usage_rollup. apply respects_bind; try reflexivity.
    { apply respects_query; try reflexivity. intros d.
      unfold rollups_by_action.
      rewrite only_project_rollups; [reflexivity|]. first_conjunct. }
    intros rollups. apply respects_bind; [apply respects_scan_egress|].
    intros rollup. apply respects_bind; try reflexivity.
    { apply respects_query; try reflexivity. intros d.
      apply only_project_storage_rows. }
    intros rows. destruct (fill_storage _ _ _);
      [apply respects_ret|apply respects_panic]; reflexivity.
  - unfold GetBucketTotals.
    destruct (cur_Page cursor =? 0); [reflexivity|].
    change (prefixMatch (only_project projectID db) (cur_Search cursor))
      with (prefixMatch db (cur_Search cursor)).
    destruct (prefixMatch db (cur_Search cursor)) as [[e incr]|err|];
      [|reflexivity|reflexivity].
    match goal with
    | |- fst (?m _) = _ =>
        assert (Hm : respects (only_project projectID) m); [|apply Hm]
    end.
    apply respects_bind; try reflexivity.
    { apply respects_query; reflexivity. }
    intros total. destruct (total =? 0); [apply respects_ret; reflexivity|].
    destruct (_ <? _); [apply respects_fail; reflexivity|].
    apply respects_bind; try reflexivity.
    { apply respects_query; reflexivity. }
    intros buckets. apply respects_bind; try reflexivity.
    { apply respects_mapM; try reflexivity. intros b.
      apply respects_bucket_usage. }
    intros usages. destruct (_ =? 0);
      [apply respects_panic|apply respects_ret]; reflexivity.
Qed.

End ReadMore.


(** ** GetBucketTotals: what is on a page *)
Module PagingMore.
Import PrefixRange Accounting AccountingMore.


Lemma bytes_leb_le a b : bytes_leb a b = true -> bytes_le a b.
Proof.
  unfold bytes_leb, bytes_le. destruct (bytes_compare a b); congruence.
Qed.

Lemma bytes_leb_total a b : bytes_leb a b = false -> bytes_le b a.
Proof.
  unfold bytes_leb, bytes_le.
  rewrite (PrefixRangeProps.bytes_compare_antisym a b).
  destruct (bytes_compare a b); simpl; congruence.
Qed.

Lemma insert_name_sorted n l :
  Sorted bytes_le l -> Sorted bytes_le (insert_name n l).
Proof.
  induction 1 as [|x l Hs IH Hhd]; simpl; [repeat constructor|].
  destruct (bytes_leb n x) eqn:E.
  - constructor; [now constructor|]. constructor. now apply bytes_leb_le.
  - constructor; [exact IH|].
    destruct Hhd as [|y l Hxy]; simpl.
    + constructor. now apply bytes_leb_total.
    + destruct (bytes_leb n y); constructor;
        [now apply bytes_leb_total|exact Hxy].
Qed.

Lemma order_names_sorted l : Sorted bytes_le (order_names l).
Proof.
  induction l as [|n l IH]; simpl; [constructor|]. now apply insert_name_sorted.
Qed.

Lemma Sorted_drop {A} (R : A -> A -> Prop) n l :
  Sorted R l -> Sorted R (drop n l).
Proof.
  revert l. induction n as [|n IH]; intros l Hs; [exact Hs|].
  destruct l as [|x l]; [constructor|]. simpl. apply IH.
  now inversion Hs.
Qed.

Lemma Sorted_take {A} (R : A -> A -> Prop) n l :
  Sorted R l -> Sorted R (take n l).
Proof.
  revert l. induction n as [|n IH]; intros l Hs; [constructor|].
  destruct l as [|x l]; [constructor|]. simpl.
  inversion Hs as [|? ? Hs' Hhd]; subst. constructor; [now apply IH|].
  destruct n; [constructor|]. destruct Hhd; simpl; now constructor.
Qed.

Lemma In_take {A} (x : A) n l : In x (take n l) -> In x l.
Proof.
  revert l. induction n as [|n IH]; intros [|y l]; simpl; try tauto.
  intros [H|H]; [now left|right; now apply IH].
Qed.

Lemma In_drop {A} (x : A) n l : In x (drop n l) -> In x l.
Proof.
  revert l. induction n as [|n IH]; intros [|y l]; simpl; try tauto.
  intros H. right. now apply IH.
Qed.

Lemma sorted_matching_perm projectID prefix db :
  Permutation (sorted_matching projectID prefix db)
    (map mi_name (matching_buckets projectID prefix db)).
Proof.
  unfold sorted_matching. rewrite AccountingProps.order_names_perm.
  unfold matching_names, matching_buckets.
  erewrite List.filter_ext; [reflexivity|].
  intros r. cbv beta. now rewrite AccountingProps.search_range_prefix.
Qed.



(** X19: the entries of a page that [GetBucketTotals] returns on a
    connection that does not fail are those of the project's buckets that
    start with the search prefix, in ascending order of their names, from
    the page's offset on and at most as many as the page's limit, which is
    at most 50 when the requested limit is not negative; every entry
    carries the project, [before], and [since] truncated to the hour: the
    start, on the clock of the zone of [since], of the hour that holds
    [since], in that zone. *)
Theorem bucket_totals_page_contents projectID cursor since before db page :
  fault db = None -> impl db <> OtherImpl ->
  fst (GetBucketTotals projectID cursor since before db) = Ok page ->
  let names := map bu_BucketName (BucketUsages page) in
  names = take (Z.to_nat (Limit page))
            (drop (Z.to_nat (Offset page))
               (sorted_matching projectID (cur_Search cursor) db))
  /\ Z.of_nat (length names) <= Z.max 0 (Limit page)
  /\ Limit page <= 50
  /\ Sorted bytes_le names
  /\ Forall (fun n => has_prefix (cur_Search cursor) n = true
                      /\ In (mkMetainfoRow projectID n) (bucket_metainfos db))
       names
  /\ Forall (fun u => bu_ProjectID u = projectID
                      /\ bu_Since u = timeTruncateDown since
                      /\ bu_Before u = before) (BucketUsages page)
  /\ Forall (fun u => hour_start since (at_instant (bu_Since u))
                      /\ zone_offset (bu_Since u) = zone_offset since)
       (BucketUsages page).
Proof.
  intros Hf Hi Hr names.
  destruct (AccountingProps.GetBucketTotals_entries projectID cursor since
              before db page Hf Hi Hr) as (HL & HO & _ & Hall).
  destruct (AccountingProps.Forall2_names _ _ _ _ _ _ Hall Hf) as [Hn Hfields].
  assert (Hcap : capped cursor <= 50).
  { unfold capped. destruct (50 <? cur_Limit cursor) eqn:E; [lia|].
    now apply Z.ltb_ge in E. }
  assert (Hslice : forall l o,
            let sl := take (Z.to_nat l)
                        (drop (Z.to_nat o)
                           (sorted_matching projectID (cur_Search cursor) db)) in
            Z.of_nat (length sl) <= Z.max 0 l
            /\ Sorted bytes_le sl
            /\ Forall (fun n => has_prefix (cur_Search cursor) n = true
                                /\ In (mkMetainfoRow projectID n)
                                      (bucket_metainfos db)) sl).
  { intros l o sl. split; [|split].
    - unfold sl. rewrite length_take. lia.
    - apply Sorted_take, Sorted_drop, order_names_sorted.
    - apply List.Forall_forall. intros n Hin.
      apply In_take, In_drop in Hin.
      apply (Permutation_in _ (sorted_matching_perm _ _ _)) in Hin.
      apply in_map_iff in Hin as (r & <- & Hin).
      apply filter_In in Hin as [Hin Hsel].
      apply andb_true_iff in Hsel as [Hpid Hpre]. apply N.eqb_eq in Hpid.
      split; [exact Hpre|]. destruct r as [pid nm]. simpl in *. now subst pid. }
  unfold names. rewrite Hn.
  destruct (Hslice (Limit page) (Offset page)) as (H1 & H2 & H3).
  split; [reflexivity|]. split; [exact H1|]. split; [now rewrite HL|].
  split; [exact H2|]. split; [exact H3|]. split; [exact Hfields|].
  eapply List.Forall_impl; [|exact Hfields].
  intros u (_ & -> & _). apply AccountingProps.timeTruncateDown_hour_start.
Qed.

Lemma bucket_totals_page_contents_witness :
  map bu_BucketName (BucketUsages listing_page) = [[x61]; [x62]].
Proof.
  rewrite (proj1 (bucket_totals_page_contents 1 (mkCursor [] 2 1) (in_utc 0)
                    Hour db_listing listing_page eq_refl ltac:(discriminate)
                    eq_refl)).
  reflexivity.
Defined.

(** *** Paging through a listing *)

Lemma chunks_take {A} (l : list A) n k :
  concat (map (fun i => take n (drop (i * n) l)) (seq 0 k)) = take (k * n) l.
Proof.
  induction k as [|k IH]; [reflexivity|].
  rewrite seq_S, map_app, concat_app, IH. simpl.
  rewrite app_nil_r, take_take_drop. f_equal. lia.
Qed.

Lemma page_names_slice projectID search limit since before db p :
  fault db = None -> bandwidth_fits db -> impl db <> OtherImpl -> 1 <= limit ->
  total_matching projectID search db < 2^64 ->
  Z.of_nat p * Z.min limit 50 < total_matching projectID search db ->
  page_names projectID search limit since before db (S p)
  = take (Z.to_nat (Z.min limit 50))
      (drop (p * Z.to_nat (Z.min limit 50)) (sorted_matching projectID search db)).
Proof.
  intros Hf Hb Hi Hl Ht Hp. unfold page_names.
  set (cursor := mkCursor search limit (Z.of_nat (S p))).
  rewrite (AccountingProps.GetBucketTotals_healthy projectID cursor since
             before db Hf Hi ltac:(simpl; lia)).
  cbn [fst].
  destruct (AccountingProps.mapM_Forall2
              (bucket_usage projectID (timeTruncateDown since) before)
              (take (Z.to_nat (capped cursor))
                 (drop (Z.to_nat (wrapU64 (wrapU64 (cur_Page cursor - 1)
                                           * capped cursor)))
                    (sorted_matching projectID (cur_Search cursor) db))) db
              (fun b => AccountingProps.bucket_usage_fits projectID
                          (timeTruncateDown since) before b db Hf Hb))
    as (us & Hrun & Hall).
  rewrite Hrun. cbn [fst]. clear Hrun.
  destruct (AccountingProps.Forall2_names _ _ _ _ _ _ Hall Hf) as [Hn _].
  clear Hall.
  rewrite (AccountingProps.capped_min cursor) in *.
  change (cur_Limit cursor) with limit in *.
  change (cur_Search cursor) with search in *.
  change (cur_Page cursor) with (Z.of_nat (S p)) in *.
  set (lim := Z.min limit 50) in *.
  set (total := total_matching projectID search db) in *.
  assert (Hlim : 1 <= lim <= 50) by (unfold lim; lia).
  assert (Hoff : wrapU64 (wrapU64 (Z.of_nat (S p) - 1) * lim) = Z.of_nat p * lim).
  { replace (Z.of_nat (S p) - 1) with (Z.of_nat p) by lia.
    assert (Z.of_nat p <= Z.of_nat p * lim) by nia.
    rewrite (AccountingProps.wrapU64_small (Z.of_nat p)) by lia.
    apply AccountingProps.wrapU64_small. lia. }
  rewrite Hoff in *.
  assert (E0 : (total =? 0) = false) by (apply Z.eqb_neq; lia).
  rewrite E0.
  rewrite AccountingProps.wrapU64_small by lia.
  assert (E1 : (total - 1 <? Z.of_nat p * lim) = false) by (apply Z.ltb_ge; lia).
  rewrite E1.
  assert (E2 : (lim =? 0) = false) by (apply Z.eqb_neq; lia).
  rewrite E2. cbn [BucketUsages]. rewrite Hn.
  do 2 f_equal. rewrite Z2Nat.inj_mul by lia. now rewrite Nat2Z.id.
Qed.

(** X20: paging through a listing with a limit of at least 1, on a
    connection that does not fail and whose bandwidth sums fit the 64-bit
    integers they are scanned into, reaches every bucket: the pages 1 to
    the page count (the ceiling of the total over the capped limit), one
    after the other, hold the names of the project's buckets that start
    with the search prefix, each as often as it is stored, in ascending
    order. *)
Theorem bucket_totals_pages_cover projectID search limit since before db :
  fault db = None -> bandwidth_fits db -> impl db <> OtherImpl -> 1 <= limit ->
  total_matching projectID search db < 2^64 ->
  let pages :=
    Z.to_nat (ceil_div (total_matching projectID search db) (Z.min limit 50)) in
  let listing :=
    concat (map (page_names projectID search limit since before db)
              (seq 1 pages)) in
  listing = sorted_matching projectID search db
  /\ Sorted bytes_le listing
  /\ Permutation listing (map mi_name (matching_buckets projectID search db)).
Proof.
  intros Hf Hb Hi Hl Ht pages listing.
  assert (Hlist : listing = sorted_matching projectID search db).
  { unfold listing.
    set (lim := Z.min limit 50) in *.
    set (total := total_matching projectID search db) in *.
    assert (Hlim : 1 <= lim <= 50) by (unfold lim; lia).
    assert (Htot : 0 <= total) by (unfold total, total_matching; lia).
    pose proof (AccountingProps.ceil_div_spec total lim Htot ltac:(lia)) as Hc.
    assert (Hpages : Z.of_nat pages = ceil_div total lim).
    { unfold pages. apply Z2Nat.id. nia. }
    rewrite <- seq_shift, List.map_map.
    rewrite (map_ext_in _ (fun i => take (Z.to_nat lim)
                                      (drop (i * Z.to_nat lim)
                                         (sorted_matching projectID search db)))).
    2:{ intros i Hin. apply in_seq in Hin.
        apply page_names_slice; try assumption. fold lim total. nia. }
    rewrite chunks_take. apply take_ge.
    apply Nat2Z.inj_le. rewrite AccountingProps.sorted_matching_length. fold total.
    rewrite Nat2Z.inj_mul, Hpages, Z2Nat.id by lia. lia. }
  split; [exact Hlist|]. rewrite Hlist.
  split; [apply order_names_sorted|apply sorted_matching_perm].
Qed.

Lemma bucket_totals_pages_cover_witness :
  page_names 1 [] 2 (in_utc 0) Hour db_listing 1
  ++ page_names 1 [] 2 (in_utc 0) Hour db_listing 2
  = [[x61]; [x62]; [x63]].
Proof.
  pose proof (proj1 (bucket_totals_pages_cover 1 [] 2 (in_utc 0) Hour
                       db_listing eq_refl ltac:(vm_compute; reflexivity)
                       ltac:(discriminate) ltac:(lia) eq_refl)) as H.
  change (page_names 1 [] 2 (in_utc 0) Hour db_listing 1
          ++ page_names 1 [] 2 (in_utc 0) Hour db_listing 2 ++ []
          = sorted_matching 1 [] db_listing) in H.
  rewrite app_nil_r in H. rewrite H. reflexivity.
Defined.

(** *** The entries of a page *)




End PagingMore.


(** ** GetBucketUsageRollups: one rollup for each bucket *)
Module RollupMore.
Import PrefixRange Accounting AccountingMore.



End RollupMore.


(** ** Reading usage over a connection that fails *)
Module FaultMore.
Import PrefixRange Accounting AccountingMore.

Lemma costs_ret {A} (a : A) db : costs (ret a) db 0 a.
Proof.
  intros [k|]; [|reflexivity]. unfold ret. simpl. now rewrite Nat.sub_0_r.
Qed.

Lemma costs_query {A} (q : satelliteDB -> A) db :
  (forall f, q (set_fault db f) = q db) -> costs (query q) db 1 (q db).
Proof.
  intros Hq [[|k]|]; unfold query; simpl; rewrite ?Hq; try reflexivity.
  now rewrite Nat.sub_0_r.
Qed.

Lemma costs_bind {A B} (m : M A) (k : A -> M B) db n n' a b :
  costs m db n a -> costs (k a) db n' b -> costs (bind m k) db (n + n') b.
Proof.
  intros Hm Hk f. unfold bind. rewrite (Hm f). destruct f as [j|].
  - destruct (n <=? j)%nat eqn:E.
    + apply Nat.leb_le in E. rewrite (Hk (Some (j - n)%nat)).
      destruct (n' <=? j - n)%nat eqn:E'.
      * apply Nat.leb_le in E'.
        assert (E2 : (n + n' <=? j)%nat = true) by (apply Nat.leb_le; lia).
        rewrite E2. do 3 f_equal. lia.
      * apply Nat.leb_gt in E'.
        assert (E2 : (n + n' <=? j)%nat = false) by (apply Nat.leb_gt; lia).
        now rewrite E2.
    + apply Nat.leb_gt in E.
      assert (E2 : (n + n' <=? j)%nat = false) by (apply Nat.leb_gt; lia).
      now rewrite E2.
  - apply (Hk None).
Qed.

Lemma costs_mapM {A B} (f : A -> M B) l db c :
  (forall x, exists y, costs (f x) db c y) ->
  exists ys, costs (mapM f l) db (length l * c) ys.
Proof.
  intros Hf. induction l as [|x l (ys & IH)].
  - exists []. apply costs_ret.
  - destruct (Hf x) as [y Hy]. exists (y :: ys).
    cbn [mapM length Nat.mul].
    apply (costs_bind _ _ db c (length l * c) y); [exact Hy|].
    replace (length l * c)%nat with (length l * c + 0)%nat by lia.
    apply (costs_bind _ _ db _ 0 ys); [exact IH|apply costs_ret].
Qed.

Lemma costs_collect projectID since before names m db :
  exists a,
    costs (collect_tallies projectID since before names m) db (length names) a.
Proof.
  revert m. induction names as [|b rest IH]; intros m.
  - exists m. apply costs_ret.
  - cbn [collect_tallies length].
    destruct (IH (assign b
                    (map (scan_storage_tally b)
                       (storage_rows projectID b since before db)) m))
      as [a Ha].
    exists a. change (S (length rest)) with (1 + length rest)%nat.
    eapply costs_bind; [now apply costs_query|exact Ha].
Qed.

Lemma fails_bind_l {A B} (m : M A) (k : A -> M B) db :
  fails m db -> fails (bind m k) db.
Proof.
  intros Hm f. unfold bind. specialize (Hm f).
  destruct (m (set_fault db f)) as [[a|e|] db']; simpl in Hm; try discriminate.
  simpl. now injection Hm as ->.
Qed.

Lemma fails_bind_r {A B} (m : M A) (k : A -> M B) db n a :
  costs m db n a -> fails (k a) db -> fails (bind m k) db.
Proof.
  intros Hm Hk f. unfold bind. rewrite (Hm f). destruct f as [j|].
  - destruct (n <=? j)%nat; [apply (Hk (Some (j - n)%nat))|reflexivity].
  - apply (Hk None).
Qed.

(** A scan costs no statement; it fails when the value does not fit. *)
Lemma scan_int64_outcome v db :
  costs (scan_int64 v) db 0 v \/ fails (scan_int64 v) db.
Proof.
  destruct ((- 2^63 <=? v) && (v <? 2^63)) eqn:E.
  - left. intros f. rewrite AccountingProps.scan_int64_cases, E.
    destruct f as [k|]; [|reflexivity]. simpl. now rewrite Nat.sub_0_r.
  - right. intros f. now rewrite AccountingProps.scan_int64_cases, E.
Qed.

Lemma scan_egress_outcome rows r db :
  (exists r', costs (scan_egress rows r) db 0 r')
  \/ fails (scan_egress rows r) db.
Proof.
  revert r. induction rows as [|[[settled inline] action] rows IH]; intros r.
  - left. exists r. apply costs_ret.
  - cbn [scan_egress].
    destruct (scan_int64_outcome settled db) as [H1|H1];
      [|right; now apply fails_bind_l].
    destruct (scan_int64_outcome inline db) as [H2|H2];
      [|right; eapply fails_bind_r; [exact H1|now apply fails_bind_l]].
    destruct (IH (fill_egress r (settled, inline, action))) as [[r' Hr']|Hr'].
    + left. exists r'. change 0%nat with (0 + (0 + 0))%nat.
      eapply costs_bind; [exact H1|]. eapply costs_bind; [exact H2|exact Hr'].
    + right. eapply fails_bind_r; [exact H1|].
      eapply fails_bind_r; [exact H2|exact Hr'].
Qed.

Lemma mapM_outcome {A B} (f : A -> M B) l db c :
  (forall x, (exists y, costs (f x) db c y) \/ fails (f x) db) ->
  (exists ys, costs (mapM f l) db (length l * c) ys) \/ fails (mapM f l) db.
Proof.
  intros Hf. induction l as [|x l IH].
  - left. exists []. apply costs_ret.
  - cbn [mapM length Nat.mul].
    destruct (Hf x) as [[y Hy]|Hx]; [|right; now apply fails_bind_l].
    destruct IH as [[ys Hys]|Hl].
    + left. exists (y :: ys).
      apply (costs_bind _ _ db c (length l * c) y); [exact Hy|].
      replace (length l * c)%nat with (length l * c + 0)%nat by lia.
      apply (costs_bind _ _ db _ 0 ys); [exact Hys|apply costs_ret].
    + right. eapply fails_bind_r; [exact Hy|now apply fails_bind_l].
Qed.

Lemma getTotalEgress_outcome projectID since before db :
  (exists egress, costs (getTotalEgress projectID since before) db 1 egress)
  \/ fails (getTotalEgress projectID since before) db.
Proof.
  unfold getTotalEgress.
  match goal with
  | |- _ \/ fails (bind (query ?q) _) _ =>
      destruct (scan_int64_outcome (q db) db) as [Hs|Hs];
      [left; exists (q db); change 1%nat with (1 + 0)%nat;
       eapply costs_bind; [now apply costs_query|exact Hs]
      |right; eapply fails_bind_r; [now apply costs_query|exact Hs]]
  end.
Qed.

Lemma GetProjectTotal_outcome order projectID since before db :
  let n :=
    length (window_buckets projectID (at_instant (timeTruncateDown since))
              before db) in
  (exists usage,
     costs (GetProjectTotal order projectID since before) db (n + 2) usage)
  \/ fails (GetProjectTotal order projectID since before) db.
Proof.
  intros n. unfold GetProjectTotal, getBucketsSinceAndBefore.
  set (since' := timeTruncateDown since) in *.
  destruct (costs_collect projectID (at_instant since') before
              (window_buckets projectID (at_instant since') before db) [] db)
    as [m Hm].
  fold n in Hm.
  destruct (getTotalEgress_outcome projectID (at_instant since') before db)
    as [[egress Hs]|Hs].
  - left. eexists.
    replace (n + 2)%nat with (1 + (n + (1 + 0)))%nat by lia.
    eapply costs_bind; [now apply costs_query|].
    eapply costs_bind; [exact Hm|].
    eapply costs_bind; [exact Hs|].
    rewrite AccountingProps.sum_buckets_weighted. apply costs_ret.
  - right.
    eapply fails_bind_r; [now apply costs_query|].
    eapply fails_bind_r; [exact Hm|].
    now apply fails_bind_l.
Qed.

Lemma bucket_usage_rollup_outcome projectID since before bucket db :
  (exists r, costs (bucket_usage_rollup projectID since before bucket) db 2 r)
  \/ fails (bucket_usage_rollup projectID since before bucket) db.
Proof.
  unfold bucket_usage_rollup.
  match goal with
  | |- context [scan_egress _ ?r0] =>
      destruct (scan_egress_outcome
                  (rollups_by_action projectID bucket (at_instant since) before
                     db) r0 db) as [[r1 Hr1]|Hr1]
  end.
  - destruct (ReadMore.fill_storage_all
                (storage_rows projectID bucket (at_instant since) before db) r1)
      as [r' Hr'].
    left. exists r'. change 2%nat with (1 + (0 + (1 + 0)))%nat.
    eapply costs_bind; [now apply costs_query|].
    eapply costs_bind; [exact Hr1|].
    eapply costs_bind; [now apply costs_query|].
    rewrite Hr'. apply costs_ret.
  - right. eapply fails_bind_r; [now apply costs_query|].
    now apply fails_bind_l.
Qed.

Lemma GetBucketUsageRollups_outcome projectID since before db :
  let n :=
    length (window_buckets projectID
              (at_instant (timeTruncateDown (Time_UTC since))) before db) in
  (exists rollups,
     costs (GetBucketUsageRollups projectID since before) db (1 + n * 2) rollups)
  \/ fails (GetBucketUsageRollups projectID since before) db.
Proof.
  intros n. unfold GetBucketUsageRollups, getBucketsSinceAndBefore.
  set (since' := timeTruncateDown (Time_UTC since)) in *.
  destruct (mapM_outcome (bucket_usage_rollup projectID since' before)
              (window_buckets projectID (at_instant since') before db) db 2
              (fun b => bucket_usage_rollup_outcome projectID since' before b db))
    as [[rs Hrs]|Hrs].
  - left. exists rs. eapply costs_bind; [now apply costs_query|exact Hrs].
  - right. eapply fails_bind_r; [now apply costs_query|exact Hrs].
Qed.

Lemma set_fault_same db : set_fault db (fault db) = db.
Proof. now destruct db. Qed.

Lemma outcome_all_or_nothing {A} (m : M A) db n k :
  fault db = Some k ->
  (exists a, costs m db n a) \/ fails m db ->
  fst (m db)
  = (if (n <=? k)%nat then fst (m (set_fault db None)) else Err ErrStore).
Proof.
  intros Hk [[a Ha]|Hm].
  - pose proof (Ha (Some k)) as H1. pose proof (Ha None) as H2.
    cbv beta iota in H1, H2. rewrite <- Hk, set_fault_same in H1.
    rewrite H1, H2. now destruct (n <=? k)%nat.
  - pose proof (Hm (Some k)) as H1. pose proof (Hm None) as H2.
    rewrite <- Hk, set_fault_same in H1. rewrite H1, H2.
    now destruct (n <=? k)%nat.
Qed.

(** X23: [GetProjectTotal] issues one statement for the bucket names, one
    for each bucket with a tally in the window and one for the egress;
    [GetBucketUsageRollups] issues one for the bucket names and two for
    each bucket.  On a connection that fails before the last of them the
    call returns an error of database/sql and no partial usage; on one
    that serves them all it returns what it returns on a connection that
    never fails.  There it returns a usage when the bandwidth sums fit the
    64-bit integers they are scanned into; a scan that fails ends the call
    with an error of database/sql as well.  The window of
    [GetProjectTotal] starts at [since] truncated to the hour in the zone
    of [since], that of [GetBucketUsageRollups] at [since] converted to
    UTC and truncated. *)
Theorem usage_reads_all_or_nothing order projectID since before db k :
  fault db = Some k ->
  let healthy := set_fault db None in
  let n :=
    length (window_buckets projectID (at_instant (timeTruncateDown since))
              before db) in
  let n_utc :=
    length (window_buckets projectID
              (at_instant (timeTruncateDown (Time_UTC since))) before db) in
  fst (GetProjectTotal order projectID since before db)
  = (if (n + 2 <=? k)%nat
     then fst (GetProjectTotal order projectID since before healthy)
     else Err ErrStore)
  /\ fst (GetBucketUsageRollups projectID since before db)
     = (if (1 + n_utc * 2 <=? k)%nat
        then fst (GetBucketUsageRollups projectID since before healthy)
        else Err ErrStore)
  /\ (bandwidth_fits db ->
      exists usage,
        fst (GetProjectTotal order projectID since before healthy) = Ok usage)
  /\ (bandwidth_fits db ->
      exists rollups,
        fst (GetBucketUsageRollups projectID since before healthy) = Ok rollups).
Proof.
  intros Hk healthy n n_utc.
  split.
  { apply outcome_all_or_nothing; [exact Hk|].
    apply GetProjectTotal_outcome. }
  split.
  { apply outcome_all_or_nothing; [exact Hk|].
    apply GetBucketUsageRollups_outcome. }
  split; intros Hb.
  - rewrite (AccountingProps.GetProjectTotal_healthy order projectID since
               before healthy eq_refl).
    cbn [fst].
    destruct (AccountingProps.bandwidth_fits_total healthy
                (rollup_selected projectID
                   (at_instant (timeTruncateDown since)) before PieceAction_GET)
                Hb) as [H1 H2].
    apply Z.leb_le in H1. apply Z.ltb_lt in H2.
    unfold egress_rows. rewrite H1, H2. now eexists.
  - destruct (AccountingProps.GetBucketUsageRollups_healthy projectID since
                before healthy eq_refl Hb) as (rollups & Hrun & _).
    exists rollups. now rewrite Hrun.
Qed.

Lemma usage_reads_all_or_nothing_witness :
  fst (GetProjectTotal (fun m => m) 1 (in_utc 0) Hour
         (set_fault db_boundary (Some 2%nat)))
  = Err ErrStore
  /\ fst (GetBucketUsageRollups 1 (in_utc 0) Hour
            (set_fault db_boundary (Some 2%nat)))
     = Err ErrStore.
Proof.
  destruct (usage_reads_all_or_nothing (fun m => m) 1 (in_utc 0) Hour
              (set_fault db_boundary (Some 2%nat)) 2 eq_refl) as (H1 & H2 & _).
  split; [exact H1|exact H2].
Defined.

End FaultMore.
